(** * Bus route lookup: the route-finding core of [bus_routes/views.py]

    A shallow embedding of the functions of [bus_routes/views.py] that decide
    how two stops are connected, together with the tables of
    [bus_routes/models.py] they read:

    - [parse_stop_name_with_road], [get_bus_stop_object]
    - [get_route_details_from_osrm]
    - [find_shortest_path]
    - [get_segment_details], [find_stops_between]
    - the [bus_stop], [between_stops], [bus_line] and [buses_by_stop]
      branches of [search_route]
    - [view_saved_route], and [BusStop.__str__] of [models.py]

    Conventions of the embedding.
    - A Python [str] is the list of its Unicode code points.
    - Primary keys, line numbers and [order] values are integers ([Z]).
    - A [DecimalField(decimal_places=6)] value is the integer number of
      millionths; a Python float is the exact rational it stands for, or one
      of [nan], [inf] and [-inf] (rounding to binary is not modelled).
    - A Python exception is a value of [exn]; a function that can raise
      returns [result].
    - A [while] loop is a function with fuel; [None] means the fuel ran out,
      and the termination theorems show that enough fuel always exists. *)

From Stdlib Require Import ZArith QArith Qround Lia List String Ascii Bool.
From stdpp Require Import gmap list sorting.

Local Open Scope Z_scope.

(** ** Python values *)

(** [str]: the sequence of code points. *)
Abbreviation pystr := (list Z).

(** An ASCII literal as a [str]. *)
Definition py (s : string) : pystr :=
  List.map (fun a => Z.of_N (N_of_ascii a)) (list_ascii_of_string s).

Definition LPAREN : Z := 40.
Definition RPAREN : Z := 41.

Definition pystr_eqb (a b : pystr) : bool :=
  bool_decide (a = b).

(** [c in s] for a one-character [c]. *)
Definition str_contains (c : Z) (s : pystr) : bool :=
  existsb (Z.eqb c) s.

(** [s.endswith(c)] for a one-character [c]. *)
Definition endswith (c : Z) (s : pystr) : bool :=
  match last s with
  | Some x => x =? c
  | None => false
  end.

(** The characters [str.isspace] accepts, which are the ones [str.strip()]
    removes: U+0009..U+000D, U+001C..U+0020, U+0085, U+00A0, U+1680,
    U+2000..U+200A, U+2028, U+2029, U+202F, U+205F, U+3000. *)
Definition isspace (c : Z) : bool :=
  ((9 <=? c) && (c <=? 13)) || ((28 <=? c) && (c <=? 32))
  || (c =? 133) || (c =? 160) || (c =? 5760)
  || ((8192 <=? c) && (c <=? 8202))
  || (c =? 8232) || (c =? 8233) || (c =? 8239) || (c =? 8287) || (c =? 12288).

Fixpoint lstrip (s : pystr) : pystr :=
  match s with
  | [] => []
  | c :: s' => if isspace c then lstrip s' else s
  end.

Definition rstrip (s : pystr) : pystr := rev (lstrip (rev s)).

(** [s.strip()] *)
Definition strip (s : pystr) : pystr := rstrip (lstrip s).

(** The cut [s.rsplit(c, 1)] makes: the text before and after the last [c],
    or [None] when [c] does not occur. *)
Fixpoint rsplit_last (c : Z) (s : pystr) : option (pystr * pystr) :=
  match s with
  | [] => None
  | x :: s' =>
      match rsplit_last c s' with
      | Some (a, b) => Some (x :: a, b)
      | None => if x =? c then Some ([], s') else None
      end
  end.

(** [s.rsplit(c, 1)] *)
Definition rsplit1 (c : Z) (s : pystr) : list pystr :=
  match rsplit_last c s with
  | Some (a, b) => [a; b]
  | None => [s]
  end.

(** [s[:-1]] *)
Definition drop_last (s : pystr) : pystr := removelast s.

(** Truthiness of an optional string: [None] and [''] are falsy. *)
Definition str_truthy (o : option pystr) : bool :=
  match o with
  | Some (_ :: _) => true
  | _ => false
  end.

(** ** Exceptions *)

Inductive exn : Type :=
  | KeyError
  | TypeError
  | IndexError
  | AttributeError
  | ValueError
  | OverflowError
  | RequestException.

Inductive result (A : Type) : Type :=
  | Ok (a : A)
  | Raise (e : exn).
Arguments Ok {A} a.
Arguments Raise {A} e.

Definition rbind {A B} (r : result A) (k : A -> result B) : result B :=
  match r with
  | Ok a => k a
  | Raise e => Raise e
  end.

Notation "'try!' x := r 'in' k" := (rbind r (fun x => k))
  (at level 10, x name, r at level 100, k at level 200).

(** ** The tables of [models.py] *)

Record BusStop : Type := mkBusStop {
  stop_id : Z;
  name_mm : pystr;
  name_en : pystr;
  road_name_mm : option pystr;
  road_name_en : option pystr;
  latitude : option Z;   (* millionths of a degree; [None] is NULL *)
  longitude : option Z
}.

Record BusLine : Type := mkBusLine {
  line_id : Z;
  line_number : Z
}.

(** A [RouteSegment] row as the ORM hands it out: [bus_line] and [bus_stop]
    are the related objects. *)
Record RouteSegment : Type := mkRouteSegment {
  bus_line : BusLine;
  bus_stop : BusStop;
  order : Z
}.

Definition bus_line_id (s : RouteSegment) : Z := line_id (bus_line s).

(** What the queries of one request see: [BusStop.objects.all()],
    [BusLine.objects.all()] and [RouteSegment.objects.all()], each in the
    order the database returns its rows ([RouteSegment] has
    [ordering = ['bus_line', 'order']]). *)
Record Store : Type := mkStore {
  all_stops : list BusStop;
  all_lines : list BusLine;
  all_route_segments : list RouteSegment
}.

(** ** Stop Name Resolver *)

Definition parse_stop_name_with_road (full_name : pystr) : pystr * option pystr :=
  if str_contains LPAREN full_name && endswith RPAREN full_name then
    let parts := rsplit1 LPAREN full_name in
    let stop_name := strip (nth 0 parts []) in
    let road_name := strip (drop_last (nth 1 parts [])) in
    (stop_name, Some road_name)
  else (full_name, None).

(** Case folding of the [iexact] lookup; the letters A-Z and a-z are folded,
    what the database does beyond them depends on its collation. *)
Definition upper (c : Z) : Z :=
  if (97 <=? c) && (c <=? 122) then c - 32 else c.

Definition iexact (field value : pystr) : bool :=
  pystr_eqb (List.map upper field) (List.map upper value).

(** [iexact] on a nullable column: NULL matches nothing. *)
Definition iexact_null (field : option pystr) (value : pystr) : bool :=
  match field with
  | Some f => iexact f value
  | None => false
  end.

Definition isnull {A} (field : option A) : bool :=
  match field with
  | Some _ => false
  | None => true
  end.

(** [qs.first()] on a model without [Meta.ordering]: the row with the
    smallest primary key. *)
Fixpoint first_by_pk (rows : list BusStop) : option BusStop :=
  match rows with
  | [] => None
  | r :: rows' =>
      match first_by_pk rows' with
      | Some m => if stop_id r <=? stop_id m then Some r else Some m
      | None => Some r
      end
  end.

(** [qs.exists()] *)
Definition qs_exists {A} (rows : list A) : bool :=
  match rows with
  | [] => false
  | _ :: _ => true
  end.

Definition name_query (stop_name : pystr) (s : BusStop) : bool :=
  iexact (name_en s) stop_name || iexact (name_mm s) stop_name.

Definition name_road_query (stop_name road_name : pystr) (s : BusStop) : bool :=
  (iexact (name_en s) stop_name && iexact_null (road_name_en s) road_name)
  || (iexact (name_mm s) stop_name && iexact_null (road_name_mm s) road_name).

Definition no_road_query (stop_name : pystr) (s : BusStop) : bool :=
  (iexact (name_en s) stop_name && isnull (road_name_en s))
  || (iexact (name_en s) stop_name && iexact_null (road_name_en s) [])
  || (iexact (name_mm s) stop_name && isnull (road_name_mm s))
  || (iexact (name_mm s) stop_name && iexact_null (road_name_mm s) []).

Definition get_bus_stop_object (st : Store) (stop_name_raw : pystr) : option BusStop :=
  let '(stop_name, road_name) := parse_stop_name_with_road stop_name_raw in
  let query :=
    if str_truthy road_name then
      let road := default [] road_name in
      if negb (qs_exists (List.filter (name_road_query stop_name road) (all_stops st)))
      then name_query stop_name
      else name_road_query stop_name road
    else
      if qs_exists (List.filter (no_road_query stop_name) (all_stops st))
      then no_road_query stop_name
      else name_query stop_name
  in
  first_by_pk (List.filter query (all_stops st)).

(** The resolution rule in the words of the design document, for a name with
    a road qualifier: the exact (name, road) match in either language first,
    the name-only match only when there is none. *)
Definition resolve_with_road_spec (st : Store) (stop_name road_name : pystr) : option BusStop :=
  match first_by_pk (List.filter (name_road_query stop_name road_name) (all_stops st)) with
  | Some s => Some s
  | None => first_by_pk (List.filter (name_query stop_name) (all_stops st))
  end.

(** ** Distance/duration provider *)

(** A Python [float]: a finite value, kept as the exact rational it stands
    for (rounding to binary is not modelled), or one of the special values
    [nan], [inf] and [-inf]. *)
Inductive pyfloat : Type :=
  | Fl (q : Q)
  | FNan
  | FInf (negative : bool).

(** [x / k] for a float [x] and a positive [int] constant [k]. *)
Definition float_div (x : pyfloat) (k : Z) : pyfloat :=
  match x with
  | Fl q => Fl (q / inject_Z k)%Q
  | FNan => FNan
  | FInf negative => FInf negative
  end.

(** [x + y] on floats. *)
Definition float_add (x y : pyfloat) : pyfloat :=
  match x, y with
  | Fl a, Fl b => Fl (a + b)%Q
  | FNan, _ | _, FNan => FNan
  | FInf a, FInf b => if Bool.eqb a b then FInf a else FNan
  | FInf a, Fl _ => FInf a
  | Fl _, FInf b => FInf b
  end.

(** [x > 0] *)
Definition float_pos (x : pyfloat) : bool :=
  match x with
  | Fl q => negb (Qle_bool q 0)
  | FNan => false
  | FInf negative => negb negative
  end.

(** The least magnitude that no longer rounds to a finite double:
    [2^1024 - 2^970], half way between the largest double and [2^1024]. *)
Definition float_overflow : Z := 2 ^ 1024 - 2 ^ 970.

(** The value [response.json()] returns. A [dict] is the list of its items
    (a key occurs once). A number is an [int] of any size or a [float]; the
    decoder also gives the [float] values [nan], [inf] and [-inf], for the
    literals [NaN], [Infinity] and [-Infinity] and for a decimal too large
    for a double. *)
#[local] Unset Elimination Schemes.
Inductive json : Type :=
  | JNull
  | JBool (b : bool)
  | JInt (n : Z)
  | JFloat (x : pyfloat)
  | JStr (s : string)
  | JArr (items : list json)
  | JObj (items : list (string * json)).
#[local] Set Elimination Schemes.

(** What [requests.get(url, timeout=5)] comes back with: an exception of the
    [RequestException] family (connection error, timeout, ...), or a response
    with its status code and its body, [None] when the body is not JSON. *)
Inductive http_reply : Type :=
  | Failed
  | Reply (status : Z) (body : option json).

(** Truth value of a Python object. *)
Definition truthy (v : json) : bool :=
  match v with
  | JNull => false
  | JBool b => b
  | JInt n => negb (n =? 0)
  | JFloat (Fl q) => negb (Qeq_bool q 0)
  | JFloat _ => true
  | JStr s => negb (String.eqb s EmptyString)
  | JArr items => qs_exists items
  | JObj items => qs_exists items
  end.

Fixpoint dict_lookup (k : string) (items : list (string * json)) : option json :=
  match items with
  | [] => None
  | (k', v) :: items' => if String.eqb k k' then Some v else dict_lookup k items'
  end.

(** [v[k]] with a string key. *)
Definition getitem (v : json) (k : string) : result json :=
  match v with
  | JObj items =>
      match dict_lookup k items with
      | Some x => Ok x
      | None => Raise KeyError
      end
  | _ => Raise TypeError
  end.

(** [v[0]] *)
Definition getitem0 (v : json) : result json :=
  match v with
  | JArr (x :: _) => Ok x
  | JArr [] => Raise IndexError
  | JStr (String c _) => Ok (JStr (String c EmptyString))
  | JStr EmptyString => Raise IndexError
  | JObj _ => Raise KeyError
  | _ => Raise TypeError
  end.

(** [v == s] for a string literal [s]. *)
Definition eq_str (v : json) (s : string) : bool :=
  match v with
  | JStr x => String.eqb x s
  | _ => false
  end.

(** A Python number: an [int] or a [float]. *)
Inductive number : Type :=
  | NInt (n : Z)
  | NFloat (x : pyfloat).

(** The number a Python object is in arithmetic ([bool] is an [int]). *)
Definition as_number (v : json) : option number :=
  match v with
  | JInt n => Some (NInt n)
  | JFloat x => Some (NFloat x)
  | JBool b => Some (NInt (if b then 1 else 0))
  | _ => None
  end.

(** [n / k] for two [int]s, [k] positive: the quotient as a float, or
    [OverflowError] when it is too large for one. *)
Definition int_truediv (n k : Z) : result pyfloat :=
  if float_overflow * k <=? Z.abs n then Raise OverflowError
  else Ok (Fl (inject_Z n / inject_Z k)%Q).

(** [v / k] for a positive [int] constant [k]. *)
Definition truediv (v : json) (k : Z) : result pyfloat :=
  match as_number v with
  | Some (NInt n) => int_truediv n k
  | Some (NFloat x) => Ok (float_div x k)
  | None => Raise TypeError
  end.

(** [v.get(k, default)], whose value only goes to [print]. *)
Definition dict_get (v : json) (k : string) : result unit :=
  match v with
  | JObj _ => Ok tt
  | _ => Raise AttributeError
  end.

Definition raise_for_status (status : Z) : result unit :=
  if (400 <=? status) && (status <? 600) then Raise RequestException else Ok tt.

(** [response.json()]; the decoding error is a [ValueError], caught by one of
    the two handlers whatever the version of [requests]. *)
Definition response_json (body : option json) : result json :=
  match body with
  | Some v => Ok v
  | None => Raise ValueError
  end.

(** The body of the [try] block. *)
Definition osrm_try (reply : http_reply) : result (option pyfloat * option pyfloat) :=
  match reply with
  | Failed => Raise RequestException
  | Reply status body =>
      try! _ := raise_for_status status in
      try! data := response_json body in
      try! ok :=
        (if truthy data then
           try! code := getitem data "code" in
           if eq_str code "Ok" then
             try! routes := getitem data "routes" in Ok (truthy routes)
           else Ok false
         else Ok false) in
      if (ok : bool) then
        try! routes := getitem data "routes" in
        try! route := getitem0 routes in
        try! distance_meters := getitem route "distance" in
        try! duration_seconds := getitem route "duration" in
        try! distance_km := truediv distance_meters 1000 in
        try! duration_minutes := truediv duration_seconds 60 in
        Ok (Some distance_km, Some duration_minutes)
      else
        try! _ := dict_get data "code" in
        Ok (None, None)
  end.

Fixpoint valid_coords (coords_list : list (option Q * option Q)) : list (Q * Q) :=
  match coords_list with
  | [] => []
  | (Some lat, Some lon) :: rest => (lat, lon) :: valid_coords rest
  | _ :: rest => valid_coords rest
  end.

(** [osrm] stands for the network: the reply to the request whose URL lists
    the given points. *)
Definition get_route_details_from_osrm (osrm : list (Q * Q) -> http_reply)
    (coords_list : list (option Q * option Q))
    : result (option pyfloat * option pyfloat) :=
  if negb (qs_exists coords_list) || (length coords_list <? 2)%nat then Ok (None, None)
  else
    if (length (valid_coords coords_list) <? 2)%nat then Ok (None, None)
    else
      match osrm_try (osrm (valid_coords coords_list)) with
      | Ok r => Ok r
      | Raise RequestException => Ok (None, None)
      | Raise _ => Ok (None, None)
      end.

(** The quotient [v / k] when Python forms one: [v] is a number or a
    boolean, and an integer is small enough for a float to hold the
    quotient. *)
Definition quotient (v : json) (k : Z) : option pyfloat :=
  match as_number v with
  | Some (NInt n) =>
      if float_overflow * k <=? Z.abs n then None
      else Some (Fl (inject_Z n / inject_Z k)%Q)
  | Some (NFloat x) => Some (float_div x k)
  | None => None
  end.

(** The replies the function takes its two numbers from, with these numbers:
    a status outside 400..599 and a body that is a JSON object with [code]
    equal to ["Ok"] and [routes] a non-empty array whose first element is an
    object with a [distance] and a [duration] that can be divided. *)
Definition well_formed_reply (reply : http_reply) : option (pyfloat * pyfloat) :=
  match reply with
  | Reply status (Some (JObj items)) =>
      if (400 <=? status) && (status <? 600) then None
      else
        match dict_lookup "code" items, dict_lookup "routes" items with
        | Some (JStr code), Some (JArr (JObj route :: _)) =>
            if String.eqb code "Ok" then
              match dict_lookup "distance" route, dict_lookup "duration" route with
              | Some d, Some t =>
                  match quotient d 1000, quotient t 60 with
                  | Some distance_km, Some duration_minutes =>
                      Some (distance_km, duration_minutes)
                  | _, _ => None
                  end
              | _, _ => None
              end
            else None
        | _, _ => None
        end
  | _ => None
  end.

(** A JSON number as the interchange format defines it: an integer or a
    finite decimal, not a boolean and not one of the special floats. *)
Definition json_number (v : json) : option Q :=
  match v with
  | JInt n => Some (inject_Z n)
  | JFloat (Fl q) => Some q
  | _ => None
  end.

(** The successful, well-formed response in the words of the design
    document: a success status (200..299) and a body that is a JSON object
    with [code] equal to ["Ok"] and [routes] a non-empty array whose first
    element is an object with numeric [distance] and [duration]; its value
    in kilometers and minutes. *)
Definition successful_response (reply : http_reply) : option (Q * Q) :=
  match reply with
  | Reply status (Some (JObj items)) =>
      if (200 <=? status) && (status <? 300) then
        match dict_lookup "code" items, dict_lookup "routes" items with
        | Some (JStr code), Some (JArr (JObj route :: _)) =>
            if String.eqb code "Ok" then
              match dict_lookup "distance" route, dict_lookup "duration" route with
              | Some d, Some t =>
                  match json_number d, json_number t with
                  | Some meters, Some seconds =>
                      Some ((meters / inject_Z 1000)%Q, (seconds / inject_Z 60)%Q)
                  | _, _ => None
                  end
              | _, _ => None
              end
            else None
        | _, _ => None
        end
      else None
  | _ => None
  end.

(** ** Query sets over [RouteSegment] *)

(** Insertion into a list sorted by [le], before the first element that is
    not smaller: the sort it gives is stable, as [list.sort] is. Among rows
    with equal keys the database promises no order; the model keeps the
    table's. *)
Fixpoint insert_sorted (le : RouteSegment -> RouteSegment -> bool)
    (x : RouteSegment) (l : list RouteSegment) : list RouteSegment :=
  match l with
  | [] => [x]
  | y :: l' => if le x y then x :: l else y :: insert_sorted le x l'
  end.

Definition order_by (le : RouteSegment -> RouteSegment -> bool)
    (l : list RouteSegment) : list RouteSegment :=
  foldr (insert_sorted le) [] l.

(** [order_by('order')] and [order_by('-order')] *)
Definition by_order (a b : RouteSegment) : bool := order a <=? order b.
Definition by_order_desc (a b : RouteSegment) : bool := order b <=? order a.

(** [bus_line=line]: the foreign key equals the line's primary key. *)
Definition on_line (line : BusLine) (s : RouteSegment) : bool :=
  bus_line_id s =? line_id line.

(** [bus_stop=stop], and [segment.bus_stop == stop]: model instances are
    equal when their primary keys are. *)
Definition at_stop (stop : BusStop) (s : RouteSegment) : bool :=
  stop_id (bus_stop s) =? stop_id stop.

(** ** Network Graph Builder and Shortest-Path Engine *)

(** An item of [graph[stop_id]]. *)
Record Edge : Type := mkEdge {
  nb_stop_id : Z;
  nb_line_id : Z;
  nb_line_number : Z
}.

(** A leg of the returned path. *)
Record Leg : Type := mkLeg {
  leg_start_stop_id : Z;
  leg_end_stop_id : Z;
  leg_line_id : Z;
  leg_line_number : option Z
}.

(** [segments_by_line[k].append(seg)] on a [defaultdict(list)], whose keys
    keep the order of their first insertion. *)
Fixpoint group_append (k : Z) (seg : RouteSegment)
    (groups : list (Z * list RouteSegment)) : list (Z * list RouteSegment) :=
  match groups with
  | [] => [(k, [seg])]
  | (k', l) :: groups' =>
      if k =? k' then (k', l ++ [seg]) :: groups'
      else (k', l) :: group_append k seg groups'
  end.

Definition segments_by_line (segs : list RouteSegment) : list (Z * list RouteSegment) :=
  fold_left (fun groups seg => group_append (bus_line_id seg) seg groups) segs [].

(** [graph[k].append(e)] on a [defaultdict(list)]. *)
Definition graph_append (k : Z) (e : Edge) (graph : gmap Z (list Edge)) : gmap Z (list Edge) :=
  <[k := default [] (graph !! k) ++ [e]]> graph.

(** The loop [for i in range(len(segments) - 1)] over one line. *)
Fixpoint connect_line (bus_line_id : Z) (segments : list RouteSegment)
    (graph : gmap Z (list Edge)) : gmap Z (list Edge) :=
  match segments with
  | a :: (b :: _) as rest =>
      let stop_a := bus_stop a in
      let stop_b := bus_stop b in
      let bus_line_number := line_number (bus_line a) in
      let graph1 := graph_append (stop_id stop_a)
                      (mkEdge (stop_id stop_b) bus_line_id bus_line_number) graph in
      let graph2 := graph_append (stop_id stop_b)
                      (mkEdge (stop_id stop_a) bus_line_id bus_line_number) graph1 in
      connect_line bus_line_id rest graph2
  | _ => graph
  end.

Definition build_graph (st : Store) : gmap Z (list Edge) :=
  fold_left (fun graph '(bus_line_id, segments) =>
               connect_line bus_line_id (order_by by_order segments) graph)
            (segments_by_line (all_route_segments st)) ∅.

(** A value of [distances]: an [int], or [float('inf')]. *)
Inductive distance : Type :=
  | Finite (n : nat)
  | Infinity.

(** [c < d] and [c > d] for an [int] [c] *)
Definition cost_lt (c : nat) (d : distance) : bool :=
  match d with
  | Finite n => (c <? n)%nat
  | Infinity => true
  end.

Definition cost_gt (c : nat) (d : distance) : bool :=
  match d with
  | Finite n => (n <? c)%nat
  | Infinity => false
  end.

(** An entry [(cost, stop_id, line_id)] of the priority queue. *)
Definition Entry : Type := nat * Z * option Z.

(** The order of the tuples. The third component would decide only between
    two entries with the same cost and stop, which the queue never holds
    ([inv_distinct] below). *)
Definition entry_le (x y : Entry) : bool :=
  let '(c1, s1, l1) := x in
  let '(c2, s2, l2) := y in
  if (c1 <? c2)%nat then true
  else if (c2 <? c1)%nat then false
  else if s1 <? s2 then true
  else if s2 <? s1 then false
  else match l1, l2 with
       | Some a, Some b => a <=? b
       | None, _ => true
       | Some _, None => false
       end.

(** The heap is the list of its entries: [heappush] adds one, [heappop]
    takes a smallest one out. *)
Definition heappush (q : list Entry) (x : Entry) : list Entry := x :: q.

Fixpoint heappop (q : list Entry) : option (Entry * list Entry) :=
  match q with
  | [] => None
  | x :: q' =>
      match heappop q' with
      | None => Some (x, [])
      | Some (m, r) => if entry_le x m then Some (x, q') else Some (m, x :: r)
      end
  end.

Record SearchState : Type := mkSearchState {
  distances : gmap Z distance;
  predecessors : gmap Z (option (Z * Z));
  priority_queue : list Entry
}.

(** The body of [for neighbor in graph[current_stop_id]]. *)
Definition relax (cost : nat) (current_stop_id : Z) (current_line_id : option Z)
    (s : SearchState) (neighbor : Edge) : result SearchState :=
  let neighbor_stop_id := nb_stop_id neighbor in
  let neighbor_line_id := nb_line_id neighbor in
  let transfer_cost :=
    match current_line_id with
    | Some l => if l =? neighbor_line_id then 0%nat else 1%nat
    | None => 0%nat
    end in
  let new_cost := (cost + transfer_cost)%nat in
  match distances s !! neighbor_stop_id with
  | None => Raise KeyError
  | Some d =>
      if cost_lt new_cost d then
        Ok (mkSearchState
              (<[neighbor_stop_id := Finite new_cost]> (distances s))
              (<[neighbor_stop_id := Some (current_stop_id, neighbor_line_id)]> (predecessors s))
              (heappush (priority_queue s) (new_cost, neighbor_stop_id, Some neighbor_line_id)))
      else Ok s
  end.

Fixpoint relax_all (cost : nat) (current_stop_id : Z) (current_line_id : option Z)
    (neighbors : list Edge) (s : SearchState) : result SearchState :=
  match neighbors with
  | [] => Ok s
  | neighbor :: rest =>
      try! s' := relax cost current_stop_id current_line_id s neighbor in
      relax_all cost current_stop_id current_line_id rest s'
  end.

(** The loop [while priority_queue]; the result is [shortest_path_found]
    with the state the loop ends in. *)
Fixpoint search (fuel : nat) (graph : gmap Z (list Edge)) (end_stop_id : Z)
    (s : SearchState) : option (result (bool * SearchState)) :=
  match fuel with
  | O => None
  | S fuel' =>
      match heappop (priority_queue s) with
      | None => Some (Ok (false, s))
      | Some ((cost, current_stop_id, current_line_id), q') =>
          let s1 := mkSearchState (distances s) (predecessors s) q' in
          match distances s !! current_stop_id with
          | None => Some (Raise KeyError)
          | Some d =>
              if cost_gt cost d then search fuel' graph end_stop_id s1
              else if current_stop_id =? end_stop_id then Some (Ok (true, s1))
              else
                match relax_all cost current_stop_id current_line_id
                        (default [] (graph !! current_stop_id)) s1 with
                | Raise e => Some (Raise e)
                | Ok s2 => search fuel' graph end_stop_id s2
                end
          end
      end
  end.

(** [BusLine.objects.filter(id=i).first()] *)
Definition line_by_id (st : Store) (i : Z) : option BusLine :=
  head (List.filter (fun l => line_id l =? i) (all_lines st)).

(** One turn of the reconstruction loop on [path]: a new leg is appended, or
    the last leg's start is moved. *)
Definition extend_path (path : list Leg) (prev_stop_id current_stop_id prev_line_id : Z)
    (bus_line_number : option Z) : list Leg :=
  match last path with
  | Some l =>
      if negb (leg_line_id l =? prev_line_id) then
        path ++ [mkLeg prev_stop_id current_stop_id prev_line_id bus_line_number]
      else
        removelast path ++
        [mkLeg prev_stop_id (leg_end_stop_id l) (leg_line_id l) (leg_line_number l)]
  | None => path ++ [mkLeg prev_stop_id current_stop_id prev_line_id bus_line_number]
  end.

(** The loop [while current_stop_id != start_stop_id] with the final
    [path.reverse()]. [predecessors.get(k, (None, None))] gives the default
    for an absent key only: a key bound to [None] fails at the unpacking. *)
Fixpoint reconstruct (fuel : nat) (st : Store) (preds : gmap Z (option (Z * Z)))
    (start_stop_id current_stop_id : Z) (path : list Leg) : option (result (list Leg)) :=
  match fuel with
  | O => None
  | S fuel' =>
      if negb (current_stop_id =? start_stop_id) then
        match preds !! current_stop_id with
        | None => Some (Ok [])
        | Some None => Some (Raise TypeError)
        | Some (Some (prev_stop_id, prev_line_id)) =>
            let bus_line := line_by_id st prev_line_id in
            let bus_line_number := line_number <$> bus_line in
            reconstruct fuel' st preds start_stop_id prev_stop_id
              (extend_path path prev_stop_id current_stop_id prev_line_id bus_line_number)
        end
      else Some (Ok (rev path))
  end.

Definition initial_state (st : Store) (start_stop_id : Z) : SearchState :=
  mkSearchState
    (<[start_stop_id := Finite 0]>
       (list_to_map (List.map (fun stop => (stop_id stop, Infinity)) (all_stops st))))
    (list_to_map (List.map (fun stop => (stop_id stop, None)) (all_stops st)))
    [(0%nat, start_stop_id, None)].

Definition find_shortest_path (fuel : nat) (st : Store)
    (start_stop_id end_stop_id : Z) : option (result (list Leg)) :=
  if start_stop_id =? end_stop_id then Some (Ok [])
  else
    let graph := build_graph st in
    match search fuel graph end_stop_id (initial_state st start_stop_id) with
    | None => None
    | Some (Raise e) => Some (Raise e)
    | Some (Ok (shortest_path_found, s)) =>
        if negb shortest_path_found then Some (Ok [])
        else reconstruct fuel st (predecessors s) start_stop_id end_stop_id []
    end.

(** A walk in the derived graph: each hop takes an edge of [graph] out of the
    stop the previous hop reached. *)
Fixpoint is_walk (graph : gmap Z (list Edge)) (from : Z) (hops : list Edge) (to : Z) : Prop :=
  match hops with
  | [] => from = to
  | e :: hops' => e ∈ default [] (graph !! from) ∧ is_walk graph (nb_stop_id e) hops' to
  end.

(** Line changes between consecutive hops. *)
Fixpoint walk_transfers (hops : list Edge) : nat :=
  match hops with
  | e1 :: (e2 :: _) as rest =>
      ((if (nb_line_id e1 =? nb_line_id e2)%Z then 0 else 1) + walk_transfers rest)%nat
  | _ => 0%nat
  end.

(** Line changes of a returned path: one per leg after the first. *)
Definition path_transfers (path : list Leg) : nat := pred (length path).

(** ** Segment Extractor *)

(** An item of [route_stops]. *)
Record StopDisplay : Type := mkStopDisplay {
  d_name_mm : pystr;
  d_name_en : pystr;
  d_road_name_mm : option pystr;
  d_road_name_en : option pystr;
  d_order : Z;
  d_latitude : option Q;
  d_longitude : option Q;
  d_id : Z
}.

(** The dictionary [get_segment_details] returns; ['N/A'] is [None]. *)
Record SegmentDetails : Type := mkSegmentDetails {
  stops_count : nat;
  total_distance_km : option pyfloat;
  total_time_minutes : option pyfloat;
  route_stops : list StopDisplay;
  start_stop_name : pystr;
  end_stop_name : pystr
}.

(** [float(x) if x else None] on a nullable [Decimal]: a zero is falsy. *)
Definition float_if_truthy (x : option Z) : option Q :=
  match x with
  | Some z => if z =? 0 then None else Some (z # 1000000)
  | None => None
  end.

(** [round(x, ndigits)]: to the nearest multiple of [10^-ndigits], a tie
    going to the even one; taken of the exact value, where Python rounds the
    binary float that is nearest to it. *)
Definition round_half_even (x : Q) : Z :=
  let f := Qfloor x in
  match Qcompare (x - inject_Z f) (1 # 2) with
  | Lt => f
  | Gt => f + 1
  | Eq => if Z.even f then f else f + 1
  end.

Definition py_round (x : Q) (ndigits : Z) : Q :=
  (inject_Z (round_half_even (x * inject_Z (10 ^ ndigits))) / inject_Z (10 ^ ndigits))%Q.

(** [round(x, ndigits)] on a float: [nan] and the infinities come back as
    they are. *)
Definition float_round (x : pyfloat) (ndigits : Z) : pyfloat :=
  match x with
  | Fl q => Fl (py_round q ndigits)
  | FNan => FNan
  | FInf negative => FInf negative
  end.

(** [qs.first()] on [RouteSegment], whose [Meta.ordering] is
    [['bus_line', 'order']]. *)
Definition first_segment (st : Store) (line : BusLine) (stop : BusStop) : option RouteSegment :=
  head (order_by by_order
          (List.filter (fun s => on_line line s && at_stop stop s) (all_route_segments st))).

(** The slice between two [order] values, in the direction asked for. *)
Definition segment_slice (st : Store) (line : BusLine) (start_order end_order : Z)
    : list RouteSegment :=
  if start_order <=? end_order then
    order_by by_order
      (List.filter (fun s => on_line line s && (start_order <=? order s) && (order s <=? end_order))
                   (all_route_segments st))
  else
    order_by by_order_desc
      (List.filter (fun s => on_line line s && (order s <=? start_order) && (end_order <=? order s))
                   (all_route_segments st)).

(** What the loop over [segments] appends to [route_stops_coords]. *)
Fixpoint route_stops_coords (segments : list RouteSegment) : list (option Q * option Q) :=
  match segments with
  | [] => []
  | segment :: rest =>
      let lat := float_if_truthy (latitude (bus_stop segment)) in
      let lng := float_if_truthy (longitude (bus_stop segment)) in
      match lat, lng with
      | Some _, Some _ => (lat, lng) :: route_stops_coords rest
      | _, _ => route_stops_coords rest
      end
  end.

(** What the loop over [segments] appends to [route_stops_display]. *)
Definition display_row (segment : RouteSegment) : StopDisplay :=
  let lat := float_if_truthy (latitude (bus_stop segment)) in
  let lng := float_if_truthy (longitude (bus_stop segment)) in
  mkStopDisplay (name_mm (bus_stop segment)) (name_en (bus_stop segment))
    (road_name_mm (bus_stop segment)) (road_name_en (bus_stop segment))
    (order segment) lat lng (stop_id (bus_stop segment)).

Definition get_segment_details (osrm : list (Q * Q) -> http_reply) (st : Store)
    (line : BusLine) (start_stop end_stop : BusStop) : result (option SegmentDetails) :=
  match first_segment st line start_stop, first_segment st line end_stop with
  | Some start_segment, Some end_segment =>
      let segments := segment_slice st line (order start_segment) (order end_segment) in
      if negb (qs_exists segments) then Ok None
      else
        try! details := get_route_details_from_osrm osrm (route_stops_coords segments) in
        let '(total_distance, total_time) := details in
        Ok (Some (mkSegmentDetails
                    (length segments)
                    ((fun x => float_round x 2) <$> total_distance)
                    ((fun x => float_round x 0) <$> total_time)
                    (List.map display_row segments)
                    (name_en start_stop)
                    (name_en end_stop)))
  | _, _ => Ok None
  end.

(** ** Stops between *)

(** An item of the list [find_stops_between] returns. *)
Record StopsBetween : Type := mkStopsBetween {
  sb_bus_line : BusLine;
  sb_stops : list BusStop;
  sb_total_stops : nat;
  sb_orders : list Z
}.

(** Lines with a segment at each of the two stops. The query has no
    [ORDER BY]: the database may return them in any order; they are listed
    here in the order of the line table. *)
Definition common_bus_lines (st : Store) (start_stop end_stop : BusStop) : list BusLine :=
  List.filter (fun line =>
                 existsb (fun s => on_line line s && at_stop start_stop s) (all_route_segments st)
                 && existsb (fun s => on_line line s && at_stop end_stop s) (all_route_segments st))
              (all_lines st).

(** The loop [for i, segment in enumerate(route_segments)] from index [i] on,
    carrying [(start_position, end_position)]. *)
Fixpoint find_positions (start_stop end_stop : BusStop) (i : nat)
    (route_segments : list RouteSegment) (pos : option nat * option nat)
    : option nat * option nat :=
  match route_segments with
  | [] => pos
  | segment :: rest =>
      let pos1 := if at_stop start_stop segment then (Some i, snd pos) else pos in
      let pos2 := if at_stop end_stop segment then (fst pos1, Some i) else pos1 in
      find_positions start_stop end_stop (S i) rest pos2
  end.

(** [l[i:j]] *)
Definition py_slice {A} (l : list A) (i j : nat) : list A := drop i (take j l).

Definition stops_between_line (st : Store) (start_stop end_stop : BusStop)
    (line : BusLine) : option StopsBetween :=
  let route_segments := order_by by_order (List.filter (on_line line) (all_route_segments st)) in
  match find_positions start_stop end_stop 0 route_segments (None, None) with
  | (Some start_position, Some end_position) =>
      let '(start_position, end_position) :=
        if (end_position <? start_position)%nat then (end_position, start_position)
        else (start_position, end_position) in
      let between_segments := py_slice route_segments start_position (end_position + 1) in
      Some (mkStopsBetween line
              (List.map bus_stop between_segments)
              (length between_segments)
              (List.map order between_segments))
  | _ => None
  end.

Definition find_stops_between (st : Store) (start_stop end_stop : BusStop) : list StopsBetween :=
  omap (stops_between_line st start_stop end_stop) (common_bus_lines st start_stop end_stop).

(** ** Route Assembly: the [bus_stop] search of [search_route] *)

Inductive Message : Type :=
  | EnterBothStops
  | InvalidStopNames
  | NoValidTransferRoute
  | NoDirectOrTransferRoute (start_stop end_stop : BusStop)
  | ErrorDuringSearch (e : exn).

Inductive RouteResult : Type :=
  | AvailableBusLine (bus_line_number : Z) (start_stop end_stop : BusStop)
  | Transfer (transfer_details : list (Z * SegmentDetails))
             (total_distance_km total_time_minutes : option pyfloat) (num_transfers : Z).

(** [results] and [error_message] as the view hands them to the template. *)
Record SearchPage : Type := mkSearchPage {
  results : list RouteResult;
  error_message : option Message
}.

(** [order_by('line_number')] on lines. *)
Fixpoint insert_line (x : BusLine) (l : list BusLine) : list BusLine :=
  match l with
  | [] => [x]
  | y :: l' => if line_number x <=? line_number y then x :: l else y :: insert_line x l'
  end.

Definition direct_bus_lines (st : Store) (start_stop end_stop : BusStop) : list BusLine :=
  foldr insert_line [] (common_bus_lines st start_stop end_stop).

(** [BusStop.objects.get(id=i)]; [None] is [DoesNotExist]. *)
Definition stop_by_id (st : Store) (i : Z) : option BusStop :=
  head (List.filter (fun s => stop_id s =? i) (all_stops st)).

(** The loop [for segment_info in transfer_path], carrying
    [(transfer_details, total_distance, total_time)]. *)
Fixpoint transfer_legs (osrm : list (Q * Q) -> http_reply) (st : Store)
    (transfer_path : list Leg) (acc : list (Z * SegmentDetails) * pyfloat * pyfloat)
    : result (list (Z * SegmentDetails) * pyfloat * pyfloat) :=
  match transfer_path with
  | [] => Ok acc
  | segment_info :: rest =>
      let '(transfer_details, total_distance, total_time) := acc in
      match line_by_id st (leg_line_id segment_info),
            stop_by_id st (leg_start_stop_id segment_info),
            stop_by_id st (leg_end_stop_id segment_info) with
      | Some bus_line, Some segment_start_stop, Some segment_end_stop =>
          try! segment_data :=
            get_segment_details osrm st bus_line segment_start_stop segment_end_stop in
          match segment_data with
          | Some data =>
              transfer_legs osrm st rest
                (transfer_details ++ [(line_number bus_line, data)],
                 match total_distance_km data with
                 | Some distance_km => float_add total_distance distance_km
                 | None => total_distance
                 end,
                 match total_time_minutes data with
                 | Some time_minutes => float_add total_time time_minutes
                 | None => total_time
                 end)
          | None => transfer_legs osrm st rest acc
          end
      | _, _, _ => transfer_legs osrm st rest acc
      end
  end.

(** The [else] branch of [if not start_stop_name_raw or not end_stop_name_raw]
    inside its [try]; the [RouteSearch] row it writes is not part of the
    result. *)
Definition search_bus_stop_try (fuel : nat) (osrm : list (Q * Q) -> http_reply) (st : Store)
    (start_stop_name_raw end_stop_name_raw : pystr) : option (result SearchPage) :=
  match get_bus_stop_object st start_stop_name_raw,
        get_bus_stop_object st end_stop_name_raw with
  | Some start_stop_obj, Some end_stop_obj =>
      let direct := direct_bus_lines st start_stop_obj end_stop_obj in
      if qs_exists direct then
        Some (Ok (mkSearchPage
                    (List.map (fun l => AvailableBusLine (line_number l) start_stop_obj end_stop_obj)
                              direct)
                    None))
      else
        match find_shortest_path fuel st (stop_id start_stop_obj) (stop_id end_stop_obj) with
        | None => None
        | Some (Raise e) => Some (Raise e)
        | Some (Ok transfer_path) =>
            if qs_exists transfer_path then
              let num_transfers := Z.of_nat (length transfer_path) - 1 in
              match transfer_legs osrm st transfer_path ([], Fl 0, Fl 0) with
              | Raise e => Some (Raise e)
              | Ok (transfer_details, total_distance, total_time) =>
                  if qs_exists transfer_details then
                    Some (Ok (mkSearchPage
                                [Transfer transfer_details
                                   (if float_pos total_distance
                                    then Some (float_round total_distance 2) else None)
                                   (if float_pos total_time
                                    then Some (float_round total_time 0) else None)
                                   num_transfers]
                                None))
                  else Some (Ok (mkSearchPage [] (Some NoValidTransferRoute)))
              end
            else
              Some (Ok (mkSearchPage []
                          (Some (NoDirectOrTransferRoute start_stop_obj end_stop_obj))))
        end
  | _, _ => Some (Ok (mkSearchPage [] (Some InvalidStopNames)))
  end.

(** [search_route] for [search_type == 'bus_stop'], from the two stripped
    request parameters to the page's [results] and [error_message]. *)
Definition search_route_bus_stop (fuel : nat) (osrm : list (Q * Q) -> http_reply) (st : Store)
    (start_stop_name_raw end_stop_name_raw : pystr) : option SearchPage :=
  if negb (qs_exists start_stop_name_raw) || negb (qs_exists end_stop_name_raw) then
    Some (mkSearchPage [] (Some EnterBothStops))
  else
    match search_bus_stop_try fuel osrm st start_stop_name_raw end_stop_name_raw with
    | None => None
    | Some (Ok page) => Some page
    | Some (Raise e) => Some (mkSearchPage [] (Some (ErrorDuringSearch e)))
    end.

(** ** Vocabulary of the statements *)

(** [t] is [s] trimmed: what is left of [s] once the whitespace at its two
    ends is taken away, and nothing else. *)
Definition trimmed (s t : pystr) : Prop :=
  exists ws1 ws2,
    s = ws1 ++ t ++ ws2
    /\ Forall (fun c => isspace c = true) ws1
    /\ Forall (fun c => isspace c = true) ws2
    /\ (forall c, head t = Some c -> isspace c = false)
    /\ (forall c, last t = Some c -> isspace c = false).

(** A list of segments whose [key] grows strictly from each element to the
    next. *)
Definition increasing (key : RouteSegment -> Z) (l : list RouteSegment) : Prop :=
  StronglySorted (fun a b => key a < key b) l.

Definition le_key (key : RouteSegment -> Z) (a b : RouteSegment) : bool :=
  key a <=? key b.

(** The data-model invariant "no two stops share an order within a line". *)
Definition line_orders_distinct (st : Store) (line : BusLine) : Prop :=
  NoDup (List.map order (List.filter (on_line line) (all_route_segments st))).

(** The line calls at the stop. *)
Definition serves (st : Store) (line : BusLine) (stop : BusStop) : Prop :=
  exists s, In s (all_route_segments st) /\ on_line line s = true /\ at_stop stop s = true.

(** The stop has one position on the line. *)
Definition single_order (st : Store) (line : BusLine) (stop : BusStop) : Prop :=
  forall s1 s2,
    In s1 (all_route_segments st) -> In s2 (all_route_segments st) ->
    on_line line s1 = true -> on_line line s2 = true ->
    at_stop stop s1 = true -> at_stop stop s2 = true ->
    order s1 = order s2.

(** No two consecutive legs are on the same line. *)
Fixpoint no_adjacent_same_line (path : list Leg) : Prop :=
  match path with
  | l1 :: (l2 :: _) as rest =>
      leg_line_id l1 <> leg_line_id l2 /\ no_adjacent_same_line rest
  | _ => True
  end.

(** The legs lead from [from] to [to], each starting where the previous one
    ended. *)
Fixpoint chained (from : Z) (path : list Leg) (to : Z) : Prop :=
  match path with
  | [] => from = to
  | l :: rest => leg_start_stop_id l = from /\ chained (leg_end_stop_id l) rest to
  end.

Definition entry_cost (e : Entry) : nat := fst (fst e).
Definition entry_stop (e : Entry) : Z := snd (fst e).
Definition entry_key (e : Entry) : nat * Z := (entry_cost e, entry_stop e).

(** The sum of [f] over the values of [distances]. *)
Definition weight (f : distance -> nat) (d : gmap Z distance) : nat :=
  map_fold (fun _ v acc => (f v + acc)%nat) 0%nat d.

Definition is_infinite (v : distance) : nat :=
  match v with
  | Infinity => 1
  | Finite _ => 0
  end.

Definition finite_value (v : distance) : nat :=
  match v with
  | Infinity => 0
  | Finite n => n
  end.

(** The state of the search between two turns of its loop, with the stops
    already expanded numbered in [rank] by the turn that expanded them first:
    a predecessor is an expanded stop, expanded before the stop it leads to;
    the ranks are below [n]; a queue entry costs at least the distance
    recorded for its stop; no queue entry is cheaper than an expanded stop;
    and no two queue entries agree on cost and stop, so that the order of the
    tuples never comes to compare their lines. *)
Record search_inv (rank : gmap Z nat) (n : nat) (s : SearchState) : Prop := {
  inv_pred : forall v u l,
    predecessors s !! v = Some (Some (u, l)) ->
    exists ru, rank !! u = Some ru /\ forall rv, rank !! v = Some rv -> (ru < rv)%nat;
  inv_bound : forall v rv, rank !! v = Some rv -> (rv < n)%nat;
  inv_queue : forall e,
    In e (priority_queue s) ->
    exists d, distances s !! entry_stop e = Some (Finite d) /\ (d <= entry_cost e)%nat;
  inv_done : forall v rv,
    rank !! v = Some rv ->
    exists d, distances s !! v = Some (Finite d)
              /\ forall e, In e (priority_queue s) -> (d <= entry_cost e)%nat;
  inv_distinct : NoDup (List.map entry_key (priority_queue s))
}.

(** The same while the neighbors of a stop popped at cost [c] are relaxed:
    the expanded stops are no farther than [c] and the queue entries cost at
    least [c]. *)
Record relax_inv (c : nat) (rank : gmap Z nat) (n : nat) (s : SearchState) : Prop := {
  rinv_pred : forall v u l,
    predecessors s !! v = Some (Some (u, l)) ->
    exists ru, rank !! u = Some ru /\ forall rv, rank !! v = Some rv -> (ru < rv)%nat;
  rinv_bound : forall v rv, rank !! v = Some rv -> (rv < n)%nat;
  rinv_queue : forall e,
    In e (priority_queue s) ->
    exists d, distances s !! entry_stop e = Some (Finite d) /\ (d <= entry_cost e)%nat;
  rinv_floor : forall e, In e (priority_queue s) -> (c <= entry_cost e)%nat;
  rinv_done : forall v rv,
    rank !! v = Some rv ->
    exists d, distances s !! v = Some (Finite d) /\ (d <= c)%nat;
  rinv_distinct : NoDup (List.map entry_key (priority_queue s))
}.

(** A stop that has been reached is the start stop or has a predecessor. *)
Definition origin_inv (start_stop_id : Z) (s : SearchState) : Prop :=
  forall v d,
    distances s !! v = Some (Finite d) ->
    v = start_stop_id \/ exists u l, predecessors s !! v = Some (Some (u, l)).

(** Referential integrity of the store: the stop of every segment is a row of
    the stop table. *)
Definition referential_integrity (st : Store) : Prop :=
  forall seg, In seg (all_route_segments st) ->
    exists stop, In stop (all_stops st) /\ stop_id stop = stop_id (bus_stop seg).

(** The edge leads to the stop of some segment. *)
Definition edge_ok (st : Store) (e : Edge) : Prop :=
  exists seg, In seg (all_route_segments st) /\ nb_stop_id e = stop_id (bus_stop seg).

Definition graph_ok (st : Store) (graph : gmap Z (list Edge)) : Prop :=
  forall k l e, graph !! k = Some l -> In e l -> edge_ok st e.

(** The two tables of the search: [distances] has a key for the stop of every
    segment, and a stop with a finite distance is the start or has a
    predecessor. *)
Record table_inv (st : Store) (start_stop_id : Z) (s : SearchState) : Prop := {
  tab_keys : forall seg, In seg (all_route_segments st) ->
    is_Some (distances s !! stop_id (bus_stop seg));
  tab_origin : forall v d, distances s !! v = Some (Finite d) ->
    v = start_stop_id \/ exists u l, predecessors s !! v = Some (Some (u, l))
}.

(** A stop whose zero coordinates are replaced by NULL. *)
Definition forget_zero (stop : BusStop) : BusStop :=
  mkBusStop (stop_id stop) (name_mm stop) (name_en stop)
    (road_name_mm stop) (road_name_en stop)
    (match latitude stop with Some 0 => None | x => x end)
    (match longitude stop with Some 0 => None | x => x end).

Definition forget_zero_segment (s : RouteSegment) : RouteSegment :=
  mkRouteSegment (bus_line s) (forget_zero (bus_stop s)) (order s).

Definition forget_zero_store (st : Store) : Store :=
  mkStore (List.map forget_zero (all_stops st)) (all_lines st)
    (List.map forget_zero_segment (all_route_segments st)).

(** ** Worked stores *)

Local Open Scope string_scope.

Definition plain_stop (i : Z) (name : string) : BusStop :=
  mkBusStop i (py name) (py name) None None None None.

Definition road_stop (i : Z) (name road : string) : BusStop :=
  mkBusStop i (py name) (py name) (Some (py road)) (Some (py road)) None None.

(** The scenario of the design document: line 10 visits P1, P2, P3 and line
    20 visits P3, P4. *)
Definition P1 : BusStop := plain_stop 1 "P1".
Definition P2 : BusStop := plain_stop 2 "P2".
Definition P3 : BusStop := plain_stop 3 "P3".
Definition P4 : BusStop := plain_stop 4 "P4".
Definition line10 : BusLine := mkBusLine 1 10.
Definition line20 : BusLine := mkBusLine 2 20.
Definition line30 : BusLine := mkBusLine 3 30.

Definition scenario_store : Store :=
  mkStore [P1; P2; P3; P4] [line10; line20]
    [mkRouteSegment line10 P1 1; mkRouteSegment line10 P2 2; mkRouteSegment line10 P3 3;
     mkRouteSegment line20 P3 1; mkRouteSegment line20 P4 2].

(** Lines 10 and 20 share the stretch P1-P2, only line 20 goes on to P3,
    and line 30 runs from P3 to P4. No line calls at both P1 and P4. *)
Definition shared_stretch_store : Store :=
  mkStore [P1; P2; P3; P4] [line10; line20; line30]
    [mkRouteSegment line10 P1 1; mkRouteSegment line10 P2 2;
     mkRouteSegment line20 P1 1; mkRouteSegment line20 P2 2; mkRouteSegment line20 P3 3;
     mkRouteSegment line30 P3 1; mkRouteSegment line30 P4 2].

(** A line that stores two different stops at the same order. *)
Definition shared_order_store : Store :=
  mkStore [P1; P2] [line10] [mkRouteSegment line10 P1 1; mkRouteSegment line10 P2 1].

(** Two stops named Central, the first on a road, the second with none. *)
Definition central_store : Store :=
  mkStore [road_stop 1 "Central" "Side Road"; plain_stop 2 "Central"] [] [].

(** Two stops are named Central; the one on Main Road has the larger key. *)
Definition main_road_store : Store :=
  mkStore [road_stop 1 "Central" "Side Road"; plain_stop 2 "Central";
           road_stop 3 "central" "MAIN ROAD"] [] [].

(** The scenario with one more stop, the depot, that no line calls at. *)
Definition Depot : BusStop := plain_stop 5 "Depot".

Definition depot_store : Store :=
  mkStore (all_stops scenario_store ++ [Depot]) (all_lines scenario_store)
    (all_route_segments scenario_store).

(** A line along three stops with coordinates; the first lies on the
    equator. *)
Definition on_equator : BusStop :=
  mkBusStop 1 (py "Equator") (py "Equator") None None (Some 0) (Some 96100000).
Definition north1 : BusStop :=
  mkBusStop 2 (py "North 1") (py "North 1") None None (Some 16800000) (Some 96150000).
Definition north2 : BusStop :=
  mkBusStop 3 (py "North 2") (py "North 2") None None (Some 16900000) (Some 96200000).

Definition equator_store : Store :=
  mkStore [on_equator; north1; north2] [line10]
    [mkRouteSegment line10 on_equator 1; mkRouteSegment line10 north1 2;
     mkRouteSegment line10 north2 3].

Local Close Scope string_scope.

(** A provider that never answers. *)
Definition osrm_down (_ : list (Q * Q)) : http_reply := Failed.

(** A provider that answers every request with 1500 m in 90 s. *)
Definition osrm_fixed (_ : list (Q * Q)) : http_reply :=
  Reply 200 (Some (JObj [("code"%string, JStr "Ok"%string);
                         ("routes"%string,
                          JArr [JObj [("distance"%string, JInt 1500);
                                      ("duration"%string, JInt 90)]])])).

(** A provider that answers with one kilometer and one minute per point of
    the request. *)
Definition osrm_per_point (coords : list (Q * Q)) : http_reply :=
  Reply 200 (Some (JObj [("code"%string, JStr "Ok"%string);
                         ("routes"%string,
                          JArr [JObj [("distance"%string,
                                       JInt (1000 * Z.of_nat (length coords)));
                                      ("duration"%string,
                                       JInt (60 * Z.of_nat (length coords)))]])])).

(** A provider that answers every request with status 503. *)
Definition osrm_server_error (_ : list (Q * Q)) : http_reply :=
  Reply 503 (Some (JObj [])).

(** The reply of [osrm_fixed] under status 300. *)
Definition osrm_multiple_choices (_ : list (Q * Q)) : http_reply :=
  Reply 300 (Some (JObj [("code"%string, JStr "Ok"%string);
                         ("routes"%string,
                          JArr [JObj [("distance"%string, JInt 1500);
                                      ("duration"%string, JInt 90)]])])).

(** A provider whose route holds booleans where numbers belong. *)
Definition osrm_boolean (_ : list (Q * Q)) : http_reply :=
  Reply 200 (Some (JObj [("code"%string, JStr "Ok"%string);
                         ("routes"%string,
                          JArr [JObj [("distance"%string, JBool true);
                                      ("duration"%string, JBool false)]])])).

(** A provider whose distance is an integer too large for a float. *)
Definition osrm_huge (_ : list (Q * Q)) : http_reply :=
  Reply 200 (Some (JObj [("code"%string, JStr "Ok"%string);
                         ("routes"%string,
                          JArr [JObj [("distance"%string, JInt (10 ^ 400));
                                      ("duration"%string, JInt 90)]])])).

(** Three points, the second without a latitude. *)
Definition two_points : list (option Q * option Q) :=
  [(Some (16 # 1), Some (96 # 1)); (None, Some (96 # 1)); (Some (17 # 1), Some (96 # 1))]%Q.

(** ** Further code of the repository *)

(** [BusStop.__str__] of [models.py]. *)
Definition bus_stop_str (s : BusStop) : pystr :=
  if str_truthy (road_name_en s)
  then name_en s ++ [32; LPAREN] ++ default [] (road_name_en s) ++ [RPAREN]
  else name_en s.

(** ** Vocabulary of the further statements *)

(** The leg can be ridden: a walk of the graph leads from its start stop to
    its end stop over edges of the leg's line only. *)
Definition rides (graph : gmap Z (list Edge)) (leg : Leg) : Prop :=
  exists hops,
    hops <> []
    /\ is_walk graph (leg_start_stop_id leg) hops (leg_end_stop_id leg)
    /\ Forall (fun e => nb_line_id e = leg_line_id leg) hops.

(** The leg shows the number of the line it names, as the line table has
    it. *)
Definition numbered (st : Store) (leg : Leg) : Prop :=
  leg_line_number leg = line_number <$> line_by_id st (leg_line_id leg).

(** Every recorded predecessor stands for an edge of the graph. *)
Definition pred_edges (graph : gmap Z (list Edge)) (preds : gmap Z (option (Z * Z))) : Prop :=
  forall v u l,
    preds !! v = Some (Some (u, l)) ->
    exists e, e ∈ default [] (graph !! u) /\ nb_stop_id e = v /\ nb_line_id e = l.

(** The segments of the line with id [k], in the order in which the graph
    builder walks them. *)
Definition line_stops (st : Store) (k : Z) : list RouteSegment :=
  order_by by_order (List.filter (fun s => bus_line_id s =? k) (all_route_segments st)).

(** [a] stands right before [b] in [l]. *)
Definition adjacent {A} (a b : A) (l : list A) : Prop :=
  exists l1 l2, l = l1 ++ a :: b :: l2.

(** [e] is one of the two edges the builder draws for the segments [a] and
    [b] of line [k], and it leaves stop [u]. *)
Definition joins (k : Z) (a b : RouteSegment) (u : Z) (e : Edge) : Prop :=
  (u = stop_id (bus_stop a)
   /\ e = mkEdge (stop_id (bus_stop b)) k (line_number (bus_line a)))
  \/ (u = stop_id (bus_stop b)
      /\ e = mkEdge (stop_id (bus_stop a)) k (line_number (bus_line a))).

(** The list filed under key [k] in [segments_by_line]. *)
Fixpoint group_of (k : Z) (groups : list (Z * list RouteSegment)) : list RouteSegment :=
  match groups with
  | [] => []
  | (k', l) :: groups' => if k =? k' then l else group_of k groups'
  end.

(** The search between two turns of its loop, with the stops expanded so far
    in [done]: the start stop has been reached; a stop that has been reached
    is expanded or waits in the queue at the cost recorded for it; every
    edge out of an expanded stop leads to a stop that has been reached; and
    the end stop is not expanded. *)
Record frontier_inv (graph : gmap Z (list Edge)) (start_stop_id end_stop_id : Z)
    (done : gset Z) (s : SearchState) : Prop := {
  fr_start : exists d, distances s !! start_stop_id = Some (Finite d);
  fr_live : forall v d,
    distances s !! v = Some (Finite d) ->
    v ∈ done \/ exists line, In (d, v, line) (priority_queue s);
  fr_edges : forall u e,
    u ∈ done -> e ∈ default [] (graph !! u) ->
    exists d, distances s !! nb_stop_id e = Some (Finite d);
  fr_end : end_stop_id ∉ done
}.

(** The line with id [k] has a segment at the stop with id [u]. *)
Definition calls_at (st : Store) (k u : Z) : Prop :=
  exists s, In s (all_route_segments st) /\ bus_line_id s = k /\ stop_id (bus_stop s) = u.

(** The line of every segment is a row of the line table. *)
Definition line_integrity (st : Store) : Prop :=
  forall seg, In seg (all_route_segments st) ->
    exists line, In line (all_lines st) /\ line_id line = bus_line_id seg.

(** ** Saved routes: [view_saved_route] *)

Inductive SavedRouteResult : Type :=
  | DirectLines (bus_lines : list BusLine) (start_stop end_stop : BusStop)
  | ShortestPath (path : list Leg) (start_stop end_stop : BusStop).

Inductive SavedRouteMessage : Type :=
  | NoRoutesFound.

(** [results] and [error_message] as the view hands them to the template. *)
Record SavedRoutePage : Type := mkSavedRoutePage {
  sr_results : list SavedRouteResult;
  sr_error_message : option SavedRouteMessage
}.

(** [view_saved_route] from the two stops of the saved route on. The view has
    no [try]: an exception of the path search leaves it. *)
Definition view_saved_route (fuel : nat) (st : Store) (start_stop end_stop : BusStop)
    : option (result SavedRoutePage) :=
  let direct_bus_lines := direct_bus_lines st start_stop end_stop in
  match find_shortest_path fuel st (stop_id start_stop) (stop_id end_stop) with
  | None => None
  | Some (Raise e) => Some (Raise e)
  | Some (Ok shortest_path) =>
      let results :=
        if qs_exists direct_bus_lines
        then [DirectLines direct_bus_lines start_stop end_stop] else [] in
      let results :=
        if qs_exists shortest_path
        then results ++ [ShortestPath shortest_path start_stop end_stop] else results in
      Some (Ok (mkSavedRoutePage results
                  (if qs_exists results then None else Some NoRoutesFound)))
  end.

(** ** Line search: the [bus_line] branch of [search_route] *)

(** [Model.objects.get(...)]: the one matching row, or one of the two
    exceptions of [get]. *)
Inductive get_result (A : Type) : Type :=
  | Got (row : A)
  | DoesNotExist
  | MultipleObjectsReturned.
Arguments Got {A} row.
Arguments DoesNotExist {A}.
Arguments MultipleObjectsReturned {A}.

(** [BusLine.objects.get(line_number=n)] *)
Definition get_line_by_number (st : Store) (n : Z) : get_result BusLine :=
  match List.filter (fun l => line_number l =? n) (all_lines st) with
  | [] => DoesNotExist
  | [bus_line] => Got bus_line
  | _ :: _ :: _ => MultipleObjectsReturned
  end.

(** [RouteSegment.objects.filter(bus_line=bus_line).order_by('order')] *)
Definition all_segments (st : Store) (bus_line : BusLine) : list RouteSegment :=
  order_by by_order (List.filter (on_line bus_line) (all_route_segments st)).

(** [all_segments.last()]: the first row of the reversed ordering. *)
Definition last_segment (st : Store) (bus_line : BusLine) : option RouteSegment :=
  head (order_by by_order_desc (List.filter (on_line bus_line) (all_route_segments st))).

Inductive LineMessage : Type :=
  | NoSegmentsFound (bus_line_number : Z)
  | InvalidLineNumber
  | ErrorDuringLineSearch (e : option exn).

(** [segment_data] after its [update] with the keys of a ['full_line']
    result. *)
Record FullLine : Type := mkFullLine {
  fl_segment_data : SegmentDetails;
  fl_bus_line_number : Z;
  fl_start_stop_id : Z;
  fl_end_stop_id : Z
}.

Record LinePage : Type := mkLinePage {
  lp_results : list FullLine;
  lp_error_message : option LineMessage
}.

(** The body of the [try] once [bus_line] is bound. A [segment_data] of
    [None] adds no result and sets no message; [first()] or [last()]
    returning [None] would fail at [.bus_stop]. *)
Definition full_line (osrm : list (Q * Q) -> http_reply) (st : Store)
    (bus_line : BusLine) : result LinePage :=
  if qs_exists (all_segments st bus_line) then
    match head (all_segments st bus_line), last_segment st bus_line with
    | Some first, Some last =>
        let start_stop_obj := bus_stop first in
        let end_stop_obj := bus_stop last in
        try! segment_data :=
          get_segment_details osrm st bus_line start_stop_obj end_stop_obj in
        match segment_data with
        | Some data =>
            Ok (mkLinePage [mkFullLine data (line_number bus_line)
                              (stop_id start_stop_obj) (stop_id end_stop_obj)] None)
        | None => Ok (mkLinePage [] None)
        end
    | _, _ => Raise AttributeError
    end
  else Ok (mkLinePage [] (Some (NoSegmentsFound (line_number bus_line)))).

(** [search_route] for [search_type == 'bus_line'] and a [bus_line_number]
    that reads as the integer [n]; [detailed_bus_line] without stop ids runs
    the same code. [MultipleObjectsReturned] is caught by
    [except Exception], shown here as [ErrorDuringLineSearch None]. *)
Definition search_route_bus_line (osrm : list (Q * Q) -> http_reply) (st : Store)
    (n : Z) : LinePage :=
  match get_line_by_number st n with
  | Got bus_line =>
      match full_line osrm st bus_line with
      | Ok page => page
      | Raise e => mkLinePage [] (Some (ErrorDuringLineSearch (Some e)))
      end
  | DoesNotExist => mkLinePage [] (Some InvalidLineNumber)
  | MultipleObjectsReturned => mkLinePage [] (Some (ErrorDuringLineSearch None))
  end.
(** ** Lines at a stop: the [buses_by_stop] branch of [search_route] *)

(** An item of [found_bus_lines_info]. *)
Record StopBusLine : Type := mkStopBusLine {
  sl_bus_line_number : Z;
  sl_stops_count : nat;
  sl_total_distance_km : option pyfloat;
  sl_total_time_minutes : option pyfloat;
  sl_searched_stop_name : pystr;
  sl_target_stop_latitude : option Q;
  sl_target_stop_longitude : option Q;
  sl_full_line_start_stop_name : pystr;
  sl_full_line_end_stop_name : pystr
}.

Inductive StopMessage : Type :=
  | EnterStopName
  | InvalidStopName
  | NoBusLinesFound (target_stop : BusStop)
  | ErrorDuringStopSearch (e : exn).

Record StopPage : Type := mkStopPage {
  sp_results : list StopBusLine;
  sp_error_message : option StopMessage
}.

(** [order_by('bus_line__line_number')] *)
Definition by_line_number (a b : RouteSegment) : bool :=
  line_number (bus_line a) <=? line_number (bus_line b).

(** What the loop over [all_line_segments] appends to
    [line_coords_for_osrm]. *)
Fixpoint line_coords_for_osrm (all_line_segments : list RouteSegment)
    : list (option Q * option Q) :=
  match all_line_segments with
  | [] => []
  | seg :: rest =>
      match float_if_truthy (latitude (bus_stop seg)),
            float_if_truthy (longitude (bus_stop seg)) with
      | Some lat, Some lng => (Some lat, Some lng) :: line_coords_for_osrm rest
      | _, _ => line_coords_for_osrm rest
      end
  end.

(** The loop [for segment in segments_at_stop], carrying
    [(found_bus_lines_info, processed_bus_lines)]. *)
Fixpoint stop_lines_loop (osrm : list (Q * Q) -> http_reply) (st : Store)
    (target_stop : BusStop) (segments_at_stop : list RouteSegment)
    (acc : list StopBusLine * gset Z) : result (list StopBusLine) :=
  match segments_at_stop with
  | [] => Ok (fst acc)
  | segment :: rest =>
      let '(found_bus_lines_info, processed_bus_lines) := acc in
      let bus_line := bus_line segment in
      if bool_decide (line_number bus_line ∈ processed_bus_lines) then
        stop_lines_loop osrm st target_stop rest acc
      else
        let all_line_segments := all_segments st bus_line in
        try! details :=
          get_route_details_from_osrm osrm (line_coords_for_osrm all_line_segments) in
        let '(total_line_distance, total_line_time) := details in
        stop_lines_loop osrm st target_stop rest
          (found_bus_lines_info ++
             [mkStopBusLine
                (line_number bus_line)
                (length all_line_segments)
                ((fun x => float_round x 2) <$> total_line_distance)
                ((fun x => float_round x 0) <$> total_line_time)
                (name_en target_stop)
                (float_if_truthy (latitude target_stop))
                (float_if_truthy (longitude target_stop))
                (match head all_line_segments with
                 | Some first => name_en (bus_stop first)
                 | None => []
                 end)
                (match last_segment st bus_line with
                 | Some last => name_en (bus_stop last)
                 | None => []
                 end)],
           {[line_number bus_line]} ∪ processed_bus_lines)
  end.

(** [sorted(found_bus_lines_info, key=lambda x: x['bus_line_number'])] *)
Fixpoint insert_info (x : StopBusLine) (l : list StopBusLine) : list StopBusLine :=
  match l with
  | [] => [x]
  | y :: l' =>
      if sl_bus_line_number x <=? sl_bus_line_number y then x :: l else y :: insert_info x l'
  end.

Definition sorted_by_line_number (l : list StopBusLine) : list StopBusLine :=
  foldr insert_info [] l.

(** [search_route] for [search_type == 'buses_by_stop'], from the stripped
    request parameter to the page's [results] and [error_message]. *)
Definition search_route_buses_by_stop (osrm : list (Q * Q) -> http_reply) (st : Store)
    (single_bus_stop_name_raw : pystr) : StopPage :=
  if negb (qs_exists single_bus_stop_name_raw) then mkStopPage [] (Some EnterStopName)
  else
    match get_bus_stop_object st single_bus_stop_name_raw with
    | None => mkStopPage [] (Some InvalidStopName)
    | Some target_stop =>
        let segments_at_stop :=
          order_by by_line_number
            (List.filter (at_stop target_stop) (all_route_segments st)) in
        if negb (qs_exists segments_at_stop) then
          mkStopPage [] (Some (NoBusLinesFound target_stop))
        else
          match stop_lines_loop osrm st target_stop segments_at_stop ([], ∅) with
          | Ok found_bus_lines_info =>
              mkStopPage (sorted_by_line_number found_bus_lines_info) None
          | Raise e => mkStopPage [] (Some (ErrorDuringStopSearch e))
          end
    end.

(** ** Stops between: the [between_stops] branch of [search_route] *)

Inductive BetweenMessage : Type :=
  | ProvideBothStopNames
  | StartStopNotFound (start_stop_name_raw : pystr)
  | EndStopNotFound (end_stop_name_raw : pystr)
  | NoConnectingLines.

(** The page of the branch: rendered by [between_stops_results.html], or,
    when a name does not resolve, by [search_results.html] at the end of the
    view, with no results and the message set in the branch. *)
Inductive BetweenPage : Type :=
  | BetweenStopsResults (between_stops_results : list StopsBetween)
      (start_stop end_stop : option BusStop) (error_message : option BetweenMessage)
  | SearchResults (error_message : option BetweenMessage).

Definition search_route_between_stops (st : Store)
    (start_stop_name_raw end_stop_name_raw : pystr) : BetweenPage :=
  if negb (qs_exists start_stop_name_raw) || negb (qs_exists end_stop_name_raw) then
    BetweenStopsResults [] None None (Some ProvideBothStopNames)
  else
    match get_bus_stop_object st start_stop_name_raw,
          get_bus_stop_object st end_stop_name_raw with
    | None, _ => SearchResults (Some (StartStopNotFound start_stop_name_raw))
    | Some _, None => SearchResults (Some (EndStopNotFound end_stop_name_raw))
    | Some start_stop_obj, Some end_stop_obj =>
        let between_stops_results := find_stops_between st start_stop_obj end_stop_obj in
        BetweenStopsResults between_stops_results (Some start_stop_obj) (Some end_stop_obj)
          (if qs_exists between_stops_results then None else Some NoConnectingLines)
    end.

(** A circular line: it ends at the stop it starts from. *)
Definition loop_store : Store :=
  mkStore [P1; P2]
          [line10]
          [mkRouteSegment line10 P1 1; mkRouteSegment line10 P2 2; mkRouteSegment line10 P1 3].

(** * Properties *)

(** ** Stop Name Resolver *)

Lemma rsplit_last_some c s a b :
  rsplit_last c s = Some (a, b) -> s = a ++ c :: b /\ ~ In c b.
Proof.
  revert a b. induction s as [|x s IH]; intros a b H; simpl in H; [discriminate|].
  destruct (rsplit_last c s) as [[a' b']|] eqn:E.
  - inversion H; subst. destruct (IH a' b eq_refl) as [-> Hb]. auto.
  - destruct (Z.eqb_spec x c) as [->|]; [|discriminate].
    inversion H; subst. split; [reflexivity|].
    clear -E. induction b as [|y b IHb]; simpl in *; [tauto|].
    destruct (rsplit_last c b) as [[? ?]|]; [discriminate|].
    destruct (Z.eqb_spec y c); [discriminate|]. intros [?|?]; [congruence|tauto].
Qed.

Lemma rsplit_last_none c s :
  rsplit_last c s = None <-> ~ In c s.
Proof.
  induction s as [|x s IH]; simpl; [tauto|].
  destruct (rsplit_last c s) as [[a b]|] eqn:E.
  - split; [discriminate|]. intros H. exfalso.
    apply rsplit_last_some in E as [-> _]. apply H. right.
    apply in_or_app. right. left. reflexivity.
  - destruct (Z.eqb_spec x c) as [->|Hne].
    + split; [discriminate|]. intros H. exfalso. apply H. now left.
    + split; [|reflexivity]. intros _ [?|?]; [congruence|]. now apply IH.
Qed.

Lemma rsplit_last_app c a b :
  ~ In c b -> rsplit_last c (a ++ c :: b) = Some (a, b).
Proof.
  intros Hb. induction a as [|x a IH]; simpl.
  - apply rsplit_last_none in Hb. rewrite Hb, Z.eqb_refl. reflexivity.
  - now rewrite IH.
Qed.

Lemma str_contains_In c s : str_contains c s = true <-> In c s.
Proof.
  unfold str_contains. rewrite existsb_exists. split.
  - intros (x & Hx & E). apply Z.eqb_eq in E. now subst.
  - intros H. exists c. split; [assumption|apply Z.eqb_refl].
Qed.

Lemma endswith_last c s : endswith c s = true <-> last s = Some c.
Proof.
  unfold endswith. destruct (last s) as [x|]; [|split; discriminate].
  rewrite Z.eqb_eq. split; congruence.
Qed.

(** [rsplit] cuts in two when the separator occurs, so that [parts[0]] and
    [parts[1]] are in range. *)
Lemma rsplit1_two_parts c s :
  In c s -> exists a b, rsplit1 c s = [a; b].
Proof.
  intros H. unfold rsplit1. destruct (rsplit_last c s) as [[a b]|] eqn:E; [eauto|].
  apply rsplit_last_none in E. contradiction.
Qed.

Lemma lstrip_spec s :
  exists ws, s = ws ++ lstrip s /\ forallb isspace ws = true
             /\ (forall c, head (lstrip s) = Some c -> isspace c = false).
Proof.
  induction s as [|c s (ws & E & Hws & Hh)]; simpl.
  - exists []. repeat split. discriminate.
  - destruct (isspace c) eqn:Hc.
    + exists (c :: ws). simpl. rewrite Hc, Hws. repeat split; [congruence|assumption].
    + exists []. repeat split. simpl. congruence.
Qed.

Lemma last_rev_head {A} (l : list A) : last (rev l) = head l.
Proof. destruct l as [|a l]; simpl; [reflexivity|apply last_snoc]. Qed.

(** [strip] takes whitespace, and nothing else, from both ends. *)
Lemma strip_spec s :
  exists ws1 ws2, s = ws1 ++ strip s ++ ws2
    /\ forallb isspace ws1 = true /\ forallb isspace ws2 = true
    /\ (forall c, last (strip s) = Some c -> isspace c = false).
Proof.
  destruct (lstrip_spec s) as (ws1 & E1 & H1 & _).
  destruct (lstrip_spec (rev (lstrip s))) as (ws2 & E2 & H2 & Hh).
  exists ws1, (rev ws2). unfold strip, rstrip. repeat split.
  - rewrite <- rev_app_distr, <- E2, rev_involutive. exact E1.
  - exact H1.
  - rewrite forallb_forall in *. intros x Hx. apply H2. now apply in_rev.
  - intros c Hc. apply Hh. now rewrite last_rev_head in Hc.
Qed.

Lemma strip_trimmed s : trimmed s (strip s).
Proof.
  destruct (lstrip_spec s) as (ws1 & E1 & H1 & Hh1).
  destruct (lstrip_spec (rev (lstrip s))) as (ws2 & E2 & H2 & Hh2).
  assert (lstrip s = strip s ++ rev ws2) as E.
  { unfold strip, rstrip. rewrite <- rev_app_distr, <- E2, rev_involutive. reflexivity. }
  exists ws1, (rev ws2). split; [rewrite <- E; exact E1|].
  split; [apply Forall_forall; intros c Hc; rewrite forallb_forall in H1;
          apply H1, list_elem_of_In, Hc|].
  split; [apply Forall_forall; intros c Hc; rewrite forallb_forall in H2;
          apply H2, in_rev, list_elem_of_In, Hc|].
  split.
  - intros c Hc. apply Hh1. rewrite E. destruct (strip s); [discriminate|exact Hc].
  - intros c Hc. apply Hh2. unfold strip, rstrip in Hc. now rewrite last_rev_head in Hc.
Qed.

Lemma lstrip_spaces ws s :
  Forall (fun c => isspace c = true) ws -> lstrip (ws ++ s) = lstrip s.
Proof.
  induction 1 as [|c ws Hc _ IH]; simpl; [reflexivity|]. now rewrite Hc.
Qed.

Lemma lstrip_all_spaces ws : Forall (fun c => isspace c = true) ws -> lstrip ws = [].
Proof.
  intros H. rewrite <- (app_nil_r ws). now rewrite lstrip_spaces.
Qed.

Lemma lstrip_id s : (forall c, head s = Some c -> isspace c = false) -> lstrip s = s.
Proof.
  destruct s as [|c s]; [reflexivity|]. intros H. simpl. now rewrite (H c eq_refl).
Qed.

(** Trimming has one result, the one [strip] computes. *)
Lemma trimmed_strip s t : trimmed s t -> t = strip s.
Proof.
  intros (ws1 & ws2 & -> & H1 & H2 & Hh & Hl).
  unfold strip, rstrip. rewrite (lstrip_spaces ws1 _ H1).
  destruct t as [|c t].
  - simpl. rewrite (lstrip_all_spaces ws2 H2). reflexivity.
  - assert (lstrip ((c :: t) ++ ws2) = (c :: t) ++ ws2) as ->
      by (apply lstrip_id; intros x [= <-]; now apply Hh).
    rewrite rev_app_distr, lstrip_spaces.
    + rewrite lstrip_id; [now rewrite rev_involutive|].
      intros x Hx. apply Hl. rewrite <- (rev_involutive (c :: t)), last_rev_head.
      exact Hx.
    + apply Forall_forall. intros x Hx. rewrite Forall_forall in H2.
      apply H2, list_elem_of_In, in_rev, list_elem_of_In, Hx.
Qed.

(** C6. [parse_stop_name_with_road] on every string: either the string has the
    shape [pre ( suf )] with no further [(] in [suf], that is, it is cut at its
    last [(], and the result is [pre], trimmed, with [suf], trimmed, as the
    road qualifier; or the string has no [(] or does not end with [)], and the
    result is the whole string, as it is, with no road qualifier. Trimmed
    means: the whitespace at both ends is gone, nothing else is, and what is
    left neither starts nor ends with whitespace. *)
Theorem parse_stop_name_with_road_spec (full_name : pystr) :
  (exists pre suf stop_name road_name,
      full_name = pre ++ LPAREN :: suf ++ [RPAREN]
      /\ ~ In LPAREN suf
      /\ parse_stop_name_with_road full_name = (stop_name, Some road_name)
      /\ trimmed pre stop_name
      /\ trimmed suf road_name)
  \/ ((~ In LPAREN full_name \/ last full_name <> Some RPAREN)
      /\ parse_stop_name_with_road full_name = (full_name, None)).
Proof.
  unfold parse_stop_name_with_road.
  destruct (str_contains LPAREN full_name) eqn:Hc; simpl.
  2:{ right. split; [|reflexivity]. left. rewrite <- str_contains_In. congruence. }
  destruct (endswith RPAREN full_name) eqn:He.
  2:{ right. split; [|reflexivity]. right. rewrite <- endswith_last. congruence. }
  left. apply str_contains_In in Hc. apply endswith_last in He.
  unfold rsplit1. destruct (rsplit_last LPAREN full_name) as [[a b]|] eqn:E.
  2:{ apply rsplit_last_none in E. contradiction. }
  apply rsplit_last_some in E as [-> Hb]. simpl.
  destruct (exists_last (l := b)) as (b' & x & ->).
  { intros ->. rewrite last_app in He. simpl in He. discriminate. }
  replace (a ++ LPAREN :: b' ++ [x]) with ((a ++ LPAREN :: b') ++ [x]) in He
    by (rewrite <- app_assoc; reflexivity).
  rewrite last_snoc in He.
  inversion He; subst x.
  exists a, b', (strip a), (strip b'). unfold drop_last. rewrite removelast_last.
  split; [reflexivity|]. split.
  { intros H. apply Hb. apply in_or_app. now left. }
  split; [reflexivity|]. split; apply strip_trimmed.
Qed.

(** A string with blanks around the name and around the road. *)
Lemma parse_stop_name_with_road_spec_witness :
  parse_stop_name_with_road (py "  Central  (  Main Road  )")
  = (py "Central", Some (py "Main Road"))
  /\ trimmed (py "  Central  ") (py "Central")
  /\ trimmed (py "  Main Road  ") (py "Main Road").
Proof.
  destruct (parse_stop_name_with_road_spec (py "  Central  (  Main Road  )"))
    as [(pre & suf & stop_name & road_name & E & Hn & Hp & Tn & Tr)|[[H|H] _]].
  - assert (rsplit_last LPAREN (py "  Central  (  Main Road  )")
            = Some (pre, suf ++ [RPAREN])) as Hcut.
    { rewrite E. apply rsplit_last_app. intros Hin.
      apply in_app_or in Hin as [Hin|[Hin|[]]]; [contradiction|discriminate]. }
    vm_compute in Hcut. injection Hcut as <- Hs.
    change [32; 32; 77; 97; 105; 110; 32; 82; 111; 97; 100; 32; 32; 41]
      with ([32; 32; 77; 97; 105; 110; 32; 82; 111; 97; 100; 32; 32] ++ [41]) in Hs.
    apply app_inj_tail in Hs as [<- _].
    assert (parse_stop_name_with_road (py "  Central  (  Main Road  )")
            = (py "Central", Some (py "Main Road"))) as Hv by reflexivity.
    rewrite Hv in Hp. injection Hp as <- <-. repeat split; assumption.
  - exfalso. apply H. vm_compute. tauto.
  - exfalso. apply H. reflexivity.
Defined.

Example parse_central_main_road :
  parse_stop_name_with_road (py "Central (Main Road)") = (py "Central", Some (py "Main Road")).
Proof. reflexivity. Qed.

Example parse_without_road :
  parse_stop_name_with_road (py "Central") = (py "Central", None).
Proof. reflexivity. Qed.

Example parse_splits_on_last_paren :
  parse_stop_name_with_road (py "Market (East) ( Hill Road )")
  = (py "Market (East)", Some (py "Hill Road")).
Proof. reflexivity. Qed.

Lemma first_by_pk_none rows : first_by_pk rows = None <-> rows = [].
Proof.
  destruct rows as [|r rows]; simpl; [tauto|].
  destruct (first_by_pk rows); [destruct (_ <=? _)|]; split; discriminate.
Qed.

Lemma first_by_pk_in rows r : first_by_pk rows = Some r -> In r rows.
Proof.
  revert r. induction rows as [|x rows IH]; intros r H; simpl in H; [discriminate|].
  destruct (first_by_pk rows) as [m|].
  - destruct (_ <=? _); inversion H; subst; [now left|right; now apply IH].
  - inversion H. now left.
Qed.

(** [first()] returns a row with the least primary key. *)
Lemma first_by_pk_least rows r x :
  first_by_pk rows = Some r -> In x rows -> stop_id r <= stop_id x.
Proof.
  revert r. induction rows as [|y rows IH]; intros r H Hx; simpl in *; [tauto|].
  destruct (first_by_pk rows) as [m|] eqn:E.
  - destruct (Z.leb_spec (stop_id y) (stop_id m)); inversion H; subst;
      destruct Hx as [->|Hx]; try lia; specialize (IH _ eq_refl Hx); lia.
  - apply first_by_pk_none in E. subst. inversion H; subst.
    destruct Hx as [->|[]]. lia.
Qed.

Lemma qs_exists_false {A} (rows : list A) : qs_exists rows = false <-> rows = [].
Proof. destruct rows; simpl; split; congruence. Qed.

Lemma get_bus_stop_object_with_road st raw stop_name road_name :
  parse_stop_name_with_road raw = (stop_name, Some road_name) ->
  road_name <> [] ->
  get_bus_stop_object st raw = resolve_with_road_spec st stop_name road_name.
Proof.
  intros Hp Hr. unfold get_bus_stop_object, resolve_with_road_spec. rewrite Hp.
  destruct road_name as [|c road]; [congruence|].
  cbn [str_truthy default id].
  remember (List.filter (name_road_query stop_name (c :: road)) (all_stops st)) as exact eqn:E.
  destruct exact as [|x l]; simpl qs_exists; simpl negb; cbv iota.
  - reflexivity.
  - rewrite <- E. destruct (first_by_pk (x :: l)) eqn:F; [reflexivity|].
    apply first_by_pk_none in F. discriminate.
Qed.

Lemma resolve_with_road_prefers_exact st stop_name road_name s :
  In s (all_stops st) ->
  name_road_query stop_name road_name s = true ->
  exists r, resolve_with_road_spec st stop_name road_name = Some r
            /\ In r (all_stops st)
            /\ name_road_query stop_name road_name r = true.
Proof.
  intros Hin Hq. unfold resolve_with_road_spec.
  destruct (first_by_pk _) as [r|] eqn:F.
  - exists r. apply first_by_pk_in, filter_In in F. tauto.
  - apply first_by_pk_none in F.
    assert (In s (List.filter (name_road_query stop_name road_name) (all_stops st)))
      by (apply filter_In; tauto).
    rewrite F in H. contradiction.
Qed.

(** C7, as amended. For a search string that parses to a name and a
    non-empty road qualifier, [get_bus_stop_object] is the two-step rule: the
    first stop matching (name, road) in English or in Myanmar, and the first
    stop matching the name alone only when there is none. So whenever a stop
    matches the pair, the stop returned matches the pair; for
    ["Central (Main Road)"] this is a stop named Central on Main Road, whatever
    other stops are named Central. *)
Theorem get_bus_stop_object_prefers_exact_road (st : Store) (raw stop_name road_name : pystr) :
  parse_stop_name_with_road raw = (stop_name, Some road_name) ->
  road_name <> [] ->
  get_bus_stop_object st raw = resolve_with_road_spec st stop_name road_name
  /\ (forall s, In s (all_stops st) -> name_road_query stop_name road_name s = true ->
      exists r, get_bus_stop_object st raw = Some r
                /\ In r (all_stops st)
                /\ name_road_query stop_name road_name r = true)
  /\ ((forall s, In s (all_stops st) -> name_road_query stop_name road_name s = false) ->
      get_bus_stop_object st raw
      = first_by_pk (List.filter (name_query stop_name) (all_stops st))).
Proof.
  intros Hp Hr. pose proof (get_bus_stop_object_with_road st _ _ _ Hp Hr) as E.
  split; [exact E|]. split.
  - intros s Hs Hq. rewrite E. eapply resolve_with_road_prefers_exact; eauto.
  - intros Hnone. rewrite E. unfold resolve_with_road_spec.
    replace (List.filter (name_road_query stop_name road_name) (all_stops st)) with (@nil BusStop);
      [reflexivity|].
    symmetry. induction (all_stops st) as [|x l IH]; [reflexivity|]. simpl.
    rewrite (Hnone x) by now left. apply IH. intros s Hs. apply Hnone. now right.
Qed.

Lemma get_bus_stop_object_prefers_exact_road_witness :
  get_bus_stop_object main_road_store (py "Central (Main Road)")
  = Some (road_stop 3 "central" "MAIN ROAD").
Proof.
  destruct (get_bus_stop_object_prefers_exact_road main_road_store
              (py "Central (Main Road)") (py "Central") (py "Main Road"))
    as (E & _ & _).
  - reflexivity.
  - discriminate.
  - rewrite E. reflexivity.
Defined.

(** C7, as stated, fails on ["Central ()"]: the string parses to the name
    Central with the empty road qualifier, the two-step rule finds no stop
    whose road is the empty string and falls back to the first stop named
    Central, while the code treats the empty qualifier as none and returns the
    stop without a road. *)
Lemma get_bus_stop_object_empty_qualifier :
  parse_stop_name_with_road (py "Central ()") = (py "Central", Some [])
  /\ get_bus_stop_object central_store (py "Central ()") = Some (plain_stop 2 "Central")
  /\ resolve_with_road_spec central_store (py "Central") []
     = Some (road_stop 1 "Central" "Side Road")
  /\ ~ (forall st raw stop_name road_name,
          parse_stop_name_with_road raw = (stop_name, Some road_name) ->
          get_bus_stop_object st raw = resolve_with_road_spec st stop_name road_name).
Proof.
  repeat split; try reflexivity.
  intros H. specialize (H central_store (py "Central ()") (py "Central") [] eq_refl).
  vm_compute in H. discriminate.
Qed.

(** ** Distance/duration provider *)

Lemma truediv_quotient v k :
  truediv v k = match quotient v k with
                | Some x => Ok x
                | None => Raise (match as_number v with
                                 | Some _ => OverflowError
                                 | None => TypeError
                                 end)
                end.
Proof.
  unfold truediv, quotient, int_truediv.
  destruct (as_number v) as [[n|x]|]; [|reflexivity..].
  destruct (float_overflow * k <=? Z.abs n); reflexivity.
Qed.

Lemma osrm_try_spec reply :
  match osrm_try reply with
  | Ok r =>
      r = match well_formed_reply reply with
          | Some (km, mins) => (Some km, Some mins)
          | None => (None, None)
          end
  | Raise _ => well_formed_reply reply = None
  end.
Proof.
  destruct reply as [|status body]; simpl; [reflexivity|].
  unfold raise_for_status. destruct ((400 <=? status) && (status <? 600)); simpl.
  { destruct body as [[]|]; reflexivity. }
  destruct body as [data|]; simpl; [|reflexivity].
  destruct data as [|b|n|x|s|items|items]; simpl;
    try reflexivity; try (destruct b; reflexivity);
    try (destruct (negb _); reflexivity); try (destruct (qs_exists _); reflexivity).
  { destruct x as [q| |]; simpl; try reflexivity. destruct (negb _); reflexivity. }
  destruct (qs_exists items) eqn:Hq.
  2:{ apply qs_exists_false in Hq. subst. reflexivity. }
  destruct (dict_lookup "code" items) as [code|]; simpl; [|reflexivity].
  destruct code as [|b|n|x|s|ci|ci]; simpl;
    try (destruct (dict_lookup "routes" items) as [[]|]; reflexivity).
  destruct (String.eqb s "Ok"); simpl.
  2:{ destruct (dict_lookup "routes" items) as [[| | | | |[|[]]|]|]; reflexivity. }
  destruct (dict_lookup "routes" items) as [routes|]; simpl; [|reflexivity].
  destruct routes as [|b|n|x|s'|ri|ri]; simpl; try reflexivity;
    try (destruct b; reflexivity); try (destruct (negb _); reflexivity).
  - destruct x as [q| |]; simpl; try reflexivity. destruct (negb _); reflexivity.
  - destruct s'; reflexivity.
  - destruct ri as [|route ri]; simpl; [reflexivity|].
    destruct route as [|b|n|x|s'|y|route]; simpl; try reflexivity.
    destruct (dict_lookup "distance" route) as [d|]; simpl; [|reflexivity].
    destruct (dict_lookup "duration" route) as [t|]; simpl; [|reflexivity].
    rewrite !truediv_quotient.
    destruct (quotient d 1000); simpl; [|reflexivity].
    destruct (quotient t 60); reflexivity.
  - destruct ri; reflexivity.
Qed.

Lemma valid_coords_length coords_list :
  (length (valid_coords coords_list) <= length coords_list)%nat.
Proof.
  induction coords_list as [|[[?|] [?|]] l IH]; simpl; lia.
Qed.

Lemma get_route_details_from_osrm_eq osrm coords_list :
  get_route_details_from_osrm osrm coords_list
  = Ok (if (length (valid_coords coords_list) <? 2)%nat then (None, None)
        else match well_formed_reply (osrm (valid_coords coords_list)) with
             | Some (km, mins) => (Some km, Some mins)
             | None => (None, None)
             end).
Proof.
  unfold get_route_details_from_osrm.
  pose proof (valid_coords_length coords_list) as Hl.
  destruct (Nat.ltb_spec (length (valid_coords coords_list)) 2) as [Hv|Hv].
  - destruct (negb (qs_exists coords_list) || (length coords_list <? 2)%nat); reflexivity.
  - destruct coords_list as [|c l]; [simpl in Hv; lia|]. simpl qs_exists. simpl negb.
    destruct (Nat.ltb_spec (length (c :: l)) 2); [lia|]. simpl orb. cbv iota.
    pose proof (osrm_try_spec (osrm (valid_coords (c :: l)))) as Ht.
    destruct (osrm_try _) as [r|[]]; rewrite Ht; reflexivity.
Qed.

(** C8, as amended. [get_route_details_from_osrm] never raises. It returns
    [(None, None)] when fewer than two points have both coordinates, when the
    request fails or times out, when the status is one from 400 to 599, when
    the body is not JSON, and whenever the reply is not one the function
    takes numbers from ([well_formed_reply]); numbers come out exactly for
    such a reply, and they are its distance in kilometers and its duration in
    minutes. *)
Theorem get_route_details_from_osrm_unavailable
    (osrm : list (Q * Q) -> http_reply) (coords_list : list (option Q * option Q)) :
  (exists r, get_route_details_from_osrm osrm coords_list = Ok r)
  /\ ((length (valid_coords coords_list) < 2)%nat ->
      get_route_details_from_osrm osrm coords_list = Ok (None, None))
  /\ (osrm (valid_coords coords_list) = Failed ->
      get_route_details_from_osrm osrm coords_list = Ok (None, None))
  /\ (forall status body,
        osrm (valid_coords coords_list) = Reply status body ->
        400 <= status < 600 ->
        get_route_details_from_osrm osrm coords_list = Ok (None, None))
  /\ (forall status,
        osrm (valid_coords coords_list) = Reply status None ->
        get_route_details_from_osrm osrm coords_list = Ok (None, None))
  /\ (well_formed_reply (osrm (valid_coords coords_list)) = None ->
      get_route_details_from_osrm osrm coords_list = Ok (None, None))
  /\ (forall r, get_route_details_from_osrm osrm coords_list = Ok r ->
      r = (None, None)
      \/ exists km mins, r = (Some km, Some mins)
           /\ (2 <= length (valid_coords coords_list))%nat
           /\ well_formed_reply (osrm (valid_coords coords_list)) = Some (km, mins))
  /\ (forall km mins,
        (2 <= length (valid_coords coords_list))%nat ->
        well_formed_reply (osrm (valid_coords coords_list)) = Some (km, mins) ->
        get_route_details_from_osrm osrm coords_list = Ok (Some km, Some mins)).
Proof.
  rewrite get_route_details_from_osrm_eq.
  destruct (Nat.ltb_spec (length (valid_coords coords_list)) 2) as [Hv|Hv].
  - repeat split; eauto; try lia. intros r [= <-]. now left.
  - split; [eauto|]. split; [lia|]. split; [intros ->; reflexivity|].
    split.
    { intros status body -> Hs. simpl.
      destruct body as [[]|]; try reflexivity.
      destruct (Z.leb_spec 400 status); [|lia]. destruct (Z.ltb_spec status 600); [|lia].
      reflexivity. }
    split; [intros status ->; reflexivity|].
    split; [intros ->; reflexivity|].
    split.
    + intros r [= <-]. destruct (well_formed_reply _) as [[km mins]|]; [right|now left].
      exists km, mins. auto.
    + intros km mins _ ->. reflexivity.
Qed.

Lemma get_route_details_from_osrm_unavailable_witness :
  get_route_details_from_osrm osrm_down two_points = Ok (None, None)
  /\ get_route_details_from_osrm osrm_fixed (firstn 2 two_points) = Ok (None, None)
  /\ get_route_details_from_osrm osrm_fixed two_points
     = Ok (Some (Fl (1500 / 1000)), Some (Fl (90 / 60)))
  /\ get_route_details_from_osrm osrm_server_error two_points = Ok (None, None)
  /\ get_route_details_from_osrm osrm_huge two_points = Ok (None, None).
Proof.
  split; [|split; [|split; [|split]]].
  - destruct (get_route_details_from_osrm_unavailable osrm_down two_points)
      as (_ & _ & H & _).
    apply H. reflexivity.
  - destruct (get_route_details_from_osrm_unavailable osrm_fixed (firstn 2 two_points))
      as (_ & H & _).
    apply H. vm_compute. lia.
  - destruct (get_route_details_from_osrm_unavailable osrm_fixed two_points)
      as (_ & _ & _ & _ & _ & _ & _ & H).
    apply H; [vm_compute; lia|reflexivity].
  - destruct (get_route_details_from_osrm_unavailable osrm_server_error two_points)
      as (_ & _ & _ & H & _).
    apply (H 503 (Some (JObj []))); [reflexivity|lia].
  - destruct (get_route_details_from_osrm_unavailable osrm_huge two_points)
      as (_ & _ & _ & _ & _ & H & _).
    apply H. vm_compute. reflexivity.
Defined.

(** The claim as the design document words it fails: a reply that is not a
    successful response, by its status (300) or by a boolean where a number
    belongs, still yields numbers. *)
Lemma get_route_details_from_osrm_lenient :
  successful_response (osrm_multiple_choices (valid_coords two_points)) = None
  /\ get_route_details_from_osrm osrm_multiple_choices two_points
     = Ok (Some (Fl (1500 / 1000)), Some (Fl (90 / 60)))
  /\ successful_response (osrm_boolean (valid_coords two_points)) = None
  /\ get_route_details_from_osrm osrm_boolean two_points
     = Ok (Some (Fl (1 / 1000)), Some (Fl (0 / 60)))
  /\ ~ (forall osrm coords_list,
          successful_response (osrm (valid_coords coords_list)) = None ->
          get_route_details_from_osrm osrm coords_list = Ok (None, None)).
Proof.
  repeat split; try reflexivity.
  intros H. specialize (H osrm_boolean two_points eq_refl). vm_compute in H. discriminate.
Qed.

(** ** Sorted query sets *)

Lemma insert_sorted_In le x l y :
  In y (insert_sorted le x l) <-> y = x \/ In y l.
Proof.
  induction l as [|z l IH]; simpl; [intuition congruence|].
  destruct (le x z); simpl; rewrite ?IH; intuition congruence.
Qed.

Lemma order_by_In le l y : In y (order_by le l) <-> In y l.
Proof.
  unfold order_by. induction l as [|x l IH]; simpl; [tauto|].
  rewrite insert_sorted_In, IH. intuition congruence.
Qed.

Lemma insert_sorted_ext le1 le2 x l :
  (forall a b, le1 a b = le2 a b) -> insert_sorted le1 x l = insert_sorted le2 x l.
Proof.
  intros H. induction l as [|z l IH]; simpl; [reflexivity|].
  rewrite H, IH. reflexivity.
Qed.

Lemma order_by_ext le1 le2 l :
  (forall a b, le1 a b = le2 a b) -> order_by le1 l = order_by le2 l.
Proof.
  intros H. unfold order_by. induction l as [|x l IH]; simpl; [reflexivity|].
  rewrite IH. now apply insert_sorted_ext.
Qed.

Section Sorting.
Variable key : RouteSegment -> Z.

Lemma insert_increasing x l :
  increasing key l ->
  (forall y, In y l -> key y <> key x) ->
  increasing key (insert_sorted (le_key key) x l).
Proof.
  unfold increasing. induction l as [|z l IH]; intros Hs Hx; simpl.
  - repeat constructor.
  - apply StronglySorted_inv in Hs as [Hs Hz].
    unfold le_key at 1. destruct (Z.leb_spec (key x) (key z)) as [Hle|Hlt].
    + assert (key x < key z) by (specialize (Hx z (or_introl eq_refl)); lia).
      constructor; [constructor; assumption|].
      constructor; [assumption|].
      eapply Forall_impl; [exact Hz|]. simpl. intros; lia.
    + constructor.
      * apply IH; [assumption|]. intros y Hy. apply Hx. now right.
      * apply Forall_forall. intros y Hy. apply list_elem_of_In, insert_sorted_In in Hy.
        destruct Hy as [->|Hy]; [assumption|].
        rewrite Forall_forall in Hz. apply Hz, list_elem_of_In, Hy.
Qed.

Lemma order_by_increasing l :
  NoDup (List.map key l) -> increasing key (order_by (le_key key) l).
Proof.
  unfold order_by. induction l as [|x l IH]; intros Hn; simpl.
  - constructor.
  - apply NoDup_cons_1_2 in Hn as Hn'. apply NoDup_cons_1_1 in Hn as Hx.
    apply insert_increasing; [now apply IH|].
    intros y Hy E. apply Hx. rewrite <- E.
    apply list_elem_of_In, in_map, (order_by_In (le_key key)), Hy.
Qed.

Lemma increasing_head_min x l y :
  increasing key (x :: l) -> In y l -> key x < key y.
Proof.
  intros Hs Hy. apply StronglySorted_inv in Hs as [_ Hx].
  rewrite Forall_forall in Hx. apply Hx, list_elem_of_In, Hy.
Qed.

(** Two lists that grow strictly and hold the same elements are equal. *)
Lemma increasing_ext l1 l2 :
  increasing key l1 -> increasing key l2 ->
  (forall x, In x l1 <-> In x l2) -> l1 = l2.
Proof.
  revert l2. induction l1 as [|a l1 IH]; intros [|b l2] H1 H2 Hm.
  - reflexivity.
  - exfalso. apply (Hm b). now left.
  - exfalso. apply (Hm a). now left.
  - assert (a = b) as ->.
    { destruct (proj1 (Hm a) (or_introl eq_refl)) as [E|Ha]; [congruence|].
      destruct (proj2 (Hm b) (or_introl eq_refl)) as [E|Hb]; [congruence|].
      pose proof (increasing_head_min _ _ _ H2 Ha).
      pose proof (increasing_head_min _ _ _ H1 Hb). lia. }
    f_equal. apply IH.
    + now apply StronglySorted_inv in H1.
    + now apply StronglySorted_inv in H2.
    + intros x. split; intros Hx.
      * destruct (proj1 (Hm x) (or_intror Hx)) as [<-|?]; [|assumption].
        pose proof (increasing_head_min _ _ _ H1 Hx). lia.
      * destruct (proj2 (Hm x) (or_intror Hx)) as [<-|?]; [|assumption].
        pose proof (increasing_head_min _ _ _ H2 Hx). lia.
Qed.

Lemma increasing_filter p l :
  increasing key l -> increasing key (List.filter p l).
Proof.
  unfold increasing. induction l as [|x l IH]; intros Hs; simpl; [constructor|].
  apply StronglySorted_inv in Hs as [Hs Hx].
  destruct (p x); [|now apply IH].
  constructor; [now apply IH|].
  rewrite Forall_forall in *. intros y Hy. apply Hx.
  apply list_elem_of_In. apply list_elem_of_In, filter_In in Hy. tauto.
Qed.

Lemma increasing_lookup_lt l i j x y :
  increasing key l -> l !! i = Some x -> l !! j = Some y -> (i < j)%nat -> key x < key y.
Proof.
  revert i j. induction l as [|z l IH]; intros i j Hs Hi Hj Hlt; [discriminate|].
  destruct j as [|j]; [lia|]. simpl in Hj.
  destruct i as [|i]; simpl in Hi.
  - inversion Hi; subst. eapply increasing_head_min; [exact Hs|].
    apply list_elem_of_In, list_elem_of_lookup. eauto.
  - apply StronglySorted_inv in Hs as [Hs _]. eapply (IH i j); eauto. lia.
Qed.

Lemma increasing_lookup_inj l i j x y :
  increasing key l -> l !! i = Some x -> l !! j = Some y -> key x = key y -> i = j.
Proof.
  intros Hs Hi Hj E.
  destruct (lt_eq_lt_dec i j) as [[H|H]|H]; [|assumption|].
  - pose proof (increasing_lookup_lt _ _ _ _ _ Hs Hi Hj H). lia.
  - pose proof (increasing_lookup_lt _ _ _ _ _ Hs Hj Hi H). lia.
Qed.

Lemma increasing_lookup_le l i j x y :
  increasing key l -> l !! i = Some x -> l !! j = Some y -> key x <= key y -> (i <= j)%nat.
Proof.
  intros Hs Hi Hj E.
  destruct (le_lt_dec i j) as [H|H]; [assumption|].
  pose proof (increasing_lookup_lt _ _ _ _ _ Hs Hj Hi H). lia.
Qed.

Lemma increasing_slice l i j :
  increasing key l -> increasing key (py_slice l i j).
Proof.
  unfold increasing, py_slice. intros Hs.
  rewrite <- (take_drop j l) in Hs. apply StronglySorted_app_1_l in Hs.
  rewrite <- (take_drop i (take j l)) in Hs. now apply StronglySorted_app_1_r in Hs.
Qed.

Lemma NoDup_map_filter p l :
  NoDup (List.map key l) -> NoDup (List.map key (List.filter p l)).
Proof.
  induction l as [|x l IH]; intros Hn; simpl; [constructor|].
  apply NoDup_cons_1_2 in Hn as Hn'. apply NoDup_cons_1_1 in Hn as Hx.
  destruct (p x); [|now apply IH].
  simpl. apply NoDup_cons_2; [|now apply IH].
  intros Hin. apply Hx. apply list_elem_of_In, in_map_iff in Hin as (y & E & Hy).
  apply filter_In in Hy. apply list_elem_of_In, in_map_iff. exists y. tauto.
Qed.

End Sorting.

Lemma NoDup_map_opp (key : RouteSegment -> Z) l :
  NoDup (List.map key l) -> NoDup (List.map (fun s => - key s) l).
Proof.
  induction l as [|x l IH]; intros Hn; simpl; [constructor|].
  apply NoDup_cons_1_2 in Hn as Hn'. apply NoDup_cons_1_1 in Hn as Hx.
  apply NoDup_cons_2; [|now apply IH].
  intros Hin. apply Hx. apply list_elem_of_In, in_map_iff in Hin as (y & E & Hy).
  apply list_elem_of_In, in_map_iff. exists y. split; [lia|assumption].
Qed.

Lemma increasing_rev (key : RouteSegment -> Z) l :
  increasing key l -> increasing (fun s => - key s) (rev l).
Proof.
  unfold increasing. induction l as [|x l IH]; intros Hs; simpl; [constructor|].
  apply StronglySorted_inv in Hs as [Hs Hx].
  apply StronglySorted_app. split; [|split; [now apply IH|repeat constructor]].
  intros y z Hy Hz. apply list_elem_of_In in Hy. apply in_rev in Hy.
  apply list_elem_of_singleton in Hz. subst z.
  rewrite Forall_forall in Hx. specialize (Hx y (proj2 (list_elem_of_In _ _) Hy)). lia.
Qed.

Lemma filter_and {A} (p q : A -> bool) l :
  List.filter (fun x => p x && q x) l = List.filter q (List.filter p l).
Proof.
  induction l as [|x l IH]; simpl; [reflexivity|].
  destruct (p x); simpl; [destruct (q x)|]; now rewrite IH.
Qed.

(** ** Segment Extractor *)

Lemma by_order_desc_le_key a b :
  by_order_desc a b = le_key (fun s => - order s) a b.
Proof.
  unfold by_order_desc, le_key.
  destruct (Z.leb_spec (order b) (order a)), (Z.leb_spec (- order a) (- order b)); lia.
Qed.

Lemma first_segment_some st line stop :
  serves st line stop ->
  exists s, first_segment st line stop = Some s
            /\ In s (all_route_segments st)
            /\ on_line line s = true /\ at_stop stop s = true.
Proof.
  intros (s0 & Hin & Hl & Hs). unfold first_segment.
  destruct (order_by _ _) as [|s l] eqn:E.
  - exfalso. apply (in_nil (a := s0)). rewrite <- E.
    rewrite order_by_In, filter_In. split; [exact Hin|]. now rewrite Hl, Hs.
  - exists s. split; [reflexivity|].
    assert (In s (s :: l)) as H by now left.
    rewrite <- E, order_by_In, filter_In, andb_true_iff in H. tauto.
Qed.

(** The slice holds the segments of the line whose order lies between the
    two given ones, both included. *)
Lemma segment_slice_In st line a b s :
  In s (segment_slice st line a b)
  <-> In s (all_route_segments st) /\ on_line line s = true
      /\ Z.min a b <= order s <= Z.max a b.
Proof.
  unfold segment_slice. destruct (Z.leb_spec a b);
    rewrite order_by_In, filter_In, !andb_true_iff, !Z.leb_le;
    [rewrite Z.min_l, Z.max_r by lia|rewrite Z.min_r, Z.max_l by lia]; tauto.
Qed.

Lemma slice_orders_distinct st line (p : RouteSegment -> bool) :
  line_orders_distinct st line ->
  NoDup (List.map order
           (List.filter (fun s => on_line line s && p s) (all_route_segments st))).
Proof.
  intros H. rewrite filter_and. now apply NoDup_map_filter.
Qed.

Lemma segment_slice_increasing st line a b :
  line_orders_distinct st line -> a <= b ->
  increasing order (segment_slice st line a b).
Proof.
  intros Hd Hab. unfold segment_slice. destruct (Z.leb_spec a b); [|lia].
  apply order_by_increasing.
  rewrite (filter_ext _ (fun s => on_line line s && ((a <=? order s) && (order s <=? b))))
    by (intros; now rewrite andb_assoc).
  now apply slice_orders_distinct.
Qed.

Lemma segment_slice_decreasing st line a b :
  line_orders_distinct st line -> b < a ->
  increasing (fun s => - order s) (segment_slice st line a b).
Proof.
  intros Hd Hab. unfold segment_slice. destruct (Z.leb_spec a b); [lia|].
  rewrite (order_by_ext _ _ _ by_order_desc_le_key).
  apply order_by_increasing, NoDup_map_opp.
  rewrite (filter_ext _ (fun s => on_line line s && ((order s <=? a) && (b <=? order s))))
    by (intros; now rewrite andb_assoc).
  now apply slice_orders_distinct.
Qed.

(** Against the line's direction the slice is the forward slice reversed. *)
Lemma segment_slice_rev st line a b :
  line_orders_distinct st line -> a < b ->
  segment_slice st line b a = rev (segment_slice st line a b).
Proof.
  intros Hd Hab. apply (increasing_ext (fun s => - order s)).
  - now apply segment_slice_decreasing.
  - apply increasing_rev, segment_slice_increasing; [assumption|lia].
  - intros s. rewrite <- in_rev, !segment_slice_In, (Z.min_comm b a), (Z.max_comm b a).
    reflexivity.
Qed.

Lemma segment_slice_point st line a :
  line_orders_distinct st line ->
  rev (segment_slice st line a a) = segment_slice st line a a.
Proof.
  intros Hd.
  pose proof (segment_slice_increasing st line a a Hd (Z.le_refl a)) as Hs.
  assert (forall s, In s (segment_slice st line a a) -> order s = a) as Ha.
  { intros s Hs'. apply segment_slice_In in Hs'. lia. }
  destruct (segment_slice st line a a) as [|x [|y l]]; try reflexivity.
  exfalso. pose proof (increasing_head_min order x (y :: l) y Hs (or_introl eq_refl)).
  rewrite (Ha x), (Ha y) in H; simpl; auto. lia.
Qed.

Lemma get_segment_details_slice osrm st line start_stop end_stop sx sy :
  first_segment st line start_stop = Some sx ->
  first_segment st line end_stop = Some sy ->
  In sx (all_route_segments st) -> on_line line sx = true ->
  exists d,
    get_segment_details osrm st line start_stop end_stop = Ok (Some d)
    /\ route_stops d = List.map display_row (segment_slice st line (order sx) (order sy))
    /\ stops_count d = length (segment_slice st line (order sx) (order sy)).
Proof.
  intros Hx Hy Hin Hl. unfold get_segment_details. rewrite Hx, Hy.
  assert (In sx (segment_slice st line (order sx) (order sy))) as Hne
    by (apply segment_slice_In; repeat split; try assumption; lia).
  destruct (segment_slice st line (order sx) (order sy)) as [|s l] eqn:E; [contradiction|].
  simpl qs_exists. simpl negb. cbv iota.
  rewrite get_route_details_from_osrm_eq. simpl rbind.
  destruct (if (_ <? 2)%nat then _ else _) as [dist time].
  eexists. split; [reflexivity|]. split; reflexivity.
Qed.

(** C4, as amended. On a line whose segments have pairwise distinct orders,
    for two stops [X] and [Y] the line calls at, [get_segment_details] succeeds
    in both directions and the stop sequence for [(X, Y)] is the reverse of the
    one for [(Y, X)]. The sequence for [(X, Y)] lists exactly the segments of
    the line whose order lies between the two stops' orders, both included, by
    increasing order when [X]'s order is at most [Y]'s and by decreasing order
    otherwise. *)
Theorem get_segment_details_reverse
    (osrm : list (Q * Q) -> http_reply) (st : Store) (line : BusLine) (X Y : BusStop) :
  line_orders_distinct st line ->
  serves st line X ->
  serves st line Y ->
  exists sx sy dxy dyx slice,
    first_segment st line X = Some sx
    /\ first_segment st line Y = Some sy
    /\ get_segment_details osrm st line X Y = Ok (Some dxy)
    /\ get_segment_details osrm st line Y X = Ok (Some dyx)
    /\ route_stops dxy = rev (route_stops dyx)
    /\ route_stops dxy = List.map display_row slice
    /\ (forall s, In s slice <->
                  In s (all_route_segments st) /\ on_line line s = true
                  /\ Z.min (order sx) (order sy) <= order s <= Z.max (order sx) (order sy))
    /\ (order sx <= order sy -> increasing order slice)
    /\ (order sy < order sx -> increasing (fun s => - order s) slice).
Proof.
  intros Hd HX HY.
  destruct (first_segment_some _ _ _ HX) as (sx & Fx & Hxin & Hxl & _).
  destruct (first_segment_some _ _ _ HY) as (sy & Fy & Hyin & Hyl & _).
  destruct (get_segment_details_slice osrm _ _ _ _ _ _ Fx Fy Hxin Hxl) as (dxy & Exy & Rxy & _).
  destruct (get_segment_details_slice osrm _ _ _ _ _ _ Fy Fx Hyin Hyl) as (dyx & Eyx & Ryx & _).
  exists sx, sy, dxy, dyx, (segment_slice st line (order sx) (order sy)).
  repeat (split; [assumption|]).
  split; [|split; [assumption|split; [apply segment_slice_In|split]]].
  - rewrite Rxy, Ryx, <- map_rev. f_equal.
    destruct (Z.lt_total (order sx) (order sy)) as [H|[H|H]].
    + rewrite (segment_slice_rev st line _ _ Hd H). now rewrite rev_involutive.
    + rewrite H. symmetry. now apply segment_slice_point.
    + now apply segment_slice_rev.
  - now apply segment_slice_increasing.
  - now apply segment_slice_decreasing.
Qed.

Lemma get_segment_details_reverse_witness :
  exists dxy dyx,
    get_segment_details osrm_down scenario_store line10 P3 P1 = Ok (Some dxy)
    /\ get_segment_details osrm_down scenario_store line10 P1 P3 = Ok (Some dyx)
    /\ List.map d_id (route_stops dxy) = [3; 2; 1]
    /\ route_stops dxy = rev (route_stops dyx).
Proof.
  destruct (get_segment_details_reverse osrm_down scenario_store line10 P3 P1)
    as (sx & sy & dxy & dyx & slice & _ & _ & Exy & Eyx & Hrev & _).
  - unfold line_orders_distinct. apply (bool_decide_unpack _). vm_compute. reflexivity.
  - exists (mkRouteSegment line10 P3 3). vm_compute. auto.
  - exists (mkRouteSegment line10 P1 1). vm_compute. auto.
  - exists dxy, dyx. repeat split; try assumption.
    vm_compute in Exy. inversion Exy. reflexivity.
Defined.

(** C4, as stated, fails on a line that stores P1 and P2 at the same order:
    the two orders are equal in both directions, so both directions take the
    increasing slice and list P1, P2. *)
Lemma get_segment_details_shared_order :
  ~ (forall osrm st line X Y dxy dyx,
       serves st line X -> serves st line Y ->
       get_segment_details osrm st line X Y = Ok (Some dxy) ->
       get_segment_details osrm st line Y X = Ok (Some dyx) ->
       route_stops dxy = rev (route_stops dyx)).
Proof.
  intros H.
  destruct (get_segment_details osrm_down shared_order_store line10 P1 P2)
    as [[dxy|]|] eqn:Exy; try (vm_compute in Exy; discriminate).
  destruct (get_segment_details osrm_down shared_order_store line10 P2 P1)
    as [[dyx|]|] eqn:Eyx; try (vm_compute in Eyx; discriminate).
  assert (serves shared_order_store line10 P1) as H1
    by (exists (mkRouteSegment line10 P1 1); vm_compute; auto).
  assert (serves shared_order_store line10 P2) as H2
    by (exists (mkRouteSegment line10 P2 1); vm_compute; auto).
  specialize (H osrm_down shared_order_store line10 P1 P2 dxy dyx H1 H2 Exy Eyx).
  vm_compute in Exy, Eyx. inversion Exy; subst dxy. inversion Eyx; subst dyx.
  vm_compute in H. discriminate.
Qed.

(** ** Stops between *)

Lemma find_positions_fst_unchanged X Y l :
  forall i pos,
    (forall s, In s l -> at_stop X s = false) ->
    fst (find_positions X Y i l pos) = fst pos.
Proof.
  induction l as [|z l IH]; intros i pos H; simpl; [reflexivity|].
  rewrite IH by (intros; apply H; now right).
  rewrite (H z) by now left. destruct (at_stop Y z); reflexivity.
Qed.

Lemma find_positions_snd_unchanged X Y l :
  forall i pos,
    (forall s, In s l -> at_stop Y s = false) ->
    snd (find_positions X Y i l pos) = snd pos.
Proof.
  induction l as [|z l IH]; intros i pos H; simpl; [reflexivity|].
  rewrite IH by (intros; apply H; now right).
  rewrite (H z) by now left. destruct (at_stop X z); reflexivity.
Qed.

Lemma not_at_stop_elsewhere (stop : BusStop) (z : RouteSegment) l k :
  (forall k' s', (z :: l) !! k' = Some s' -> at_stop stop s' = true -> k' = k) ->
  forall s, In s l -> at_stop stop s = true -> exists k', k = S k'.
Proof.
  intros Hu s Hs Ht. apply list_elem_of_In, list_elem_of_lookup in Hs as [k' Hk'].
  exists k'. symmetry. now apply (Hu (S k') s).
Qed.

(** When the start stop stands at index [k] alone, the loop ends with
    [start_position = k]. *)
Lemma find_positions_fst X Y l :
  forall i pos k s,
    l !! k = Some s -> at_stop X s = true ->
    (forall k' s', l !! k' = Some s' -> at_stop X s' = true -> k' = k) ->
    fst (find_positions X Y i l pos) = Some (i + k)%nat.
Proof.
  induction l as [|z l IH]; intros i pos k s Hk Hs Hu; [discriminate|].
  destruct k as [|k]; simpl in Hk |- *.
  - inversion Hk; subst z. rewrite Hs.
    rewrite find_positions_fst_unchanged.
    + destruct (at_stop Y s); simpl; f_equal; lia.
    + intros s' Hs'. destruct (at_stop X s') eqn:E; [|reflexivity].
      destruct (not_at_stop_elsewhere X s l 0%nat Hu s' Hs' E). discriminate.
  - assert (at_stop X z = false) as Hz.
    { destruct (at_stop X z) eqn:E; [|reflexivity].
      specialize (Hu 0%nat z eq_refl E). discriminate. }
    rewrite Hz. rewrite (IH (S i) _ k s Hk Hs); [f_equal; lia|].
    intros k' s' Hk' Hs'. specialize (Hu (S k') s' Hk' Hs'). lia.
Qed.

Lemma find_positions_snd X Y l :
  forall i pos k s,
    l !! k = Some s -> at_stop Y s = true ->
    (forall k' s', l !! k' = Some s' -> at_stop Y s' = true -> k' = k) ->
    snd (find_positions X Y i l pos) = Some (i + k)%nat.
Proof.
  induction l as [|z l IH]; intros i pos k s Hk Hs Hu; [discriminate|].
  destruct k as [|k]; simpl in Hk |- *.
  - inversion Hk; subst z. rewrite Hs.
    rewrite find_positions_snd_unchanged.
    + destruct (at_stop X s); simpl; f_equal; lia.
    + intros s' Hs'. destruct (at_stop Y s') eqn:E; [|reflexivity].
      destruct (not_at_stop_elsewhere Y s l 0%nat Hu s' Hs' E). discriminate.
  - assert (at_stop Y z = false) as Hz.
    { destruct (at_stop Y z) eqn:E; [|reflexivity].
      specialize (Hu 0%nat z eq_refl E). discriminate. }
    rewrite Hz. rewrite (IH (S i) _ k s Hk Hs).
    + destruct (at_stop X z); simpl; f_equal; lia.
    + intros k' s' Hk' Hs'. specialize (Hu (S k') s' Hk' Hs'). lia.
Qed.

Lemma line_segments_increasing st line :
  line_orders_distinct st line ->
  increasing order (order_by by_order (List.filter (on_line line) (all_route_segments st))).
Proof. intros H. now apply order_by_increasing. Qed.

Lemma line_segments_In st line s :
  In s (order_by by_order (List.filter (on_line line) (all_route_segments st)))
  <-> In s (all_route_segments st) /\ on_line line s = true.
Proof. now rewrite order_by_In, filter_In. Qed.

(** On a line with distinct orders, the positions [i..j] of the ordered line
    are the forward slice between the orders found at [i] and [j]. *)
Lemma py_slice_segment_slice st line i j si sj :
  line_orders_distinct st line ->
  let l := order_by by_order (List.filter (on_line line) (all_route_segments st)) in
  l !! i = Some si -> l !! j = Some sj -> order si <= order sj ->
  py_slice l i (j + 1) = segment_slice st line (order si) (order sj).
Proof.
  intros Hd l Hi Hj Hle.
  pose proof (line_segments_increasing st line Hd) as Hinc. fold l in Hinc.
  apply (increasing_ext order).
  - now apply increasing_slice.
  - now apply segment_slice_increasing.
  - intros x. rewrite segment_slice_In, Z.min_l, Z.max_r by lia. split.
    + intros Hx. apply list_elem_of_In, list_elem_of_lookup in Hx as [k Hk].
      unfold py_slice in Hk. rewrite lookup_drop in Hk.
      apply lookup_take_Some in Hk as [Hk Hlt].
      assert (In x l) as Hxl by (apply list_elem_of_In, list_elem_of_lookup; eauto).
      apply line_segments_In in Hxl as [? ?]. repeat split; try assumption.
      * destruct k as [|k]; [rewrite Nat.add_0_r, Hi in Hk; inversion Hk; lia|].
        pose proof (increasing_lookup_lt order l i (i + S k)%nat si x Hinc Hi Hk). lia.
      * destruct (Nat.eq_dec (i + k)%nat j) as [E|E]; [rewrite E, Hj in Hk; inversion Hk; lia|].
        pose proof (increasing_lookup_lt order l (i + k)%nat j x sj Hinc Hk Hj). lia.
    + intros (Hin & Hl & Hlo & Hhi).
      assert (In x l) as Hxl by (apply line_segments_In; auto).
      apply list_elem_of_In, list_elem_of_lookup in Hxl as [k Hk].
      pose proof (increasing_lookup_le order l i k si x Hinc Hi Hk Hlo).
      pose proof (increasing_lookup_le order l k j x sj Hinc Hk Hj Hhi).
      apply list_elem_of_In, list_elem_of_lookup. exists (k - i)%nat.
      unfold py_slice. rewrite lookup_drop. apply lookup_take_Some.
      replace (i + (k - i))%nat with k by lia. split; [assumption|lia].
Qed.

Lemma common_bus_lines_serves st X Y line :
  In line (common_bus_lines st X Y) -> serves st line X /\ serves st line Y.
Proof.
  unfold common_bus_lines, serves. rewrite filter_In, andb_true_iff, !existsb_exists.
  intros (_ & (s1 & H1 & E1) & (s2 & H2 & E2)).
  apply andb_true_iff in E1, E2. split; eauto.
Qed.

(** C5, as amended. On a line with pairwise distinct orders that calls at
    [X] and at [Y] once each, the entry of [find_stops_between] for the line
    lists the stops between the two by increasing order, whichever of the two
    comes first on the line. It is therefore the sequence of
    [get_segment_details] for [(X, Y)] when [X]'s order is at most [Y]'s, and
    that sequence reversed when [X] comes after [Y]. *)
Theorem find_stops_between_increasing_slice
    (osrm : list (Q * Q) -> http_reply) (st : Store) (line : BusLine) (X Y : BusStop) :
  line_orders_distinct st line ->
  In line (common_bus_lines st X Y) ->
  single_order st line X ->
  single_order st line Y ->
  exists sx sy r d,
    first_segment st line X = Some sx
    /\ first_segment st line Y = Some sy
    /\ stops_between_line st X Y line = Some r
    /\ In r (find_stops_between st X Y)
    /\ get_segment_details osrm st line X Y = Ok (Some d)
    /\ sb_stops r
       = List.map bus_stop
           (segment_slice st line (Z.min (order sx) (order sy)) (Z.max (order sx) (order sy)))
    /\ sb_orders r
       = List.map order
           (segment_slice st line (Z.min (order sx) (order sy)) (Z.max (order sx) (order sy)))
    /\ (order sx <= order sy ->
        List.map stop_id (sb_stops r) = List.map d_id (route_stops d)
        /\ sb_orders r = List.map d_order (route_stops d))
    /\ (order sy < order sx ->
        List.map stop_id (sb_stops r) = rev (List.map d_id (route_stops d))
        /\ sb_orders r = rev (List.map d_order (route_stops d))).
Proof.
  intros Hd Hline HsX HsY.
  destruct (common_bus_lines_serves _ _ _ _ Hline) as [HX HY].
  destruct (first_segment_some _ _ _ HX) as (sx & Fx & Hxin & Hxl & Hxs).
  destruct (first_segment_some _ _ _ HY) as (sy & Fy & Hyin & Hyl & Hys).
  destruct (get_segment_details_slice osrm _ _ _ _ _ _ Fx Fy Hxin Hxl) as (d & Ed & Rd & _).
  pose proof (line_segments_increasing st line Hd) as Hinc.
  set (l := order_by by_order (List.filter (on_line line) (all_route_segments st))) in *.
  assert (In sx l) as Hi by (apply line_segments_In; auto).
  assert (In sy l) as Hj by (apply line_segments_In; auto).
  apply list_elem_of_In, list_elem_of_lookup in Hi as [i Hi].
  apply list_elem_of_In, list_elem_of_lookup in Hj as [j Hj].
  assert (forall k s, l !! k = Some s -> at_stop X s = true -> k = i) as Ui.
  { intros k s Hk Hs.
    assert (In s l) as Hsl by (apply list_elem_of_In, list_elem_of_lookup; eauto).
    apply line_segments_In in Hsl as [? ?].
    apply (increasing_lookup_inj order l k i s sx Hinc Hk Hi). now apply HsX. }
  assert (forall k s, l !! k = Some s -> at_stop Y s = true -> k = j) as Uj.
  { intros k s Hk Hs.
    assert (In s l) as Hsl by (apply list_elem_of_In, list_elem_of_lookup; eauto).
    apply line_segments_In in Hsl as [? ?].
    apply (increasing_lookup_inj order l k j s sy Hinc Hk Hj). now apply HsY. }
  pose proof (find_positions_fst X Y l 0%nat (None, None) i sx Hi Hxs Ui) as Pi.
  pose proof (find_positions_snd X Y l 0%nat (None, None) j sy Hj Hys Uj) as Pj.
  simpl in Pi, Pj.
  assert (exists r,
            stops_between_line st X Y line = Some r
            /\ sb_stops r = List.map bus_stop
                 (segment_slice st line (Z.min (order sx) (order sy)) (Z.max (order sx) (order sy)))
            /\ sb_orders r = List.map order
                 (segment_slice st line (Z.min (order sx) (order sy)) (Z.max (order sx) (order sy))))
    as (r & Er & Rs & Ro).
  { unfold stops_between_line. fold l.
    destruct (find_positions X Y 0 l (None, None)) as [p q]. simpl in Pi, Pj. subst p q.
    destruct (Nat.ltb_spec j i) as [Hji|Hij].
    - pose proof (increasing_lookup_lt order l j i sy sx Hinc Hj Hi Hji) as Hlt.
      rewrite Z.min_r, Z.max_l by lia.
      rewrite <- (py_slice_segment_slice st line j i sy sx Hd Hj Hi) by lia.
      eexists. split; [reflexivity|]. split; reflexivity.
    - assert (order sx <= order sy) as Hle.
      { destruct (Nat.eq_dec i j) as [->|Hne].
        - rewrite Hi in Hj. inversion Hj. lia.
        - pose proof (increasing_lookup_lt order l i j sx sy Hinc Hi Hj). lia. }
      rewrite Z.min_l, Z.max_r by lia.
      rewrite <- (py_slice_segment_slice st line i j sx sy Hd Hi Hj) by lia.
      eexists. split; [reflexivity|]. split; reflexivity. }
  exists sx, sy, r, d. repeat (split; [assumption|]).
  split.
  { unfold find_stops_between. apply list_elem_of_In, list_elem_of_omap.
    exists line. split; [now apply list_elem_of_In|assumption]. }
  split; [assumption|]. split; [assumption|]. split; [assumption|].
  rewrite Rs, Ro, Rd, !map_map. simpl. split; intros H.
  - rewrite Z.min_l, Z.max_r by lia. split; reflexivity.
  - rewrite Z.min_r, Z.max_l by lia.
    rewrite (segment_slice_rev st line _ _ Hd H), !map_rev, !rev_involutive.
    split; reflexivity.
Qed.

Lemma find_stops_between_increasing_slice_witness :
  exists r d,
    find_stops_between scenario_store P3 P1 = [r]
    /\ get_segment_details osrm_down scenario_store line10 P3 P1 = Ok (Some d)
    /\ sb_orders r = [1; 2; 3]
    /\ List.map stop_id (sb_stops r) = rev (List.map d_id (route_stops d)).
Proof.
  destruct (find_stops_between_increasing_slice osrm_down scenario_store line10 P3 P1)
    as (sx & sy & r & d & Fx & Fy & Er & _ & Ed & _ & _ & _ & Hrev).
  - unfold line_orders_distinct. apply (bool_decide_unpack _). vm_compute. reflexivity.
  - vm_compute. auto.
  - intros s1 s2 H1 H2 L1 L2 A1 A2. vm_compute in H1, H2.
    repeat (destruct H1 as [<-|H1]; try discriminate);
      repeat (destruct H2 as [<-|H2]; try discriminate); try reflexivity; contradiction.
  - intros s1 s2 H1 H2 L1 L2 A1 A2. vm_compute in H1, H2.
    repeat (destruct H1 as [<-|H1]; try discriminate);
      repeat (destruct H2 as [<-|H2]; try discriminate); try reflexivity; contradiction.
  - exists r, d. vm_compute in Fx, Fy. inversion Fx; inversion Fy; subst sx sy.
    destruct Hrev as [Hs Ho]; [simpl; lia|].
    vm_compute in Er. inversion Er; subst r. repeat split; try assumption.
Defined.

(** C5, as stated, fails from P3 back to P1 on line 10 of the scenario:
    [find_stops_between] lists P1, P2, P3 where [get_segment_details] lists
    P3, P2, P1. *)
Lemma find_stops_between_not_direction_aware :
  ~ (forall osrm st X Y r d,
       In r (find_stops_between st X Y) ->
       get_segment_details osrm st (sb_bus_line r) X Y = Ok (Some d) ->
       List.map stop_id (sb_stops r) = List.map d_id (route_stops d)).
Proof.
  intros H.
  pose (r := mkStopsBetween line10 [P1; P2; P3] 3 [1; 2; 3]).
  assert (In r (find_stops_between scenario_store P3 P1)) as Hr by (vm_compute; auto).
  destruct (get_segment_details osrm_down scenario_store line10 P3 P1) as [[d|]|] eqn:E;
    try (vm_compute in E; discriminate).
  specialize (H osrm_down scenario_store P3 P1 r d Hr E).
  vm_compute in E. inversion E; subst d. vm_compute in H. discriminate.
Qed.

(** ** Zero coordinates *)

Lemma filter_map_comm {A} (f : A -> A) (p : A -> bool) l :
  (forall x, p (f x) = p x) ->
  List.filter p (List.map f l) = List.map f (List.filter p l).
Proof.
  intros H. induction l as [|x l IH]; simpl; [reflexivity|].
  rewrite H. destruct (p x); simpl; now rewrite IH.
Qed.

Lemma insert_sorted_map (f : RouteSegment -> RouteSegment) le x l :
  (forall a b, le (f a) (f b) = le a b) ->
  insert_sorted le (f x) (List.map f l) = List.map f (insert_sorted le x l).
Proof.
  intros H. induction l as [|y l IH]; simpl; [reflexivity|].
  rewrite H. destruct (le x y); simpl; [reflexivity|now rewrite IH].
Qed.

Lemma order_by_map (f : RouteSegment -> RouteSegment) le l :
  (forall a b, le (f a) (f b) = le a b) ->
  order_by le (List.map f l) = List.map f (order_by le l).
Proof.
  intros H. unfold order_by. induction l as [|x l IH]; simpl; [reflexivity|].
  rewrite IH. now apply insert_sorted_map.
Qed.

Lemma float_if_truthy_forget_zero (x : option Z) :
  float_if_truthy (match x with Some 0 => None | y => y end) = float_if_truthy x.
Proof. destruct x as [[| |]|]; reflexivity. Qed.

Lemma display_row_forget_zero s :
  display_row (forget_zero_segment s) = display_row s.
Proof.
  destruct s as [l [i nm ne rm re [[| |]|] [[| |]|]] o]; reflexivity.
Qed.

Lemma route_stops_coords_forget_zero l :
  route_stops_coords (List.map forget_zero_segment l) = route_stops_coords l.
Proof.
  induction l as [|s l IH]; [reflexivity|].
  destruct s as [ln [i nm ne rm re [[| |]|] [[| |]|]] o]; simpl; now rewrite IH.
Qed.

Lemma first_segment_forget_zero st line stop :
  first_segment (forget_zero_store st) line stop
  = forget_zero_segment <$> first_segment st line stop.
Proof.
  unfold first_segment. simpl. rewrite filter_map_comm, order_by_map by reflexivity.
  match goal with |- context [order_by by_order ?l] => destruct (order_by by_order l) end;
    reflexivity.
Qed.

Lemma segment_slice_forget_zero st line a b :
  segment_slice (forget_zero_store st) line a b
  = List.map forget_zero_segment (segment_slice st line a b).
Proof.
  unfold segment_slice. simpl.
  destruct (a <=? b); rewrite filter_map_comm, order_by_map by reflexivity; reflexivity.
Qed.

Lemma get_segment_details_forget_zero osrm st line start_stop end_stop :
  get_segment_details osrm (forget_zero_store st) line start_stop end_stop
  = get_segment_details osrm st line start_stop end_stop.
Proof.
  unfold get_segment_details. rewrite !first_segment_forget_zero.
  destruct (first_segment st line start_stop) as [sx|]; [|reflexivity].
  destruct (first_segment st line end_stop) as [sy|]; [|reflexivity].
  simpl. rewrite segment_slice_forget_zero.
  destruct (segment_slice st line (order sx) (order sy)) as [|s l]; [reflexivity|].
  rewrite route_stops_coords_forget_zero, length_map, map_map.
  rewrite (map_ext _ _ display_row_forget_zero). reflexivity.
Qed.

Lemma get_segment_details_rows osrm st line start_stop end_stop d row :
  get_segment_details osrm st line start_stop end_stop = Ok (Some d) ->
  In row (route_stops d) ->
  exists segment, In segment (all_route_segments st) /\ row = display_row segment.
Proof.
  unfold get_segment_details.
  destruct (first_segment st line start_stop) as [sx|]; [|discriminate].
  destruct (first_segment st line end_stop) as [sy|]; [|discriminate].
  destruct (negb _); [discriminate|].
  rewrite get_route_details_from_osrm_eq. simpl rbind.
  destruct (if (_ <? 2)%nat then _ else _) as [dist time].
  intros [= <-]. simpl. intros Hrow. apply in_map_iff in Hrow as (s & <- & Hs).
  exists s. split; [|reflexivity]. apply segment_slice_In in Hs. tauto.
Qed.

(** C10, as amended. A zero latitude or longitude is read as an absent one,
    field by field: replacing the zero coordinates of the store by NULL
    changes nothing in what [get_segment_details] returns. A segment whose
    stop has a zero coordinate adds no point to the sequence sent to the
    provider, and every row of [route_stops] shows [None] for a coordinate
    stored as zero, and the value for a coordinate stored as anything else:
    the other coordinate of such a stop is still displayed. *)
Theorem get_segment_details_zero_coordinate
    (osrm : list (Q * Q) -> http_reply) (st : Store) (line : BusLine)
    (start_stop end_stop : BusStop) :
  get_segment_details osrm (forget_zero_store st) line start_stop end_stop
  = get_segment_details osrm st line start_stop end_stop
  /\ (forall segment rest,
        latitude (bus_stop segment) = Some 0 \/ longitude (bus_stop segment) = Some 0 ->
        route_stops_coords (segment :: rest) = route_stops_coords rest)
  /\ (forall d row,
        get_segment_details osrm st line start_stop end_stop = Ok (Some d) ->
        In row (route_stops d) ->
        exists segment,
          In segment (all_route_segments st)
          /\ row = display_row segment
          /\ (latitude (bus_stop segment) = Some 0 -> d_latitude row = None)
          /\ (longitude (bus_stop segment) = Some 0 -> d_longitude row = None)
          /\ (forall z, latitude (bus_stop segment) = Some z -> z <> 0 ->
              d_latitude row = Some (z # 1000000))
          /\ (forall z, longitude (bus_stop segment) = Some z -> z <> 0 ->
              d_longitude row = Some (z # 1000000))).
Proof.
  split; [apply get_segment_details_forget_zero|]. split.
  - intros segment rest [H|H]; simpl; rewrite H; simpl; [reflexivity|].
    destruct (float_if_truthy _); reflexivity.
  - intros d row Hd Hrow.
    destruct (get_segment_details_rows _ _ _ _ _ _ _ Hd Hrow) as (s & Hs & ->).
    exists s. split; [assumption|]. split; [reflexivity|].
    split; [|split; [|split]].
    + intros H. simpl. now rewrite H.
    + intros H. simpl. now rewrite H.
    + intros z H Hz. simpl. rewrite H. simpl. destruct (Z.eqb_spec z 0); congruence.
    + intros z H Hz. simpl. rewrite H. simpl. destruct (Z.eqb_spec z 0); congruence.
Qed.

Lemma get_segment_details_zero_coordinate_witness :
  exists d,
    get_segment_details osrm_per_point equator_store line10 on_equator north2 = Ok (Some d)
    /\ stops_count d = 3%nat
    /\ total_distance_km d = Some (Fl (200 # 100))
    /\ (d_latitude <$> head (route_stops d)) = Some None
    /\ (d_longitude <$> head (route_stops d)) = Some (Some (96100000 # 1000000)).
Proof.
  destruct (get_segment_details osrm_per_point equator_store line10 on_equator north2)
    as [[d|]|] eqn:E; try (vm_compute in E; discriminate).
  destruct (get_segment_details_zero_coordinate osrm_per_point equator_store line10
              on_equator north2) as (_ & _ & H).
  destruct (H d (display_row (mkRouteSegment line10 on_equator 1)) E)
    as (s & _ & Hrow & Hlat & _ & _ & _).
  { vm_compute in E. inversion E. left. reflexivity. }
  exists d. vm_compute in E. inversion E. repeat split; reflexivity.
Defined.

(** The claim as worded fails: a stop with a zero latitude is not shown like
    a stop without coordinates, its longitude is displayed. *)
Lemma get_segment_details_zero_latitude_shows_longitude :
  latitude on_equator = Some 0
  /\ (exists d,
        get_segment_details osrm_down equator_store line10 on_equator north2 = Ok (Some d)
        /\ head (route_stops d)
           = Some (mkStopDisplay (py "Equator") (py "Equator") None None 1
                     None (Some (96100000 # 1000000)) 1))
  /\ ~ (forall osrm st line start_stop end_stop d segment,
          get_segment_details osrm st line start_stop end_stop = Ok (Some d) ->
          In (display_row segment) (route_stops d) ->
          latitude (bus_stop segment) = Some 0 \/ longitude (bus_stop segment) = Some 0 ->
          d_latitude (display_row segment) = None
          /\ d_longitude (display_row segment) = None).
Proof.
  split; [reflexivity|]. split.
  - eexists. split; reflexivity.
  - intros H.
    destruct (H osrm_down equator_store line10 on_equator north2 _
                (mkRouteSegment line10 on_equator 1) eq_refl) as [_ Hlng].
    + left. reflexivity.
    + left. reflexivity.
    + vm_compute in Hlng. discriminate.
Qed.

(** ** Shortest-Path Engine: the trivial and the empty results *)

(** C2. With the start equal to the end, [find_shortest_path] returns the
    empty path at once: the answer does not depend on the store and needs no
    turn of the search loop (it is there with no fuel at all). The empty path
    has no leg and no transfer. *)
Theorem find_shortest_path_same_stop (fuel : nat) (st : Store) (a : Z) :
  find_shortest_path fuel st a a = Some (Ok [])
  /\ find_shortest_path 0 st a a = Some (Ok [])
  /\ path_transfers [] = 0%nat.
Proof.
  unfold find_shortest_path. rewrite Z.eqb_refl. auto.
Qed.

Lemma direct_bus_lines_nil st X Y :
  common_bus_lines st X Y = [] -> direct_bus_lines st X Y = [].
Proof. unfold direct_bus_lines. now intros ->. Qed.

(** ** Shortest-Path Engine: a path with one transfer too many *)

(** C1 fails on the store where lines 10 and 20 both run from P1 to P2, only
    line 20 goes on to P3, and line 30 runs from P3 to P4. From P1 to P4
    [find_shortest_path] returns P1-P2 on line 10, P2-P3 on line 20 and P3-P4
    on line 30, two transfers, while the graph holds the walk P1-P2-P3 on line
    20 followed by P3-P4 on line 30, with one: P2 is first reached on line 10
    at cost 0, and the equally cheap arrival on line 20 is dropped by the
    strict comparison with [distances]. No line serves both P1 and P4, so
    [search_route] reports the two transfers. *)
Lemma find_shortest_path_not_fewest_transfers :
  find_shortest_path 10 shared_stretch_store 1 4
  = Some (Ok [mkLeg 1 2 1 (Some 10); mkLeg 2 3 2 (Some 20); mkLeg 3 4 3 (Some 30)])
  /\ path_transfers [mkLeg 1 2 1 (Some 10); mkLeg 2 3 2 (Some 20); mkLeg 3 4 3 (Some 30)]
     = 2%nat
  /\ is_walk (build_graph shared_stretch_store) 1
       [mkEdge 2 2 20; mkEdge 3 2 20; mkEdge 4 3 30] 4
  /\ walk_transfers [mkEdge 2 2 20; mkEdge 3 2 20; mkEdge 4 3 30] = 1%nat
  /\ direct_bus_lines shared_stretch_store P1 P4 = []
  /\ (exists details distance time,
        search_route_bus_stop 10 osrm_down shared_stretch_store (py "P1") (py "P4")
        = Some (mkSearchPage [Transfer details distance time 2] None))
  /\ ~ (forall fuel st a b path hops,
          find_shortest_path fuel st a b = Some (Ok path) ->
          is_walk (build_graph st) a hops b ->
          (path_transfers path <= walk_transfers hops)%nat).
Proof.
  assert (is_walk (build_graph shared_stretch_store) 1
            [mkEdge 2 2 20; mkEdge 3 2 20; mkEdge 4 3 30] 4) as Hwalk.
  { simpl. split; [|split; [|split; [|reflexivity]]].
    - replace (build_graph shared_stretch_store !! 1)
        with (Some [mkEdge 2 1 10; mkEdge 2 2 20]) by reflexivity.
      simpl. set_solver.
    - replace (build_graph shared_stretch_store !! 2)
        with (Some [mkEdge 1 1 10; mkEdge 1 2 20; mkEdge 3 2 20]) by reflexivity.
      simpl. set_solver.
    - replace (build_graph shared_stretch_store !! 3)
        with (Some [mkEdge 2 2 20; mkEdge 4 3 30]) by reflexivity.
      simpl. set_solver. }
  split; [reflexivity|]. split; [reflexivity|]. split; [exact Hwalk|].
  split; [reflexivity|]. split; [reflexivity|]. split.
  - vm_compute. eexists _, _, _. reflexivity.
  - intros H.
    specialize (H 10%nat shared_stretch_store 1 4
                  [mkLeg 1 2 1 (Some 10); mkLeg 2 3 2 (Some 20); mkLeg 3 4 3 (Some 30)]
                  [mkEdge 2 2 20; mkEdge 3 2 20; mkEdge 4 3 30] eq_refl Hwalk).
    vm_compute in H. lia.
Qed.

(** ** Shortest-Path Engine: reconstruction *)

Lemma rev_extend_path path prev_stop_id current_stop_id prev_line_id bus_line_number :
  rev (extend_path path prev_stop_id current_stop_id prev_line_id bus_line_number)
  = match rev path with
    | l :: t =>
        if negb (leg_line_id l =? prev_line_id)
        then mkLeg prev_stop_id current_stop_id prev_line_id bus_line_number :: l :: t
        else mkLeg prev_stop_id (leg_end_stop_id l) (leg_line_id l) (leg_line_number l) :: t
    | [] => [mkLeg prev_stop_id current_stop_id prev_line_id bus_line_number]
    end.
Proof.
  unfold extend_path. pose proof (rev_involutive path) as E.
  remember (rev path) as q eqn:Hq. rewrite <- E. clear.
  rewrite last_rev_head. destruct q as [|l t]; simpl; [reflexivity|].
  destruct (negb _).
  - rewrite rev_app_distr, rev_app_distr, rev_involutive. reflexivity.
  - rewrite removelast_last, rev_app_distr, rev_involutive. reflexivity.
Qed.

(** One turn of the reconstruction keeps the legs built so far, read from
    the current stop to the end stop, chained and free of repeated lines. *)
Lemma extend_path_inv path prev_stop_id current_stop_id prev_line_id bus_line_number end_stop_id :
  no_adjacent_same_line (rev path) ->
  chained current_stop_id (rev path) end_stop_id ->
  no_adjacent_same_line
    (rev (extend_path path prev_stop_id current_stop_id prev_line_id bus_line_number))
  /\ chained prev_stop_id
       (rev (extend_path path prev_stop_id current_stop_id prev_line_id bus_line_number))
       end_stop_id.
Proof.
  rewrite rev_extend_path. destruct (rev path) as [|l t]; simpl.
  - intros _ ->. auto.
  - intros Hn [Hs Hc]. destruct (Z.eqb_spec (leg_line_id l) prev_line_id) as [E|E]; simpl.
    + split; [|auto]. destruct t; [exact I|]. exact Hn.
    + repeat split; auto.
Qed.

Lemma reconstruct_sound st preds start_stop_id end_stop_id :
  forall fuel current_stop_id path res,
    reconstruct fuel st preds start_stop_id current_stop_id path = Some (Ok res) ->
    no_adjacent_same_line (rev path) ->
    chained current_stop_id (rev path) end_stop_id ->
    no_adjacent_same_line res /\ (res <> [] -> chained start_stop_id res end_stop_id).
Proof.
  induction fuel as [|fuel IH]; intros cur path res H Hn Hc; simpl in H; [discriminate|].
  destruct (Z.eqb_spec cur start_stop_id) as [->|Hne]; simpl in H.
  - inversion H; subst. auto.
  - destruct (preds !! cur) as [[[prev line]|]|]; try discriminate.
    + destruct (extend_path_inv path prev cur line (line_number <$> line_by_id st line)
                  end_stop_id Hn Hc) as [Hn' Hc'].
      exact (IH _ _ _ H Hn' Hc').
    + inversion H; subst. split; [exact I|congruence].
Qed.

(** ** Shortest-Path Engine: the search loop ends *)

Lemma heappop_spec q m r :
  heappop q = Some (m, r) ->
  length q = S (length r)
  /\ (forall e, In e q <-> e = m \/ In e r)
  /\ (forall e, In e r -> (entry_cost m <= entry_cost e)%nat).
Proof.
  revert m r. induction q as [|x q IH]; intros m r H; simpl in H; [discriminate|].
  destruct (heappop q) as [[m' r']|] eqn:E.
  - destruct (IH _ _ eq_refl) as (Hl & Hm & Hc).
    destruct (entry_le x m') eqn:Hle; inversion H; subst; clear H.
    + split; [reflexivity|]. split; [simpl; intuition congruence|].
      intros e He. apply Hm in He.
      assert (entry_cost m <= entry_cost m')%nat as Hmm.
      { destruct m as [[c1 s1] l1], m' as [[c2 s2] l2]. unfold entry_cost. simpl in *.
        destruct (Nat.ltb_spec c1 c2); [lia|].
        destruct (Nat.ltb_spec c2 c1); [discriminate|lia]. }
      destruct He as [->|He]; [assumption|]. specialize (Hc e He). lia.
    + split; [simpl; lia|]. split.
      * intros e. simpl. rewrite Hm. intuition congruence.
      * intros e [<-|He]; [|now apply Hc].
        destruct x as [[c1 s1] l1], m as [[c2 s2] l2]. unfold entry_cost. simpl in *.
        destruct (Nat.ltb_spec c1 c2); [discriminate|lia].
  - destruct q; [|simpl in E; destruct (heappop q) as [[? ?]|]; [destruct (entry_le _ _)|];
                  discriminate].
    inversion H; subst. split; [reflexivity|]. split; [simpl; intuition|]. intros y [].
Qed.

Lemma heappop_perm q m r :
  heappop q = Some (m, r) -> Permutation q (m :: r).
Proof.
  revert m r. induction q as [|x q IH]; intros m r H; simpl in H; [discriminate|].
  destruct (heappop q) as [[m' r']|] eqn:E.
  - specialize (IH _ _ eq_refl).
    destruct (entry_le x m'); inversion H; subst; clear H; [reflexivity|].
    rewrite IH. apply perm_swap.
  - destruct q; [|simpl in E; destruct (heappop q) as [[? ?]|]; [destruct (entry_le _ _)|];
                  discriminate].
    inversion H; subst. reflexivity.
Qed.

Lemma heappop_distinct q m r :
  heappop q = Some (m, r) ->
  NoDup (List.map entry_key q) -> NoDup (List.map entry_key r).
Proof.
  intros H Hn. apply heappop_perm in H.
  apply (Permutation_map entry_key) in H. rewrite H in Hn.
  simpl in Hn. now apply NoDup_cons_1_2 in Hn.
Qed.

Lemma heappop_none q : heappop q = None -> q = [].
Proof.
  destruct q as [|x q]; [reflexivity|]. simpl.
  destruct (heappop q) as [[? ?]|]; [destruct (entry_le _ _)|]; discriminate.
Qed.

Lemma weight_insert (f : distance -> nat) (d : gmap Z distance) k old new :
  d !! k = Some old ->
  (weight f (<[k := new]> d) + f old = weight f d + f new)%nat.
Proof.
  intros H. unfold weight.
  rewrite (map_fold_delete_L _ _ k old d); [|intros; lia|assumption].
  rewrite <- (insert_delete_eq d k new).
  rewrite map_fold_insert_L; [lia|intros; lia|apply lookup_delete_eq].
Qed.

(** A relaxation leaves the state alone, or pushes one entry and lowers a
    distance: from infinite to finite, or to a smaller number. *)
Lemma relax_measure cost current_stop_id current_line_id s neighbor s' :
  relax cost current_stop_id current_line_id s neighbor = Ok s' ->
  s' = s
  \/ (length (priority_queue s') = S (length (priority_queue s))
      /\ ((weight is_infinite (distances s') < weight is_infinite (distances s))%nat
          \/ (weight is_infinite (distances s') = weight is_infinite (distances s)
              /\ (weight finite_value (distances s') < weight finite_value (distances s))%nat))).
Proof.
  unfold relax. destruct (distances s !! nb_stop_id neighbor) as [d|] eqn:E; [|discriminate].
  destruct (cost_lt _ d) eqn:Hlt; intros [= <-]; [right|now left].
  split; [reflexivity|]. simpl.
  pose proof (weight_insert is_infinite _ _ _
                (Finite (cost + match current_line_id with
                                | Some l => if l =? nb_line_id neighbor then 0 else 1
                                | None => 0
                                end)) E) as Hi.
  pose proof (weight_insert finite_value _ _ _
                (Finite (cost + match current_line_id with
                                | Some l => if l =? nb_line_id neighbor then 0 else 1
                                | None => 0
                                end)) E) as Hf.
  destruct d as [n|]; simpl in *.
  - right. apply Nat.ltb_lt in Hlt. lia.
  - left. lia.
Qed.

Lemma relax_all_measure cost current_stop_id current_line_id neighbors :
  forall s s',
    relax_all cost current_stop_id current_line_id neighbors s = Ok s' ->
    (weight is_infinite (distances s') = weight is_infinite (distances s)
     /\ weight finite_value (distances s') = weight finite_value (distances s)
     /\ length (priority_queue s') = length (priority_queue s))
    \/ (weight is_infinite (distances s') < weight is_infinite (distances s))%nat
    \/ (weight is_infinite (distances s') = weight is_infinite (distances s)
        /\ (weight finite_value (distances s') < weight finite_value (distances s))%nat).
Proof.
  induction neighbors as [|nb rest IH]; intros s s' H; simpl in H.
  - inversion H. auto.
  - destruct (relax cost current_stop_id current_line_id s nb) as [s1|] eqn:E;
      simpl in H; [|discriminate].
    apply relax_measure in E. specialize (IH _ _ H).
    destruct E as [->|(_ & E)]; [assumption|]. right. lia.
Qed.

Lemma lex3_ind (P : nat -> nat -> nat -> Prop) :
  (forall a b c,
      (forall a' b' c',
          (a' < a \/ (a' = a /\ (b' < b \/ (b' = b /\ c' < c))))%nat -> P a' b' c') ->
      P a b c) ->
  forall a b c, P a b c.
Proof.
  intros H a. induction a as [a IHa] using lt_wf_ind.
  intros b. induction b as [b IHb] using lt_wf_ind.
  intros c. induction c as [c IHc] using lt_wf_ind.
  apply H. intros a' b' c' [Ha|[-> [Hb|[-> Hc]]]].
  - now apply IHa.
  - now apply IHb.
  - now apply IHc.
Qed.

(** A goal about every larger amount of fuel: no such amount is zero, and the
    loop takes one turn. *)
Ltac spend_fuel :=
  let f := fresh "f" in
  let Hf := fresh "Hf" in
  intros [|f] Hf; [lia|]; simpl.

(** The search loop ends from every state: some amount of fuel gives a
    result, and more fuel gives the same. *)
Lemma search_terminates graph end_stop_id s :
  exists fuel r, forall fuel', (fuel <= fuel')%nat ->
    search fuel' graph end_stop_id s = Some r.
Proof.
  remember (weight is_infinite (distances s)) as a eqn:Ea.
  remember (weight finite_value (distances s)) as b eqn:Eb.
  remember (length (priority_queue s)) as c eqn:Ec.
  revert s Ea Eb Ec. induction a, b, c as [a b c IH] using lex3_ind. intros s -> -> ->.
  destruct (heappop (priority_queue s)) as [[[[cost u] line] q']|] eqn:Hp.
  2:{ exists 1%nat, (Ok (false, s)). spend_fuel. now rewrite Hp. }
  apply heappop_spec in Hp as Hq. destruct Hq as (Hlen & _ & _).
  destruct (distances s !! u) as [d|] eqn:Hd.
  2:{ exists 1%nat, (Raise KeyError). spend_fuel. now rewrite Hp, Hd. }
  destruct (cost_gt cost d) eqn:Hgt.
  { destruct (IH (weight is_infinite (distances s)) (weight finite_value (distances s))
                 (length q'))
        with (s := mkSearchState (distances s) (predecessors s) q') as (n & r & Hn);
      try reflexivity.
    { right. split; [reflexivity|]. right. split; [reflexivity|]. lia. }
    exists (S n), r. spend_fuel. rewrite Hp, Hd, Hgt. apply Hn. lia. }
  destruct (Z.eqb_spec u end_stop_id) as [Hu|Hu].
  { exists 1%nat, (Ok (true, mkSearchState (distances s) (predecessors s) q')).
    spend_fuel. rewrite Hp, Hd, Hgt.
    destruct (Z.eqb_spec u end_stop_id); [reflexivity|contradiction]. }
  destruct (relax_all cost u line (default [] (graph !! u))
              (mkSearchState (distances s) (predecessors s) q')) as [s2|e] eqn:Hr.
  2:{ exists 1%nat, (Raise e). spend_fuel. rewrite Hp, Hd, Hgt.
      destruct (Z.eqb_spec u end_stop_id); [contradiction|]. now rewrite Hr. }
  apply relax_all_measure in Hr as Hm. simpl in Hm.
  destruct (IH (weight is_infinite (distances s2)) (weight finite_value (distances s2))
               (length (priority_queue s2))) with (s := s2) as (n & r & Hn);
    try reflexivity.
  { destruct Hm as [(-> & -> & ->)|[?|[-> ?]]]; [|auto|auto].
    right. split; [reflexivity|]. right. split; [reflexivity|]. lia. }
  exists (S n), r. spend_fuel. rewrite Hp, Hd, Hgt.
  destruct (Z.eqb_spec u end_stop_id); [contradiction|]. rewrite Hr. apply Hn. lia.
Qed.

(** ** Shortest-Path Engine: the predecessors lead back to the start *)

Lemma relax_keeps_inv c rank n u ru line s neighbor s' :
  relax_inv c rank n s ->
  rank !! u = Some ru ->
  relax c u line s neighbor = Ok s' ->
  relax_inv c rank n s'.
Proof.
  intros Hinv Hu. unfold relax.
  destruct (distances s !! nb_stop_id neighbor) as [d|] eqn:Hd; [|discriminate].
  set (new_cost := (c + match line with
                        | Some l => if (l =? nb_line_id neighbor)%Z then 0 else 1
                        | None => 0
                        end)%nat).
  destruct (cost_lt new_cost d) eqn:Hlt; intros [= <-]; [|assumption].
  assert (c <= new_cost)%nat as Hc by (unfold new_cost; lia).
  assert (rank !! nb_stop_id neighbor = None) as Hv.
  { destruct (rank !! nb_stop_id neighbor) as [rv|] eqn:E; [|reflexivity].
    destruct (rinv_done _ _ _ _ Hinv _ _ E) as (dv & Hdv & Hle).
    rewrite Hd in Hdv. inversion Hdv; subst d. simpl in Hlt.
    apply Nat.ltb_lt in Hlt. lia. }
  destruct Hinv as [Hpred Hbound Hqueue Hfloor Hdone Hdist]. constructor; simpl.
  6:{ apply NoDup_cons_2; [|assumption]. intros Hin.
      apply list_elem_of_In, in_map_iff in Hin as (e & Hk & He).
      destruct (Hqueue e He) as (d0 & Hd0 & Hle).
      assert (entry_cost e = new_cost) as Hk1 by exact (f_equal fst Hk).
      assert (entry_stop e = nb_stop_id neighbor) as Hk2 by exact (f_equal snd Hk).
      rewrite Hk2 in Hd0. rewrite Hd in Hd0. inversion Hd0; subst d.
      simpl in Hlt. apply Nat.ltb_lt in Hlt. lia. }
  - intros v x l Hx. destruct (decide (v = nb_stop_id neighbor)) as [->|Hne].
    + rewrite lookup_insert_eq in Hx. inversion Hx; subst x l.
      exists ru. split; [assumption|]. intros rv Hrv. congruence.
    + rewrite lookup_insert_ne in Hx by congruence. eauto.
  - assumption.
  - unfold heappush. intros e [<-|He]; simpl.
    + exists new_cost. rewrite lookup_insert_eq. auto.
    + destruct (Hqueue e He) as (d0 & Hd0 & Hle).
      destruct (decide (entry_stop e = nb_stop_id neighbor)) as [E|Hne].
      * rewrite E in *. rewrite Hd in Hd0. inversion Hd0; subst d.
        simpl in Hlt. apply Nat.ltb_lt in Hlt.
        exists new_cost. rewrite lookup_insert_eq. split; [reflexivity|lia].
      * exists d0. rewrite lookup_insert_ne by congruence. auto.
  - unfold heappush. intros e [<-|He]; [exact Hc|auto].
  - intros v rv Hrv. destruct (Hdone v rv Hrv) as (dv & Hdv & Hle).
    exists dv. rewrite lookup_insert_ne by congruence. auto.
Qed.

Lemma relax_all_keeps_inv c rank n u ru line neighbors :
  rank !! u = Some ru ->
  forall s s',
    relax_inv c rank n s ->
    relax_all c u line neighbors s = Ok s' ->
    relax_inv c rank n s'.
Proof.
  intros Hu. induction neighbors as [|nb rest IH]; intros s s' Hinv H; simpl in H.
  - inversion H; subst. assumption.
  - destruct (relax c u line s nb) as [s1|] eqn:E; simpl in H; [|discriminate].
    eapply IH; [|exact H]. eapply relax_keeps_inv; eauto.
Qed.

Lemma search_inv_skip rank n s e q' :
  search_inv rank n s ->
  heappop (priority_queue s) = Some (e, q') ->
  search_inv rank n (mkSearchState (distances s) (predecessors s) q').
Proof.
  intros [Hpred Hbound Hqueue Hdone Hdist] Hp.
  pose proof (heappop_distinct _ _ _ Hp Hdist) as Hdist'.
  apply heappop_spec in Hp as (_ & Hin & _).
  constructor; simpl; auto.
  - intros x Hx. apply Hqueue, Hin. now right.
  - intros v rv Hrv. destruct (Hdone v rv Hrv) as (d & Hd & Hle).
    exists d. split; [assumption|]. intros x Hx. apply Hle, Hin. now right.
Qed.

(** Expanding the popped stop: it takes the next rank unless it has one. *)
Lemma search_inv_expand rank n s c u line q' d :
  search_inv rank n s ->
  heappop (priority_queue s) = Some ((c, u, line), q') ->
  distances s !! u = Some d ->
  cost_gt c d = false ->
  exists rank' ru,
    rank' !! u = Some ru
    /\ relax_inv c rank' (S n) (mkSearchState (distances s) (predecessors s) q').
Proof.
  intros [Hpred Hbound Hqueue Hdone Hdist] Hp Hd Hgt.
  pose proof (heappop_distinct _ _ _ Hp Hdist) as Hdist'.
  apply heappop_spec in Hp as (_ & Hin & Hmin).
  assert (In (c, u, line) (priority_queue s)) as Hpopped by (apply Hin; now left).
  destruct (Hqueue _ Hpopped) as (du & Hdu & Hle). unfold entry_stop, entry_cost in *.
  simpl in Hdu, Hle. rewrite Hd in Hdu. inversion Hdu; subst d. clear Hdu.
  destruct (rank !! u) as [ru|] eqn:Hu.
  - exists rank, ru. split; [assumption|]. constructor; simpl.
    + assumption.
    + intros v rv Hrv. specialize (Hbound v rv Hrv). lia.
    + intros x Hx. apply Hqueue, Hin. now right.
    + intros x Hx. apply (Hmin x Hx).
    + intros v rv Hrv. destruct (Hdone v rv Hrv) as (dv & Hdv & Hall).
      exists dv. split; [assumption|]. apply (Hall _ Hpopped).
    + assumption.
  - exists (<[u := n]> rank), n. split; [apply lookup_insert_eq|]. constructor; simpl.
    + intros v x l Hx. destruct (Hpred v x l Hx) as (rx & Hrx & Hlt).
      exists rx. split.
      * rewrite lookup_insert_ne by congruence. assumption.
      * intros rv Hrv. destruct (decide (v = u)) as [->|Hne].
        -- rewrite lookup_insert_eq in Hrv. inversion Hrv; subst rv.
           exact (Hbound x rx Hrx).
        -- rewrite lookup_insert_ne in Hrv by congruence. auto.
    + intros v rv Hrv. destruct (decide (v = u)) as [->|Hne].
      * rewrite lookup_insert_eq in Hrv. inversion Hrv. lia.
      * rewrite lookup_insert_ne in Hrv by congruence. specialize (Hbound v rv Hrv). lia.
    + intros x Hx. apply Hqueue, Hin. now right.
    + intros x Hx. apply (Hmin x Hx).
    + intros v rv Hrv. destruct (decide (v = u)) as [->|Hne].
      * exists du. auto.
      * rewrite lookup_insert_ne in Hrv by congruence.
        destruct (Hdone v rv Hrv) as (dv & Hdv & Hall).
        exists dv. split; [assumption|]. apply (Hall _ Hpopped).
    + assumption.
Qed.

Lemma relax_inv_search_inv c rank n s :
  relax_inv c rank n s -> search_inv rank n s.
Proof.
  intros [Hpred Hbound Hqueue Hfloor Hdone Hdist]. constructor; auto.
  intros v rv Hrv. destruct (Hdone v rv Hrv) as (d & Hd & Hle).
  exists d. split; [assumption|]. intros e He. specialize (Hfloor e He). lia.
Qed.

Lemma search_found_inv graph end_stop_id :
  forall fuel rank n s s',
    search_inv rank n s ->
    search fuel graph end_stop_id s = Some (Ok (true, s')) ->
    exists rank' n', search_inv rank' n' s'.
Proof.
  induction fuel as [|fuel IH]; intros rank n s s' Hinv H; simpl in H; [discriminate|].
  destruct (heappop (priority_queue s)) as [[[[c u] line] q']|] eqn:Hp; [|discriminate].
  destruct (distances s !! u) as [d|] eqn:Hd; [|discriminate].
  destruct (cost_gt c d) eqn:Hgt.
  - eapply IH; [|exact H]. eapply search_inv_skip; eauto.
  - destruct (u =? end_stop_id).
    + inversion H; subst s'. exists rank, n. eapply search_inv_skip; eauto.
    + destruct (relax_all c u line (default [] (graph !! u)) _) as [s2|] eqn:Hr;
        [|discriminate].
      destruct (search_inv_expand _ _ _ _ _ _ _ _ Hinv Hp Hd Hgt) as (rank' & ru & Hu & Hrel).
      eapply IH; [|exact H].
      eapply relax_inv_search_inv, relax_all_keeps_inv; eauto.
Qed.

Lemma initial_state_inv st start_stop_id :
  search_inv ∅ 0 (initial_state st start_stop_id).
Proof.
  constructor; simpl.
  - intros v u l H. apply elem_of_list_to_map_2 in H.
    apply list_elem_of_In, in_map_iff in H as (stop & E & _). discriminate.
  - intros v rv H. rewrite lookup_empty in H. discriminate.
  - intros e [<-|[]]. exists 0%nat. unfold entry_stop, entry_cost. simpl.
    rewrite lookup_insert_eq. auto.
  - intros v rv H. rewrite lookup_empty in H. discriminate.
  - apply NoDup_singleton.
Qed.

Lemma reconstruct_mono st preds start_stop_id :
  forall fuel fuel' current_stop_id path r,
    reconstruct fuel st preds start_stop_id current_stop_id path = Some r ->
    (fuel <= fuel')%nat ->
    reconstruct fuel' st preds start_stop_id current_stop_id path = Some r.
Proof.
  induction fuel as [|fuel IH]; intros fuel' cur path r H Hle; simpl in H; [discriminate|].
  destruct fuel' as [|fuel']; [lia|]. simpl.
  destruct (negb (cur =? start_stop_id)); [|assumption].
  destruct (preds !! cur) as [[[prev line]|]|]; try assumption.
  apply IH; [assumption|lia].
Qed.

(** From an expanded stop the walk along the predecessors ends within as
    many turns as the stop's rank, plus one. *)
Lemma reconstruct_ranked st rank n s start_stop_id :
  search_inv rank n s ->
  forall fuel current_stop_id path r,
    rank !! current_stop_id = Some r -> (r < fuel)%nat ->
    exists res,
      reconstruct fuel st (predecessors s) start_stop_id current_stop_id path = Some res.
Proof.
  intros Hinv. induction fuel as [|fuel IH]; intros cur path r Hr Hlt; [lia|]. simpl.
  destruct (negb (cur =? start_stop_id)); [|eauto].
  destruct (predecessors s !! cur) as [[[prev line]|]|] eqn:Hp; eauto.
  destruct (inv_pred _ _ _ Hinv _ _ _ Hp) as (ru & Hru & Hlt').
  specialize (Hlt' r Hr). apply (IH _ _ ru Hru). lia.
Qed.

Lemma reconstruct_terminates st rank n s start_stop_id current_stop_id path :
  search_inv rank n s ->
  exists res,
    reconstruct (n + 2) st (predecessors s) start_stop_id current_stop_id path = Some res.
Proof.
  intros Hinv. replace (n + 2)%nat with (S (S n)) by lia.
  change (reconstruct (S (S n)) st (predecessors s) start_stop_id current_stop_id path)
    with (if negb (current_stop_id =? start_stop_id)
          then match predecessors s !! current_stop_id with
               | None => Some (Ok [])
               | Some None => Some (Raise TypeError)
               | Some (Some (prev_stop_id, prev_line_id)) =>
                   reconstruct (S n) st (predecessors s) start_stop_id prev_stop_id
                     (extend_path path prev_stop_id current_stop_id prev_line_id
                        (line_number <$> line_by_id st prev_line_id))
               end
          else Some (Ok (rev path))).
  destruct (negb _); [|eauto].
  destruct (predecessors s !! current_stop_id) as [[[prev line]|]|] eqn:Hp; eauto.
  destruct (inv_pred _ _ _ Hinv _ _ _ Hp) as (ru & Hru & _).
  apply (reconstruct_ranked st rank n s start_stop_id Hinv _ _ _ ru Hru).
  pose proof (inv_bound _ _ _ Hinv _ _ Hru). lia.
Qed.

(** [find_shortest_path] ends on every input: some amount of fuel gives a
    result, and more fuel gives the same. *)
Lemma find_shortest_path_terminates st start_stop_id end_stop_id :
  exists fuel r, forall fuel', (fuel <= fuel')%nat ->
    find_shortest_path fuel' st start_stop_id end_stop_id = Some r.
Proof.
  unfold find_shortest_path. destruct (start_stop_id =? end_stop_id).
  { exists 0%nat, (Ok []). reflexivity. }
  destruct (search_terminates (build_graph st) end_stop_id (initial_state st start_stop_id))
    as (n1 & r1 & H1).
  destruct r1 as [[[|] s]|e].
  - destruct (search_found_inv _ _ n1 ∅ 0%nat _ s (initial_state_inv st start_stop_id)
                (H1 n1 (Nat.le_refl _))) as (rank & n & Hinv).
    destruct (reconstruct_terminates st rank n s start_stop_id end_stop_id [] Hinv)
      as (res & Hres).
    exists (Nat.max n1 (n + 2)), res. intros fuel' Hf.
    rewrite H1 by lia. simpl. eapply reconstruct_mono; [exact Hres|lia].
  - exists n1, (Ok []). intros fuel' Hf. now rewrite H1.
  - exists n1, (Raise e). intros fuel' Hf. now rewrite H1.
Qed.

(** C3. [find_shortest_path] ends on every input, and a path it returns has
    no two consecutive legs on the same line; when not empty, it leads from
    the start stop to the end stop, each leg starting where the previous one
    ended. *)
Theorem find_shortest_path_merged_legs (st : Store) (start_stop_id end_stop_id : Z) :
  (exists fuel r, forall fuel', (fuel <= fuel')%nat ->
     find_shortest_path fuel' st start_stop_id end_stop_id = Some r)
  /\ (forall fuel path,
        find_shortest_path fuel st start_stop_id end_stop_id = Some (Ok path) ->
        no_adjacent_same_line path
        /\ (path <> [] -> chained start_stop_id path end_stop_id)).
Proof.
  split; [apply find_shortest_path_terminates|].
  intros fuel path. unfold find_shortest_path.
  destruct (start_stop_id =? end_stop_id).
  { intros [= <-]. split; [exact I|congruence]. }
  destruct (search fuel _ _ _) as [[[[|] s]|e]|]; try discriminate; simpl.
  - intros H. eapply reconstruct_sound; [exact H|exact I|reflexivity].
  - intros [= <-]. split; [exact I|congruence].
Qed.

Lemma find_shortest_path_merged_legs_witness :
  find_shortest_path 10 scenario_store 1 4
  = Some (Ok [mkLeg 1 3 1 (Some 10); mkLeg 3 4 2 (Some 20)])
  /\ no_adjacent_same_line [mkLeg 1 3 1 (Some 10); mkLeg 3 4 2 (Some 20)]
  /\ chained 1 [mkLeg 1 3 1 (Some 10); mkLeg 3 4 2 (Some 20)] 4.
Proof.
  split; [reflexivity|].
  destruct (find_shortest_path_merged_legs scenario_store 1 4) as [_ H].
  destruct (H 10%nat [mkLeg 1 3 1 (Some 10); mkLeg 3 4 2 (Some 20)] eq_refl) as [Hn Hc].
  split; [exact Hn|]. apply Hc. discriminate.
Defined.

(** ** Shortest-Path Engine: no exception on a store with referential integrity *)

Lemma graph_append_ok st k e graph :
  graph_ok st graph -> edge_ok st e -> graph_ok st (graph_append k e graph).
Proof.
  intros Hg He k' l e' Hl Hin. unfold graph_append in Hl.
  destruct (decide (k' = k)) as [->|Hne].
  - rewrite lookup_insert_eq in Hl. inversion Hl; subst l.
    apply in_app_or in Hin as [Hin|[<-|[]]]; [|assumption].
    destruct (graph !! k) as [l0|] eqn:E; simpl in Hin; [|contradiction].
    exact (Hg k l0 e' E Hin).
  - rewrite lookup_insert_ne in Hl by congruence. exact (Hg k' l e' Hl Hin).
Qed.

Lemma connect_line_ok st bus_line_id :
  forall segments graph,
    (forall s, In s segments -> In s (all_route_segments st)) ->
    graph_ok st graph ->
    graph_ok st (connect_line bus_line_id segments graph).
Proof.
  induction segments as [|a rest IH]; intros graph Hs Hg; [assumption|].
  destruct rest as [|b rest]; [assumption|].
  change (graph_ok st
            (connect_line bus_line_id (b :: rest)
               (graph_append (stop_id (bus_stop b))
                  (mkEdge (stop_id (bus_stop a)) bus_line_id (line_number (bus_line a)))
                  (graph_append (stop_id (bus_stop a))
                     (mkEdge (stop_id (bus_stop b)) bus_line_id (line_number (bus_line a)))
                     graph)))).
  apply IH; [intros s H; apply Hs; now right|].
  apply graph_append_ok; [apply graph_append_ok; [assumption|]|].
  - exists b. split; [apply Hs; right; now left|reflexivity].
  - exists a. split; [apply Hs; now left|reflexivity].
Qed.

Lemma group_append_members (P : RouteSegment -> Prop) k0 seg :
  forall groups,
    (forall k l s, In (k, l) groups -> In s l -> P s) ->
    P seg ->
    forall k l s, In (k, l) (group_append k0 seg groups) -> In s l -> P s.
Proof.
  induction groups as [|[k' l'] groups IH]; intros Hg Hseg k l s Hin Hs; simpl in Hin.
  - destruct Hin as [[= <- <-]|[]]. destruct Hs as [<-|[]]. assumption.
  - destruct (k0 =? k').
    + destruct Hin as [[= <- <-]|Hin].
      * apply in_app_or in Hs as [Hs|[<-|[]]]; [|assumption].
        apply (Hg k' l' s); [now left|assumption].
      * apply (Hg k l s); [now right|assumption].
    + destruct Hin as [[= <- <-]|Hin].
      * apply (Hg k' l' s); [now left|assumption].
      * apply (IH (fun k l s H => Hg k l s (or_intror H)) Hseg k l s Hin Hs).
Qed.

Lemma segments_by_line_members segs k l s :
  In (k, l) (segments_by_line segs) -> In s l -> In s segs.
Proof.
  unfold segments_by_line.
  assert (forall todo groups,
             (forall x, In x todo -> In x segs) ->
             (forall k l s, In (k, l) groups -> In s l -> In s segs) ->
             forall k l s,
               In (k, l) (fold_left (fun groups seg => group_append (bus_line_id seg) seg groups)
                            todo groups) ->
               In s l -> In s segs) as H.
  { induction todo as [|x todo IH]; intros groups Ht Hg; simpl; [exact Hg|].
    apply IH; [intros; apply Ht; now right|].
    apply group_append_members; [exact Hg|apply Ht; now left]. }
  apply (H segs []); [auto|intros ? ? ? []].
Qed.

Lemma build_graph_ok st : graph_ok st (build_graph st).
Proof.
  unfold build_graph.
  assert (forall groups graph,
             (forall k l s, In (k, l) groups -> In s l -> In s (all_route_segments st)) ->
             graph_ok st graph ->
             graph_ok st
               (fold_left (fun graph '(bus_line_id, segments) =>
                             connect_line bus_line_id (order_by by_order segments) graph)
                          groups graph)) as H.
  { induction groups as [|[k l] groups IH]; intros graph Hm Hg; simpl; [assumption|].
    apply IH; [intros k' l' s H; apply (Hm k' l' s); now right|].
    apply connect_line_ok; [|assumption].
    intros s Hs. apply order_by_In in Hs. apply (Hm k l s); [now left|assumption]. }
  apply H; [apply segments_by_line_members|].
  intros k l e Hl. rewrite lookup_empty in Hl. discriminate.
Qed.

Lemma relax_keeps_table st start_stop_id c u line s neighbor :
  table_inv st start_stop_id s ->
  edge_ok st neighbor ->
  exists s', relax c u line s neighbor = Ok s' /\ table_inv st start_stop_id s'.
Proof.
  intros [Hkeys Horigin] (seg & Hseg & Hid). unfold relax.
  destruct (Hkeys seg Hseg) as [d Hd]. rewrite <- Hid in Hd. rewrite Hd.
  destruct (cost_lt _ d); [|exists s; split; [reflexivity|constructor; assumption]].
  eexists. split; [reflexivity|]. constructor; simpl.
  - intros seg' Hseg'. destruct (decide (stop_id (bus_stop seg') = nb_stop_id neighbor)) as [->|Hne].
    + rewrite lookup_insert_eq. eauto.
    + rewrite lookup_insert_ne by congruence. auto.
  - intros v d' Hv. destruct (decide (v = nb_stop_id neighbor)) as [->|Hne].
    + right. exists u, (nb_line_id neighbor). apply lookup_insert_eq.
    + rewrite lookup_insert_ne in Hv by congruence.
      rewrite lookup_insert_ne by congruence. eauto.
Qed.

Lemma relax_all_keeps_table st start_stop_id c u line neighbors :
  (forall e, In e neighbors -> edge_ok st e) ->
  forall s,
    table_inv st start_stop_id s ->
    exists s', relax_all c u line neighbors s = Ok s' /\ table_inv st start_stop_id s'.
Proof.
  induction neighbors as [|nb rest IH]; intros He s Hs; simpl.
  - exists s. auto.
  - destruct (relax_keeps_table st start_stop_id c u line s nb Hs (He nb (or_introl eq_refl)))
      as (s1 & -> & Hs1).
    simpl. apply IH; [intros; apply He; now right|assumption].
Qed.

Lemma initial_state_table st start_stop_id :
  referential_integrity st -> table_inv st start_stop_id (initial_state st start_stop_id).
Proof.
  intros Hri. constructor; simpl.
  - intros seg Hseg. destruct (Hri seg Hseg) as (stop & Hstop & Hid).
    destruct (decide (stop_id (bus_stop seg) = start_stop_id)) as [->|Hne].
    + rewrite lookup_insert_eq. eauto.
    + rewrite lookup_insert_ne by congruence.
      destruct (list_to_map _ !! _) eqn:E; [eauto|].
      apply not_elem_of_list_to_map in E. exfalso. apply E.
      apply list_elem_of_In, in_map_iff. exists (stop_id stop, Infinity). split; [assumption|].
      apply in_map_iff. exists stop. auto.
  - intros v d Hv. destruct (decide (v = start_stop_id)) as [->|Hne]; [now left|].
    rewrite lookup_insert_ne in Hv by congruence.
    apply elem_of_list_to_map_2, list_elem_of_In, in_map_iff in Hv as (stop & E & _).
    discriminate.
Qed.

(** With referential integrity the search raises nothing; when it reaches
    the end stop, that stop has a finite distance. *)
Lemma search_ok st start_stop_id end_stop_id :
  forall fuel rank n s r,
    search_inv rank n s ->
    table_inv st start_stop_id s ->
    search fuel (build_graph st) end_stop_id s = Some r ->
    exists found s',
      r = Ok (found, s')
      /\ table_inv st start_stop_id s'
      /\ (found = true ->
          (exists rank' n', search_inv rank' n' s')
          /\ exists d, distances s' !! end_stop_id = Some (Finite d)).
Proof.
  induction fuel as [|fuel IH]; intros rank n s r Hinv Htab H; simpl in H; [discriminate|].
  destruct (heappop (priority_queue s)) as [[[[c u] line] q']|] eqn:Hp.
  2:{ inversion H; subst r. exists false, s.
      split; [reflexivity|]. split; [assumption|discriminate]. }
  assert (In (c, u, line) (priority_queue s)) as Hpopped.
  { apply heappop_spec in Hp as (_ & Hin & _). apply Hin. now left. }
  destruct (inv_queue _ _ _ Hinv _ Hpopped) as (du & Hdu & _).
  unfold entry_stop in Hdu. simpl in Hdu. rewrite Hdu in H.
  assert (table_inv st start_stop_id (mkSearchState (distances s) (predecessors s) q'))
    as Htab1 by (destruct Htab; constructor; assumption).
  destruct (cost_gt c (Finite du)) eqn:Hgt.
  - eapply IH; [|exact Htab1|exact H]. eapply search_inv_skip; eauto.
  - destruct (Z.eqb_spec u end_stop_id) as [->|Hne].
    + inversion H; subst r. eexists true, _. split; [reflexivity|]. split; [assumption|].
      intros _. split; [|eauto]. exists rank, n. eapply search_inv_skip; eauto.
    + assert (forall e, In e (default [] (build_graph st !! u)) -> edge_ok st e) as Hedges.
      { intros e He. destruct (build_graph st !! u) as [l|] eqn:E; [|destruct He].
        exact (build_graph_ok st u l e E He). }
      destruct (relax_all_keeps_table st start_stop_id c u line
                  (default [] (build_graph st !! u)) Hedges _ Htab1) as (s2 & Hr & Htab2).
      rewrite Hr in H.
      destruct (search_inv_expand _ _ _ _ _ _ _ _ Hinv Hp Hdu Hgt) as (rank' & ru & Hu & Hrel).
      eapply IH; [|exact Htab2|exact H].
      eapply relax_inv_search_inv, relax_all_keeps_inv; eauto.
Qed.

Lemma extend_path_not_nil path prev_stop_id current_stop_id prev_line_id bus_line_number :
  extend_path path prev_stop_id current_stop_id prev_line_id bus_line_number <> [].
Proof.
  unfold extend_path. destruct (last path) as [l|]; [destruct (negb _)|];
    intros H; apply app_eq_nil in H as [_ H]; discriminate.
Qed.

(** From an expanded stop the reconstruction walks back to the start and
    returns the legs it built. *)
Lemma reconstruct_ranked_ok st rank n s start_stop_id :
  search_inv rank n s ->
  table_inv st start_stop_id s ->
  forall fuel current_stop_id path r,
    rank !! current_stop_id = Some r -> (r < fuel)%nat ->
    exists res,
      reconstruct fuel st (predecessors s) start_stop_id current_stop_id path = Some (Ok res)
      /\ (path <> [] -> res <> []).
Proof.
  intros Hinv Htab. induction fuel as [|fuel IH]; intros cur path r Hr Hlt; [lia|]. simpl.
  destruct (Z.eqb_spec cur start_stop_id) as [->|Hne]; simpl.
  - exists (rev path). split; [reflexivity|]. intros Hp E. apply Hp.
    rewrite <- (rev_involutive path), E. reflexivity.
  - destruct (inv_done _ _ _ Hinv _ _ Hr) as (d & Hd & _).
    destruct (tab_origin _ _ _ Htab _ _ Hd) as [?|(u & l & Hp)]; [contradiction|].
    rewrite Hp. destruct (inv_pred _ _ _ Hinv _ _ _ Hp) as (ru & Hru & Hlt').
    specialize (Hlt' r Hr).
    destruct (IH u (extend_path path u cur l (line_number <$> line_by_id st l)) ru Hru
                ltac:(lia)) as (res & Hres & Hne').
    exists res. split; [assumption|]. intros _. apply Hne', extend_path_not_nil.
Qed.

(** On a store with referential integrity [find_shortest_path] returns a
    path and raises nothing; the path is empty only for equal stops or when
    the search did not reach the end stop, so the reconstruction never meets
    a missing predecessor. *)
Lemma find_shortest_path_returns st start_stop_id end_stop_id :
  referential_integrity st ->
  exists fuel path,
    (forall fuel', (fuel <= fuel')%nat ->
       find_shortest_path fuel' st start_stop_id end_stop_id = Some (Ok path))
    /\ (path = [] ->
        start_stop_id = end_stop_id
        \/ exists fuel' s,
             search fuel' (build_graph st) end_stop_id (initial_state st start_stop_id)
             = Some (Ok (false, s))).
Proof.
  intros Hri. unfold find_shortest_path.
  destruct (Z.eqb_spec start_stop_id end_stop_id) as [E|E].
  { exists 0%nat, []. split; [reflexivity|]. now left. }
  destruct (search_terminates (build_graph st) end_stop_id (initial_state st start_stop_id))
    as (n1 & r1 & H1).
  destruct (search_ok st start_stop_id end_stop_id n1 ∅ 0%nat _ r1
              (initial_state_inv st start_stop_id) (initial_state_table st start_stop_id Hri)
              (H1 n1 (Nat.le_refl _))) as (found & s & -> & Htab & Hfound).
  destruct found.
  - destruct (Hfound eq_refl) as ((rank & n & Hinv) & d & Hd).
    destruct (tab_origin _ _ _ Htab _ _ Hd) as [?|(u & l & Hp)]; [congruence|].
    destruct (inv_pred _ _ _ Hinv _ _ _ Hp) as (ru & Hru & _).
    destruct (reconstruct_ranked_ok st rank n s start_stop_id Hinv Htab (S ru) u
                (extend_path [] u end_stop_id l (line_number <$> line_by_id st l)) ru Hru
                ltac:(lia)) as (res & Hres & Hne).
    exists (Nat.max n1 (S (S ru))), res. split.
    + intros fuel' Hf. rewrite H1 by lia. simpl.
      apply (reconstruct_mono st (predecessors s) start_stop_id (S (S ru))); [|lia].
      simpl. destruct (Z.eqb_spec end_stop_id start_stop_id); [congruence|]. simpl.
      rewrite Hp. exact Hres.
    + intros ->. exfalso. apply Hne; [apply extend_path_not_nil|reflexivity].
  - exists n1, []. split.
    + intros fuel' Hf. now rewrite H1.
    + intros _. right. exists n1, s. apply H1. lia.
Qed.

Example find_shortest_path_returns_scenario :
  referential_integrity scenario_store
  /\ find_shortest_path 10 scenario_store 4 1
     = Some (Ok [mkLeg 4 3 2 (Some 20); mkLeg 3 1 1 (Some 10)]).
Proof.
  split; [|reflexivity].
  intros seg Hseg. vm_compute in Hseg.
  repeat (destruct Hseg as [<-|Hseg]; [eexists; split; [|reflexivity]; vm_compute; tauto|]).
  contradiction.
Qed.

(** ** Shortest-Path Engine: the empty result *)

Lemma relax_keeps_origin start_stop_id c u line s neighbor s' :
  origin_inv start_stop_id s ->
  relax c u line s neighbor = Ok s' ->
  origin_inv start_stop_id s'.
Proof.
  intros Ho. unfold relax.
  destruct (distances s !! nb_stop_id neighbor) as [d0|]; [|discriminate].
  destruct (cost_lt _ d0); intros [= <-]; [|assumption].
  intros v d. simpl. destruct (decide (v = nb_stop_id neighbor)) as [->|Hne].
  - intros _. right. exists u, (nb_line_id neighbor). apply lookup_insert_eq.
  - rewrite !lookup_insert_ne by congruence. apply Ho.
Qed.

Lemma relax_all_keeps_origin start_stop_id c u line neighbors :
  forall s s',
    origin_inv start_stop_id s ->
    relax_all c u line neighbors s = Ok s' ->
    origin_inv start_stop_id s'.
Proof.
  induction neighbors as [|nb rest IH]; intros s s' Ho; simpl.
  - now intros [= <-].
  - destruct (relax c u line s nb) as [s1|e] eqn:E; simpl; [|discriminate].
    apply IH. eapply relax_keeps_origin; eauto.
Qed.

Lemma initial_state_origin st start_stop_id :
  origin_inv start_stop_id (initial_state st start_stop_id).
Proof.
  intros v d Hv. simpl in Hv. destruct (decide (v = start_stop_id)) as [->|Hne]; [now left|].
  rewrite lookup_insert_ne in Hv by congruence.
  apply elem_of_list_to_map_2, list_elem_of_In, in_map_iff in Hv as (stop & E & _).
  discriminate.
Qed.

(** On any store and graph: a search that says it found the end stop leaves
    a state in which the end stop has been reached, and every stop reached
    has its predecessor. *)
Lemma search_found_origin graph start_stop_id end_stop_id :
  forall fuel rank n s found s',
    search_inv rank n s ->
    origin_inv start_stop_id s ->
    search fuel graph end_stop_id s = Some (Ok (found, s')) ->
    origin_inv start_stop_id s'
    /\ (found = true ->
        (exists rank' n', search_inv rank' n' s')
        /\ exists d, distances s' !! end_stop_id = Some (Finite d)).
Proof.
  induction fuel as [|fuel IH]; intros rank n s found s' Hinv Ho H; simpl in H;
    [discriminate|].
  destruct (heappop (priority_queue s)) as [[[[c u] line] q']|] eqn:Hp.
  2:{ inversion H; subst. split; [assumption|discriminate]. }
  assert (In (c, u, line) (priority_queue s)) as Hpopped.
  { apply heappop_spec in Hp as (_ & Hin & _). apply Hin. now left. }
  destruct (inv_queue _ _ _ Hinv _ Hpopped) as (du & Hdu & _).
  unfold entry_stop in Hdu. simpl in Hdu. rewrite Hdu in H.
  assert (origin_inv start_stop_id (mkSearchState (distances s) (predecessors s) q'))
    as Ho1 by exact Ho.
  destruct (cost_gt c (Finite du)) eqn:Hgt.
  - eapply IH; [|exact Ho1|exact H]. eapply search_inv_skip; eauto.
  - destruct (Z.eqb_spec u end_stop_id) as [->|Hne].
    + inversion H; subst. split; [assumption|].
      intros _. split; [|eauto]. exists rank, n. eapply search_inv_skip; eauto.
    + destruct (relax_all c u line (default [] (graph !! u))
                  (mkSearchState (distances s) (predecessors s) q')) as [s2|e] eqn:Hr;
        [|discriminate].
      destruct (search_inv_expand _ _ _ _ _ _ _ _ Hinv Hp Hdu Hgt) as (rank' & ru & Hu & Hrel).
      eapply IH; [| |exact H].
      * eapply relax_inv_search_inv, relax_all_keeps_inv; eauto.
      * eapply relax_all_keeps_origin; eauto.
Qed.

(** From a stop that has been reached, the reconstruction meets no stop
    without a predecessor: what it returns holds the legs built so far. *)
Lemma reconstruct_reached st rank n s start_stop_id :
  search_inv rank n s ->
  origin_inv start_stop_id s ->
  forall fuel current_stop_id path r,
    (exists d, distances s !! current_stop_id = Some (Finite d)) ->
    path <> [] ->
    reconstruct fuel st (predecessors s) start_stop_id current_stop_id path = Some r ->
    exists res, r = Ok res /\ res <> [].
Proof.
  intros Hinv Ho. induction fuel as [|fuel IH]; intros cur path r [d Hd] Hne H;
    simpl in H; [discriminate|].
  destruct (Z.eqb_spec cur start_stop_id) as [->|Hcur]; simpl in H.
  - inversion H; subst. exists (rev path). split; [reflexivity|].
    intros E. apply Hne. rewrite <- (rev_involutive path), E. reflexivity.
  - destruct (Ho _ _ Hd) as [?|(u & l & Hp)]; [contradiction|].
    rewrite Hp in H.
    destruct (inv_pred _ _ _ Hinv _ _ _ Hp) as (ru & Hru & _).
    destruct (inv_done _ _ _ Hinv _ _ Hru) as (du & Hdu & _).
    apply (IH u _ r (ex_intro _ du Hdu) (extend_path_not_nil _ _ _ _ _) H).
Qed.

(** A run that found the end stop returns a path with at least one leg, or
    still needs fuel: it returns neither the empty list nor an exception. *)
Lemma find_shortest_path_found st start_stop_id end_stop_id fuel s r :
  start_stop_id <> end_stop_id ->
  search fuel (build_graph st) end_stop_id (initial_state st start_stop_id)
  = Some (Ok (true, s)) ->
  find_shortest_path fuel st start_stop_id end_stop_id = Some r ->
  exists path, r = Ok path /\ path <> [].
Proof.
  intros Hab Hs H. unfold find_shortest_path in H.
  destruct (Z.eqb_spec start_stop_id end_stop_id); [contradiction|].
  rewrite Hs in H. simpl in H.
  destruct (search_found_origin _ start_stop_id _ _ _ _ _ _ _
              (initial_state_inv st start_stop_id) (initial_state_origin st start_stop_id) Hs)
    as [Ho Hfound].
  destruct (Hfound eq_refl) as ((rank & k & Hinv) & d & Hd).
  destruct fuel as [|fuel]; [discriminate|]. simpl in H.
  destruct (Z.eqb_spec end_stop_id start_stop_id); [congruence|]. simpl in H.
  destruct (Ho _ _ Hd) as [?|(u & l & Hp)]; [congruence|].
  rewrite Hp in H.
  destruct (inv_pred _ _ _ Hinv _ _ _ Hp) as (ru & Hru & _).
  destruct (inv_done _ _ _ Hinv _ _ Hru) as (du & Hdu & _).
  exact (reconstruct_reached st rank k s start_stop_id Hinv Ho fuel u _ r
           (ex_intro _ du Hdu) (extend_path_not_nil _ _ _ _ _) H).
Qed.

(** C9, as amended. [find_shortest_path] returns the empty list in two
    situations, and in no other: when the start is the end, and when the
    search loop ends without reaching the end stop. The [bus_stop] search of
    [search_route] takes the empty list for no route: two names that resolve
    to the same stop, on no line, give the no-route message and no result. *)
Theorem find_shortest_path_empty_is_ambiguous :
  (forall fuel st a, find_shortest_path fuel st a a = Some (Ok []))
  /\ (forall fuel st a b s,
        a <> b ->
        search fuel (build_graph st) b (initial_state st a) = Some (Ok (false, s)) ->
        find_shortest_path fuel st a b = Some (Ok []))
  /\ (forall fuel st a b,
        find_shortest_path fuel st a b = Some (Ok []) ->
        a = b
        \/ exists s,
             search fuel (build_graph st) b (initial_state st a) = Some (Ok (false, s)))
  /\ (forall fuel osrm st raw1 raw2 stop,
        raw1 <> [] -> raw2 <> [] ->
        get_bus_stop_object st raw1 = Some stop ->
        get_bus_stop_object st raw2 = Some stop ->
        common_bus_lines st stop stop = [] ->
        search_route_bus_stop fuel osrm st raw1 raw2
        = Some (mkSearchPage [] (Some (NoDirectOrTransferRoute stop stop)))).
Proof.
  split; [|split; [|split]].
  - intros fuel st a. unfold find_shortest_path. now rewrite Z.eqb_refl.
  - intros fuel st a b s Hab Hs. unfold find_shortest_path.
    destruct (Z.eqb_spec a b); [contradiction|]. now rewrite Hs.
  - intros fuel st a b H.
    destruct (Z.eq_dec a b) as [?|Hab]; [now left|]. right.
    pose proof H as H'. unfold find_shortest_path in H'.
    destruct (Z.eqb_spec a b); [contradiction|].
    destruct (search fuel (build_graph st) b (initial_state st a))
      as [[[[|] s]|e]|] eqn:Hs; try discriminate.
    + destruct (find_shortest_path_found st a b fuel s _ Hab Hs H) as (path & E & Hne).
      inversion E; subst path. congruence.
    + eauto.
  - intros fuel osrm st raw1 raw2 stop H1 H2 R1 R2 Hc.
    unfold search_route_bus_stop, search_bus_stop_try.
    destruct raw1; [congruence|]. destruct raw2; [congruence|]. simpl qs_exists. simpl.
    rewrite R1, R2, (direct_bus_lines_nil _ _ _ Hc). simpl.
    unfold find_shortest_path. rewrite Z.eqb_refl. reflexivity.
Qed.

Lemma find_shortest_path_empty_is_ambiguous_witness :
  find_shortest_path 10 depot_store 5 5 = Some (Ok [])
  /\ find_shortest_path 10 depot_store 1 5 = Some (Ok [])
  /\ (exists s,
        search 10 (build_graph depot_store) 5 (initial_state depot_store 1)
        = Some (Ok (false, s)))
  /\ search_route_bus_stop 10 osrm_down depot_store (py "Depot") (py "depot")
     = Some (mkSearchPage [] (Some (NoDirectOrTransferRoute Depot Depot))).
Proof.
  destruct find_shortest_path_empty_is_ambiguous as (H1 & H2 & H3 & H4).
  assert (find_shortest_path 10 depot_store 1 5 = Some (Ok [])) as Hnone.
  { destruct (search 10 (build_graph depot_store) 5 (initial_state depot_store 1))
      as [[[[|] s]|]|] eqn:E; try (vm_compute in E; discriminate).
    apply (H2 10%nat depot_store 1 5 s); [discriminate|exact E]. }
  split; [apply H1|]. split; [exact Hnone|]. split.
  - destruct (H3 10%nat depot_store 1 5 Hnone) as [?|?]; [discriminate|assumption].
  - apply H4; try discriminate; reflexivity.
Defined.

(** The third return of the empty list, for a missing predecessor during the
    reconstruction, is never taken: no run that found the end stop returns
    the empty list. *)
Lemma find_shortest_path_no_missing_predecessor :
  ~ (exists fuel st a b s,
        a <> b
        /\ search fuel (build_graph st) b (initial_state st a) = Some (Ok (true, s))
        /\ find_shortest_path fuel st a b = Some (Ok [])).
Proof.
  intros (fuel & st & a & b & s & Hab & Hs & H).
  destruct (find_shortest_path_found st a b fuel s _ Hab Hs H) as (path & E & Hne).
  inversion E; subst path. congruence.
Qed.

(** * Further properties *)

(** ** Shortest-Path Engine on a store with referential integrity *)

Lemma scenario_store_integrity : referential_integrity scenario_store.
Proof.
  intros seg Hseg. vm_compute in Hseg.
  repeat (destruct Hseg as [<-|Hseg]; [eexists; split; [|reflexivity]; vm_compute; tauto|]).
  contradiction.
Qed.

(** ** Stop Name Resolver: names that resolve *)

Lemma name_road_query_name stop_name road_name s :
  name_road_query stop_name road_name s = true -> name_query stop_name s = true.
Proof.
  unfold name_road_query, name_query.
  rewrite !orb_true_iff, !andb_true_iff. tauto.
Qed.

Lemma no_road_query_name stop_name s :
  no_road_query stop_name s = true -> name_query stop_name s = true.
Proof.
  unfold no_road_query, name_query.
  rewrite !orb_true_iff, !andb_true_iff. tauto.
Qed.

Lemma filter_nil_iff {A} (p : A -> bool) l :
  List.filter p l = [] <-> forall x, In x l -> p x = false.
Proof.
  induction l as [|y l IH]; simpl; [tauto|].
  destruct (p y) eqn:E.
  - split; [discriminate|]. intros H. specialize (H y (or_introl eq_refl)). congruence.
  - rewrite IH. split.
    + intros H x [<-|Hx]; auto.
    + intros H x Hx. apply H. now right.
Qed.

(** The predicate [get_bus_stop_object] ends up filtering with: it implies
    the name match, and it is the name match itself whenever the narrower
    query finds nothing. *)
Lemma get_bus_stop_object_query st raw :
  exists query,
    get_bus_stop_object st raw = first_by_pk (List.filter query (all_stops st))
    /\ (forall s, query s = true -> name_query (fst (parse_stop_name_with_road raw)) s = true)
    /\ (List.filter query (all_stops st) = [] ->
        query = name_query (fst (parse_stop_name_with_road raw))).
Proof.
  unfold get_bus_stop_object.
  destruct (parse_stop_name_with_road raw) as [stop_name road_name]. simpl fst.
  destruct (str_truthy road_name).
  - destruct (List.filter (name_road_query stop_name (default [] road_name)) (all_stops st))
      as [|x l] eqn:E; simpl.
    + exists (name_query stop_name). auto.
    + exists (name_road_query stop_name (default [] road_name)).
      split; [reflexivity|]. split; [apply name_road_query_name|]. rewrite E. discriminate.
  - destruct (List.filter (no_road_query stop_name) (all_stops st)) as [|x l] eqn:E; simpl.
    + exists (name_query stop_name). auto.
    + exists (no_road_query stop_name).
      split; [reflexivity|]. split; [apply no_road_query_name|]. rewrite E. discriminate.
Qed.

(** X2. [get_bus_stop_object] returns [None] exactly when no stop has the
    parsed name in English or in Myanmar, whatever the road qualifier of the
    search string; a stop it returns is a row of the table with that name. *)
Theorem get_bus_stop_object_none_iff (st : Store) (raw : pystr) :
  (get_bus_stop_object st raw = None <->
   forall s, In s (all_stops st) ->
     name_query (fst (parse_stop_name_with_road raw)) s = false)
  /\ (forall r, get_bus_stop_object st raw = Some r ->
        In r (all_stops st)
        /\ name_query (fst (parse_stop_name_with_road raw)) r = true).
Proof.
  destruct (get_bus_stop_object_query st raw) as (query & -> & Himp & Hnil). split.
  - rewrite first_by_pk_none. split.
    + intros E. rewrite (Hnil E) in E. now apply filter_nil_iff.
    + intros H. apply filter_nil_iff. intros s Hs.
      destruct (query s) eqn:Q; [|reflexivity].
      specialize (Himp s Q). rewrite (H s Hs) in Himp. discriminate.
  - intros r Hr. apply first_by_pk_in, filter_In in Hr as [Hin Hq]. auto.
Qed.

(** ** Stop Name Resolver: the display form of a stop *)

Lemma lstrip_snoc_space s c :
  isspace c = true ->
  lstrip (s ++ [c]) = match lstrip s with [] => [] | _ :: _ => lstrip s ++ [c] end.
Proof.
  intros Hc. induction s as [|x s IH]; simpl.
  - now rewrite Hc.
  - destruct (isspace x); [exact IH|reflexivity].
Qed.

Lemma rstrip_snoc_space s c : isspace c = true -> rstrip (s ++ [c]) = rstrip s.
Proof.
  intros Hc. unfold rstrip. rewrite rev_app_distr. simpl. now rewrite Hc.
Qed.

Lemma strip_snoc_space s c : isspace c = true -> strip (s ++ [c]) = strip s.
Proof.
  intros Hc. unfold strip. rewrite (lstrip_snoc_space s c Hc).
  destruct (lstrip s) as [|y t]; [reflexivity|]. now apply rstrip_snoc_space.
Qed.

Lemma parse_bus_stop_str s road :
  road_name_en s = Some road -> road <> [] -> ~ In LPAREN road ->
  parse_stop_name_with_road (bus_stop_str s) = (strip (name_en s), Some (strip road)).
Proof.
  intros Hr Hne Hp. unfold bus_stop_str. rewrite Hr.
  destruct road as [|c road]; [congruence|]. simpl str_truthy. cbv iota. simpl default.
  remember (c :: road) as r eqn:Er. clear Er Hne.
  assert (~ In LPAREN (r ++ [RPAREN])) as Hp'.
  { intros H. apply in_app_or in H as [H|[H|[]]]; [contradiction|discriminate]. }
  unfold parse_stop_name_with_road.
  replace (name_en s ++ [32; LPAREN] ++ r ++ [RPAREN])
    with ((name_en s ++ [32]) ++ LPAREN :: (r ++ [RPAREN]))
    by (rewrite <- app_assoc; reflexivity).
  assert (str_contains LPAREN ((name_en s ++ [32]) ++ LPAREN :: r ++ [RPAREN]) = true) as ->.
  { apply str_contains_In, in_or_app. right. now left. }
  assert (endswith RPAREN ((name_en s ++ [32]) ++ LPAREN :: r ++ [RPAREN]) = true) as ->.
  { apply endswith_last.
    replace ((name_en s ++ [32]) ++ LPAREN :: r ++ [RPAREN])
      with (((name_en s ++ [32]) ++ LPAREN :: r) ++ [RPAREN])
      by (rewrite <- app_assoc; reflexivity).
    apply last_snoc. }
  simpl andb. cbv iota. unfold rsplit1. rewrite (rsplit_last_app _ _ _ Hp'). cbn [nth].
  unfold drop_last. rewrite removelast_last.
  rewrite strip_snoc_space by reflexivity. reflexivity.
Qed.

Lemma iexact_refl x : iexact x x = true.
Proof. unfold iexact, pystr_eqb. now apply bool_decide_eq_true. Qed.

(** X3. The text [BusStop.__str__] shows for a stop with a road, [Name (Road)],
    parses back to the name and the road, trimmed, provided the road is
    not empty and holds no [(]. When name and road have no blank at either
    end, [get_bus_stop_object] resolves the text to a stop that matches this
    name and road, with a key no larger than the stop's; it is the stop itself
    when no other row matches them. *)
Theorem bus_stop_str_round_trip (st : Store) (s : BusStop) (road : pystr) :
  In s (all_stops st) ->
  road_name_en s = Some road ->
  road <> [] ->
  ~ In LPAREN road ->
  strip (name_en s) = name_en s ->
  strip road = road ->
  parse_stop_name_with_road (bus_stop_str s) = (name_en s, Some road)
  /\ exists r,
       get_bus_stop_object st (bus_stop_str s) = Some r
       /\ In r (all_stops st)
       /\ name_road_query (name_en s) road r = true
       /\ stop_id r <= stop_id s
       /\ ((forall s', In s' (all_stops st) ->
              name_road_query (name_en s) road s' = true -> s' = s) ->
           r = s).
Proof.
  intros Hin Hr Hne Hp Hsn Hsr.
  pose proof (parse_bus_stop_str s road Hr Hne Hp) as Hparse. rewrite Hsn, Hsr in Hparse.
  split; [exact Hparse|].
  assert (name_road_query (name_en s) road s = true) as Hs.
  { unfold name_road_query. rewrite Hr. simpl. now rewrite !iexact_refl. }
  assert (In s (List.filter (name_road_query (name_en s) road) (all_stops st))) as Hf
    by (apply filter_In; auto).
  unfold get_bus_stop_object. rewrite Hparse.
  destruct road as [|c road']; [congruence|]. simpl str_truthy. cbv iota. simpl default.
  set (rd := c :: road') in *.
  destruct (List.filter (name_road_query (name_en s) rd) (all_stops st)) as [|x l] eqn:E;
    [contradiction|].
  simpl qs_exists. simpl negb. cbv iota. rewrite E.
  destruct (first_by_pk (x :: l)) as [r|] eqn:F; [|apply first_by_pk_none in F; discriminate].
  exists r. split; [reflexivity|].
  pose proof (first_by_pk_in _ _ F) as Hrin. rewrite <- E in Hrin.
  apply filter_In in Hrin as [Hrin Hrq].
  repeat split; try assumption.
  - apply (first_by_pk_least _ _ s F). exact Hf.
  - intros Hu. now apply Hu.
Qed.

Lemma bus_stop_str_round_trip_witness :
  get_bus_stop_object main_road_store (bus_stop_str (road_stop 1 "Central" "Side Road"))
  = Some (road_stop 1 "Central" "Side Road").
Proof.
  destruct (bus_stop_str_round_trip main_road_store (road_stop 1 "Central" "Side Road")
              (py "Side Road")) as (_ & r & Hr & _ & _ & _ & Hu).
  { vm_compute. auto. }
  { reflexivity. }
  { discriminate. }
  { vm_compute. intuition discriminate. }
  { reflexivity. }
  { reflexivity. }
  rewrite Hr. f_equal. apply Hu. intros s' Hs' Hq. vm_compute in Hs'.
  destruct Hs' as [<-|[<-|[<-|[]]]]; [reflexivity|vm_compute in Hq; discriminate..].
Defined.

(** ** Segment Extractor: when it answers, and with what *)

Lemma first_segment_in st line stop s :
  first_segment st line stop = Some s ->
  In s (all_route_segments st) /\ on_line line s = true /\ at_stop stop s = true.
Proof.
  unfold first_segment. intros H.
  destruct (order_by _ _) as [|x l] eqn:E; [discriminate|]. inversion H; subst x.
  assert (In s (s :: l)) as Hin by now left.
  rewrite <- E, order_by_In, filter_In, andb_true_iff in Hin. tauto.
Qed.

Lemma first_segment_none st line stop :
  first_segment st line stop = None <-> ~ serves st line stop.
Proof.
  split.
  - intros H Hs. apply first_segment_some in Hs as (s & E & _). congruence.
  - intros H. destruct (first_segment st line stop) as [s|] eqn:E; [|reflexivity].
    exfalso. apply H. exists s. now apply first_segment_in in E.
Qed.

(** [get_segment_details] in closed form: the provider only fills in the two
    totals. *)
Lemma get_segment_details_eq osrm st line start_stop end_stop :
  get_segment_details osrm st line start_stop end_stop
  = Ok (match first_segment st line start_stop, first_segment st line end_stop with
        | Some sx, Some sy =>
            let segments := segment_slice st line (order sx) (order sy) in
            let totals :=
              if (length (valid_coords (route_stops_coords segments)) <? 2)%nat
              then (None, None)
              else match well_formed_reply (osrm (valid_coords (route_stops_coords segments))) with
                   | Some (km, mins) => (Some km, Some mins)
                   | None => (None, None)
                   end in
            Some (mkSegmentDetails (length segments)
                    ((fun x => float_round x 2) <$> fst totals)
                    ((fun x => float_round x 0) <$> snd totals)
                    (List.map display_row segments)
                    (name_en start_stop) (name_en end_stop))
        | _, _ => None
        end).
Proof.
  unfold get_segment_details.
  destruct (first_segment st line start_stop) as [sx|] eqn:Fx; [|reflexivity].
  destruct (first_segment st line end_stop) as [sy|] eqn:Fy; [|reflexivity].
  apply first_segment_in in Fx as (Hin & Hl & _).
  assert (In sx (segment_slice st line (order sx) (order sy))) as Hne
    by (apply segment_slice_In; repeat split; try assumption; lia).
  cbv zeta.
  destruct (segment_slice st line (order sx) (order sy)) as [|s l] eqn:E; [contradiction|].
  simpl qs_exists. simpl negb. cbv iota.
  rewrite get_route_details_from_osrm_eq. simpl rbind.
  destruct (if (_ <? 2)%nat then _ else _) as [dist time]. reflexivity.
Qed.

(** X4. [get_segment_details] never raises, whatever the provider does. It
    returns [None] exactly when the line does not call at one of the two
    stops. A result counts at least one stop, as many as it lists, and its
    stops do not depend on the provider; when the provider fails on every
    request, distance and time are both reported as not available. *)
Theorem get_segment_details_answers
    (osrm : list (Q * Q) -> http_reply) (st : Store) (line : BusLine)
    (start_stop end_stop : BusStop) :
  (exists r, get_segment_details osrm st line start_stop end_stop = Ok r)
  /\ (get_segment_details osrm st line start_stop end_stop = Ok None <->
      ~ serves st line start_stop \/ ~ serves st line end_stop)
  /\ (forall d,
        get_segment_details osrm st line start_stop end_stop = Ok (Some d) ->
        stops_count d = length (route_stops d)
        /\ (1 <= stops_count d)%nat
        /\ (forall osrm', exists d',
              get_segment_details osrm' st line start_stop end_stop = Ok (Some d')
              /\ route_stops d' = route_stops d
              /\ stops_count d' = stops_count d)
        /\ ((forall coords, osrm coords = Failed) ->
            total_distance_km d = None /\ total_time_minutes d = None)).
Proof.
  split; [rewrite get_segment_details_eq; eauto|]. split.
  - rewrite get_segment_details_eq, <- !first_segment_none.
    destruct (first_segment st line start_stop) as [sx|];
      destruct (first_segment st line end_stop) as [sy|]; split;
      try discriminate; try (intros [H|H]; discriminate); auto.
  - intros d. rewrite get_segment_details_eq.
    destruct (first_segment st line start_stop) as [sx|] eqn:Fx; [|discriminate].
    destruct (first_segment st line end_stop) as [sy|] eqn:Fy; [|discriminate].
    intros [= <-]. simpl. rewrite length_map.
    pose proof (first_segment_in _ _ _ _ Fx) as (Hin & Hl & _).
    assert (In sx (segment_slice st line (order sx) (order sy))) as Hne
      by (apply segment_slice_In; repeat split; try assumption; lia).
    split; [reflexivity|]. split; [destruct (segment_slice _ _ _ _); [contradiction|simpl; lia]|].
    split.
    + intros osrm'. rewrite get_segment_details_eq, Fx, Fy.
      eexists. split; [reflexivity|]. split; reflexivity.
    + intros Hfail. rewrite Hfail. simpl. destruct (_ <? 2)%nat; auto.
Qed.

Lemma get_segment_details_answers_witness :
  exists d,
    get_segment_details osrm_down scenario_store line10 P1 P3 = Ok (Some d)
    /\ stops_count d = 3%nat
    /\ total_distance_km d = None
    /\ get_segment_details osrm_down scenario_store line10 P1 P4 = Ok None.
Proof.
  destruct (get_segment_details_answers osrm_down scenario_store line10 P1 P3)
    as (_ & _ & H).
  destruct (get_segment_details osrm_down scenario_store line10 P1 P3) as [[d|]|] eqn:E;
    try (vm_compute in E; discriminate).
  destruct (H d eq_refl) as (_ & _ & _ & Hdown).
  destruct (Hdown (fun _ => eq_refl)) as [Hd _].
  exists d. split; [reflexivity|]. split; [|split; [exact Hd|]].
  - vm_compute in E. inversion E. reflexivity.
  - apply (get_segment_details_answers osrm_down scenario_store line10 P1 P4).
    right. intros (s & Hs & Hl & Ha). vm_compute in Hs.
    repeat (destruct Hs as [<-|Hs]; [vm_compute in Hl, Ha; discriminate|]). contradiction.
Defined.

Lemma increasing_head_least (key : RouteSegment -> Z) h t x :
  increasing key (h :: t) -> In x (h :: t) ->
  (forall y, In y (h :: t) -> key x <= key y) -> x = h.
Proof.
  intros Hs [E|Hx] Hmin; [congruence|].
  pose proof (increasing_head_min key h t x Hs Hx).
  specialize (Hmin h (or_introl eq_refl)). lia.
Qed.

Lemma increasing_head (key : RouteSegment -> Z) l x :
  increasing key l -> In x l -> (forall y, In y l -> key x <= key y) -> head l = Some x.
Proof.
  destruct l as [|h t]; [contradiction|]. intros Hs Hx Hmin.
  simpl. f_equal. symmetry. now apply (increasing_head_least key h t x).
Qed.

Lemma last_head_rev {A} (l : list A) : last l = head (rev l).
Proof. rewrite <- (rev_involutive l) at 1. apply last_rev_head. Qed.

Lemma head_map {A B} (f : A -> B) l : head (List.map f l) = f <$> head l.
Proof. destruct l; reflexivity. Qed.

Lemma last_map {A B} (f : A -> B) l : last (List.map f l) = f <$> last l.
Proof. now rewrite !last_head_rev, <- map_rev, head_map. Qed.

Lemma increasing_ext_key (key1 key2 : RouteSegment -> Z) l :
  (forall s, key1 s = key2 s) -> increasing key1 l -> increasing key2 l.
Proof.
  intros E. unfold increasing. induction 1 as [|x l Hs IH Hx]; constructor; [assumption|].
  eapply Forall_impl; [exact Hx|]. simpl. intros y. rewrite !E. trivial.
Qed.

(** The slice starts at the segment the start stop was looked up with and
    ends at the one of the end stop. *)
Lemma segment_slice_ends st line sx sy :
  line_orders_distinct st line ->
  In sx (all_route_segments st) -> on_line line sx = true ->
  In sy (all_route_segments st) -> on_line line sy = true ->
  head (segment_slice st line (order sx) (order sy)) = Some sx
  /\ last (segment_slice st line (order sx) (order sy)) = Some sy.
Proof.
  intros Hd Hx Hlx Hy Hly.
  assert (In sx (segment_slice st line (order sx) (order sy))) as Ix
    by (apply segment_slice_In; repeat split; try assumption; lia).
  assert (In sy (segment_slice st line (order sx) (order sy))) as Iy
    by (apply segment_slice_In; repeat split; try assumption; lia).
  assert (forall y, In y (segment_slice st line (order sx) (order sy)) ->
            Z.min (order sx) (order sy) <= order y <= Z.max (order sx) (order sy)) as Hb
    by (intros y Hy'; apply segment_slice_In in Hy'; tauto).
  destruct (Z.le_gt_cases (order sx) (order sy)) as [Hle|Hgt].
  - pose proof (segment_slice_increasing st line _ _ Hd Hle) as Hinc. split.
    + apply (increasing_head order); [assumption..|]. intros y Hy'. specialize (Hb y Hy'). lia.
    + rewrite last_head_rev. apply (increasing_head (fun s => - order s)).
      * now apply increasing_rev.
      * now apply in_rev in Iy.
      * intros y Hy'. apply in_rev in Hy'. specialize (Hb y Hy'). lia.
  - pose proof (segment_slice_decreasing st line _ _ Hd Hgt) as Hdec. split.
    + apply (increasing_head (fun s => - order s)); [assumption..|].
      intros y Hy'. specialize (Hb y Hy'). lia.
    + rewrite last_head_rev. apply (increasing_head order).
      * apply (increasing_ext_key (fun s => - - order s)); [intros; lia|].
        now apply (increasing_rev (fun s => - order s)).
      * now apply in_rev in Iy.
      * intros y Hy'. apply in_rev in Hy'. specialize (Hb y Hy'). lia.
Qed.

(** X5. On a line whose segments have pairwise distinct orders and that calls
    at both stops, the stop sequence of [get_segment_details] begins with the
    start stop and ends with the end stop, in either direction. *)
Theorem get_segment_details_endpoints
    (osrm : list (Q * Q) -> http_reply) (st : Store) (line : BusLine)
    (start_stop end_stop : BusStop) :
  line_orders_distinct st line ->
  serves st line start_stop ->
  serves st line end_stop ->
  exists d,
    get_segment_details osrm st line start_stop end_stop = Ok (Some d)
    /\ (d_id <$> head (route_stops d)) = Some (stop_id start_stop)
    /\ (d_id <$> last (route_stops d)) = Some (stop_id end_stop).
Proof.
  intros Hd HX HY.
  destruct (first_segment_some _ _ _ HX) as (sx & Fx & Hxin & Hxl & Hxs).
  destruct (first_segment_some _ _ _ HY) as (sy & Fy & Hyin & Hyl & Hys).
  destruct (get_segment_details_slice osrm _ _ _ _ _ _ Fx Fy Hxin Hxl) as (d & Ed & Rd & _).
  destruct (segment_slice_ends st line sx sy Hd Hxin Hxl Hyin Hyl) as [Hh Hl].
  exists d. split; [assumption|].
  rewrite Rd, head_map, last_map, Hh, Hl. simpl.
  apply Z.eqb_eq in Hxs, Hys. now rewrite Hxs, Hys.
Qed.

Lemma get_segment_details_endpoints_witness :
  exists d,
    get_segment_details osrm_down scenario_store line10 P3 P1 = Ok (Some d)
    /\ (d_id <$> head (route_stops d)) = Some 3
    /\ (d_id <$> last (route_stops d)) = Some 1.
Proof.
  apply (get_segment_details_endpoints osrm_down scenario_store line10 P3 P1).
  - unfold line_orders_distinct. apply (bool_decide_unpack _). vm_compute. reflexivity.
  - exists (mkRouteSegment line10 P3 3). vm_compute. auto.
  - exists (mkRouteSegment line10 P1 1). vm_compute. auto.
Defined.

(** ** Stops between: what every entry holds *)

Lemma insert_sorted_le (key : RouteSegment -> Z) x l :
  StronglySorted (fun a b => key a <= key b) l ->
  StronglySorted (fun a b => key a <= key b) (insert_sorted (le_key key) x l).
Proof.
  induction l as [|z l IH]; intros Hs; simpl.
  - repeat constructor.
  - apply StronglySorted_inv in Hs as [Hs Hz].
    unfold le_key at 1. destruct (Z.leb_spec (key x) (key z)) as [Hle|Hlt].
    + constructor; [constructor; assumption|].
      constructor; [assumption|]. eapply Forall_impl; [exact Hz|]. simpl. intros; lia.
    + constructor; [now apply IH|].
      apply Forall_forall. intros y Hy. apply list_elem_of_In, insert_sorted_In in Hy.
      destruct Hy as [->|Hy]; [lia|].
      rewrite Forall_forall in Hz. apply Hz, list_elem_of_In, Hy.
Qed.

Lemma order_by_sorted (key : RouteSegment -> Z) l :
  StronglySorted (fun a b => key a <= key b) (order_by (le_key key) l).
Proof.
  unfold order_by. induction l as [|x l IH]; simpl; [constructor|].
  now apply insert_sorted_le.
Qed.

Lemma sorted_slice {A} (R : A -> A -> Prop) (l : list A) i j :
  StronglySorted R l -> StronglySorted R (py_slice l i j).
Proof.
  unfold py_slice. intros Hs.
  rewrite <- (take_drop j l) in Hs. apply StronglySorted_app_1_l in Hs.
  rewrite <- (take_drop i (take j l)) in Hs. now apply StronglySorted_app_1_r in Hs.
Qed.

Lemma sorted_map_order l :
  StronglySorted (fun a b => order a <= order b) l ->
  StronglySorted Z.le (List.map order l).
Proof.
  induction 1 as [|x l Hs IH Hx]; simpl; constructor; [assumption|].
  apply Forall_forall. intros y Hy. apply list_elem_of_In, in_map_iff in Hy as (s & <- & Hs').
  rewrite Forall_forall in Hx. apply Hx, list_elem_of_In, Hs'.
Qed.

(** The loop records the last index at which each of the two stops stands. *)
Lemma find_positions_fst_found X Y l :
  forall i pos,
    (exists s, In s l /\ at_stop X s = true) ->
    exists k s, fst (find_positions X Y i l pos) = Some (i + k)%nat
                /\ l !! k = Some s /\ at_stop X s = true.
Proof.
  induction l as [|z l IH]; intros i pos (s & Hs & Ht); [destruct Hs|].
  simpl.
  destruct (existsb (at_stop X) l) eqn:E.
  - apply existsb_exists in E.
    destruct (IH (S i) (if at_stop Y z
                        then (fst (if at_stop X z then (Some i, snd pos) else pos), Some i)
                        else if at_stop X z then (Some i, snd pos) else pos) E)
      as (k & s' & Hk & Hl & Ht').
    exists (S k), s'. rewrite Hk. split; [f_equal; lia|]. auto.
  - assert (forall y, In y l -> at_stop X y = false) as Hnone.
    { intros y Hy. destruct (at_stop X y) eqn:Ey; [|reflexivity].
      assert (existsb (at_stop X) l = true) by (apply existsb_exists; eauto). congruence. }
    destruct Hs as [<-|Hs]; [|rewrite (Hnone s Hs) in Ht; discriminate].
    exists 0%nat, z. rewrite find_positions_fst_unchanged by assumption.
    rewrite Ht. split; [destruct (at_stop Y z); simpl; f_equal; lia|]. auto.
Qed.

Lemma find_positions_snd_found X Y l :
  forall i pos,
    (exists s, In s l /\ at_stop Y s = true) ->
    exists k s, snd (find_positions X Y i l pos) = Some (i + k)%nat
                /\ l !! k = Some s /\ at_stop Y s = true.
Proof.
  induction l as [|z l IH]; intros i pos (s & Hs & Ht); [destruct Hs|].
  simpl.
  destruct (existsb (at_stop Y) l) eqn:E.
  - apply existsb_exists in E.
    destruct (IH (S i) (if at_stop Y z
                        then (fst (if at_stop X z then (Some i, snd pos) else pos), Some i)
                        else if at_stop X z then (Some i, snd pos) else pos) E)
      as (k & s' & Hk & Hl & Ht').
    exists (S k), s'. rewrite Hk. split; [f_equal; lia|]. auto.
  - assert (forall y, In y l -> at_stop Y y = false) as Hnone.
    { intros y Hy. destruct (at_stop Y y) eqn:Ey; [|reflexivity].
      assert (existsb (at_stop Y) l = true) by (apply existsb_exists; eauto). congruence. }
    destruct Hs as [<-|Hs]; [|rewrite (Hnone s Hs) in Ht; discriminate].
    exists 0%nat, z. rewrite find_positions_snd_unchanged by assumption.
    rewrite Ht. split; [simpl; f_equal; lia|]. auto.
Qed.

Lemma py_slice_lookup {A} (l : list A) i j k x :
  l !! k = Some x -> (i <= k < j)%nat -> In x (py_slice l i j).
Proof.
  intros Hk Hr. apply list_elem_of_In, list_elem_of_lookup. exists (k - i)%nat.
  unfold py_slice. rewrite lookup_drop. apply lookup_take_Some.
  replace (i + (k - i))%nat with k by lia. split; [assumption|lia].
Qed.

Lemma py_slice_In {A} (l : list A) i j x : In x (py_slice l i j) -> In x l.
Proof.
  intros H. apply list_elem_of_In, list_elem_of_lookup in H as [k Hk].
  unfold py_slice in Hk. rewrite lookup_drop in Hk. apply lookup_take_Some in Hk as [Hk _].
  apply list_elem_of_In, list_elem_of_lookup. eauto.
Qed.

(** The entry of one common line. *)
Lemma stops_between_line_entry st X Y line :
  serves st line X -> serves st line Y ->
  exists r,
    stops_between_line st X Y line = Some r
    /\ sb_bus_line r = line
    /\ sb_total_stops r = length (sb_stops r)
    /\ length (sb_orders r) = length (sb_stops r)
    /\ StronglySorted Z.le (sb_orders r)
    /\ (exists s, In s (sb_stops r) /\ stop_id s = stop_id X)
    /\ (exists s, In s (sb_stops r) /\ stop_id s = stop_id Y)
    /\ (forall s, In s (sb_stops r) ->
          exists seg, In seg (all_route_segments st) /\ on_line line seg = true
                      /\ bus_stop seg = s).
Proof.
  intros (x0 & Hx0 & Hxl & Hxs) (y0 & Hy0 & Hyl & Hys). unfold stops_between_line.
  set (l := order_by by_order (List.filter (on_line line) (all_route_segments st))).
  assert (exists s, In s l /\ at_stop X s = true) as HX
    by (exists x0; split; [apply line_segments_In; auto|assumption]).
  assert (exists s, In s l /\ at_stop Y s = true) as HY
    by (exists y0; split; [apply line_segments_In; auto|assumption]).
  destruct (find_positions_fst_found X Y l 0%nat (None, None) HX) as (i & sx & Pi & Li & Ai).
  destruct (find_positions_snd_found X Y l 0%nat (None, None) HY) as (j & sy & Pj & Lj & Aj).
  destruct (find_positions X Y 0 l (None, None)) as [p q]. simpl in Pi, Pj. subst p q.
  set (lo := fst (if (j <? i)%nat then (j, i) else (i, j))).
  set (hi := snd (if (j <? i)%nat then (j, i) else (i, j))).
  assert ((lo <= i <= hi)%nat /\ (lo <= j <= hi)%nat) as [Hi Hj]
    by (unfold lo, hi; destruct (Nat.ltb_spec j i); simpl; lia).
  exists (mkStopsBetween line
            (List.map bus_stop (py_slice l lo (hi + 1)))
            (length (py_slice l lo (hi + 1)))
            (List.map order (py_slice l lo (hi + 1)))).
  split.
  { unfold lo, hi. destruct (j <? i)%nat; reflexivity. }
  simpl. rewrite !length_map. repeat split.
  - apply sorted_map_order, sorted_slice. apply (order_by_sorted order).
  - exists (bus_stop sx). split; [|now apply Z.eqb_eq].
    apply in_map, (py_slice_lookup l lo (hi + 1) i); [assumption|lia].
  - exists (bus_stop sy). split; [|now apply Z.eqb_eq].
    apply in_map, (py_slice_lookup l lo (hi + 1) j); [assumption|lia].
  - intros s Hs. apply in_map_iff in Hs as (seg & <- & Hseg).
    apply py_slice_In, line_segments_In in Hseg. exists seg. tauto.
Qed.

(** X6. [find_stops_between] returns one entry per line that calls at both
    stops, in the order of the line table. In every entry the count is the
    number of stops listed, the orders are listed from small to large, the
    start stop and the end stop are both among the stops, and every stop
    listed is a stop of the line. *)
Theorem find_stops_between_entries (st : Store) (start_stop end_stop : BusStop) :
  List.map sb_bus_line (find_stops_between st start_stop end_stop)
  = common_bus_lines st start_stop end_stop
  /\ (forall r, In r (find_stops_between st start_stop end_stop) ->
        sb_total_stops r = length (sb_stops r)
        /\ length (sb_orders r) = length (sb_stops r)
        /\ StronglySorted Z.le (sb_orders r)
        /\ (exists s, In s (sb_stops r) /\ stop_id s = stop_id start_stop)
        /\ (exists s, In s (sb_stops r) /\ stop_id s = stop_id end_stop)
        /\ (forall s, In s (sb_stops r) ->
              exists seg, In seg (all_route_segments st)
                          /\ on_line (sb_bus_line r) seg = true /\ bus_stop seg = s)).
Proof.
  unfold find_stops_between.
  assert (forall lines,
             (forall line, In line lines ->
                serves st line start_stop /\ serves st line end_stop) ->
             List.map sb_bus_line (omap (stops_between_line st start_stop end_stop) lines)
             = lines) as Hmap.
  { induction lines as [|line lines IH]; intros H; [reflexivity|].
    destruct (H line (or_introl eq_refl)) as [HX HY].
    destruct (stops_between_line_entry st start_stop end_stop line HX HY)
      as (r & Er & El & _).
    cbn [omap list_omap]. rewrite Er. simpl. rewrite El. f_equal.
    apply IH. intros l' Hl'. apply H. now right. }
  split; [apply Hmap; intros line; apply common_bus_lines_serves|].
  intros r Hr. apply list_elem_of_In, list_elem_of_omap in Hr as (line & Hline & Er).
  apply list_elem_of_In, common_bus_lines_serves in Hline as [HX HY].
  destruct (stops_between_line_entry st start_stop end_stop line HX HY)
    as (r' & Er' & El & H).
  rewrite Er in Er'. inversion Er'; subst r'. rewrite El. exact H.
Qed.

(** ** Route Assembly: direct lines *)

Lemma insert_line_perm x l : Permutation (insert_line x l) (x :: l).
Proof.
  induction l as [|y l IH]; simpl; [reflexivity|].
  destruct (line_number x <=? line_number y); [reflexivity|].
  rewrite IH. apply perm_swap.
Qed.

Lemma insert_line_sorted x l :
  StronglySorted (fun a b => line_number a <= line_number b) l ->
  StronglySorted (fun a b => line_number a <= line_number b) (insert_line x l).
Proof.
  induction l as [|z l IH]; intros Hs; simpl.
  - repeat constructor.
  - apply StronglySorted_inv in Hs as [Hs Hz].
    destruct (Z.leb_spec (line_number x) (line_number z)) as [Hle|Hlt].
    + constructor; [constructor; assumption|].
      constructor; [assumption|]. eapply Forall_impl; [exact Hz|]. simpl. intros; lia.
    + constructor; [now apply IH|].
      rewrite (insert_line_perm x l). constructor; [lia|assumption].
Qed.

Lemma direct_bus_lines_sorted st X Y :
  Permutation (direct_bus_lines st X Y) (common_bus_lines st X Y)
  /\ StronglySorted (fun a b => line_number a <= line_number b) (direct_bus_lines st X Y).
Proof.
  unfold direct_bus_lines. induction (common_bus_lines st X Y) as [|x l [IHp IHs]]; simpl.
  - split; constructor.
  - split; [rewrite insert_line_perm; now constructor|now apply insert_line_sorted].
Qed.

(** X7. When some line calls at both resolved stops, the stop search of
    [search_route] answers with these lines and nothing else: one result per
    common line, by increasing line number, and no error message. The answer
    needs no turn of the path search and no reply of the provider. *)
Theorem search_route_direct_lines
    (fuel : nat) (osrm : list (Q * Q) -> http_reply) (st : Store)
    (raw1 raw2 : pystr) (X Y : BusStop) :
  raw1 <> [] -> raw2 <> [] ->
  get_bus_stop_object st raw1 = Some X ->
  get_bus_stop_object st raw2 = Some Y ->
  common_bus_lines st X Y <> [] ->
  search_route_bus_stop fuel osrm st raw1 raw2
  = Some (mkSearchPage
            (List.map (fun l => AvailableBusLine (line_number l) X Y)
                      (direct_bus_lines st X Y))
            None)
  /\ Permutation (direct_bus_lines st X Y) (common_bus_lines st X Y)
  /\ StronglySorted (fun a b => line_number a <= line_number b) (direct_bus_lines st X Y).
Proof.
  intros H1 H2 R1 R2 Hc. split; [|apply direct_bus_lines_sorted].
  unfold search_route_bus_stop, search_bus_stop_try.
  destruct raw1; [congruence|]. destruct raw2; [congruence|]. simpl qs_exists. simpl.
  rewrite R1, R2.
  destruct (direct_bus_lines st X Y) as [|l ls] eqn:E; [|reflexivity].
  exfalso. apply Hc. destruct (direct_bus_lines_sorted st X Y) as [Hp _].
  rewrite E in Hp. now apply Permutation_nil in Hp.
Qed.

Lemma search_route_direct_lines_witness :
  search_route_bus_stop 0 osrm_down shared_stretch_store (py "p1") (py "P2")
  = Some (mkSearchPage [AvailableBusLine 10 P1 P2; AvailableBusLine 20 P1 P2] None).
Proof.
  destruct (search_route_direct_lines 0 osrm_down shared_stretch_store (py "p1") (py "P2")
              P1 P2) as [H _];
    [discriminate | discriminate | reflexivity | reflexivity | discriminate | exact H].
Defined.

(** ** Shortest-Path Engine: every leg can be ridden *)

Lemma relax_pred_edges graph c u line s neighbor s' :
  pred_edges graph (predecessors s) ->
  neighbor ∈ default [] (graph !! u) ->
  relax c u line s neighbor = Ok s' ->
  pred_edges graph (predecessors s').
Proof.
  intros Hp Hn. unfold relax.
  destruct (distances s !! nb_stop_id neighbor) as [d|]; [|discriminate].
  destruct (cost_lt _ d); intros [= <-]; [|assumption].
  intros v u' l. simpl. destruct (decide (v = nb_stop_id neighbor)) as [->|Hne].
  - rewrite lookup_insert_eq. intros [= <- <-]. eauto.
  - rewrite lookup_insert_ne by congruence. apply Hp.
Qed.

Lemma relax_all_pred_edges graph c u line neighbors :
  (forall e, In e neighbors -> e ∈ default [] (graph !! u)) ->
  forall s s',
    pred_edges graph (predecessors s) ->
    relax_all c u line neighbors s = Ok s' ->
    pred_edges graph (predecessors s').
Proof.
  induction neighbors as [|nb rest IH]; intros He s s' Hp; simpl.
  - now intros [= <-].
  - destruct (relax c u line s nb) as [s1|e] eqn:E; simpl; [|discriminate].
    apply IH; [intros; apply He; now right|].
    eapply relax_pred_edges; eauto. apply He. now left.
Qed.

Lemma search_pred_edges graph end_stop_id :
  forall fuel s found s',
    pred_edges graph (predecessors s) ->
    search fuel graph end_stop_id s = Some (Ok (found, s')) ->
    pred_edges graph (predecessors s').
Proof.
  induction fuel as [|fuel IH]; intros s found s' Hp H; simpl in H; [discriminate|].
  destruct (heappop (priority_queue s)) as [[[[c u] line] q']|];
    [|now inversion H; subst].
  destruct (distances s !! u) as [d|]; [|discriminate].
  destruct (cost_gt c d).
  - eapply IH; [|exact H]. exact Hp.
  - destruct (u =? end_stop_id); [now inversion H; subst|].
    destruct (relax_all c u line (default [] (graph !! u))
                (mkSearchState (distances s) (predecessors s) q')) as [s2|e] eqn:E;
      [|discriminate].
    eapply IH; [|exact H]. eapply relax_all_pred_edges; [| |exact E]; [|exact Hp].
    intros e He. now apply list_elem_of_In.
Qed.

Lemma initial_state_pred_edges graph st start_stop_id :
  pred_edges graph (predecessors (initial_state st start_stop_id)).
Proof.
  intros v u l H. simpl in H.
  apply elem_of_list_to_map_2, list_elem_of_In, in_map_iff in H as (stop & E & _).
  discriminate.
Qed.

Lemma extend_path_rides st graph path prev cur l end_stop_id :
  (exists e, e ∈ default [] (graph !! prev) /\ nb_stop_id e = cur /\ nb_line_id e = l) ->
  chained cur (rev path) end_stop_id ->
  Forall (fun leg => rides graph leg /\ numbered st leg) (rev path) ->
  Forall (fun leg => rides graph leg /\ numbered st leg)
         (rev (extend_path path prev cur l (line_number <$> line_by_id st l))).
Proof.
  intros (e & He & Hv & Hl) Hc Hf. rewrite rev_extend_path.
  assert (rides graph (mkLeg prev cur l (line_number <$> line_by_id st l))
          /\ numbered st (mkLeg prev cur l (line_number <$> line_by_id st l))) as Hnew.
  { split; [|reflexivity]. exists [e]. simpl.
    repeat split; [discriminate|assumption|assumption|]. now repeat constructor. }
  destruct (rev path) as [|leg t]; [now repeat constructor|].
  destruct (Z.eqb_spec (leg_line_id leg) l) as [E|E]; simpl.
  - pose proof (Forall_inv Hf) as [(hops & Hne & Hw & Hall) Hnum].
    constructor; [|exact (Forall_inv_tail Hf)]. split; [|exact Hnum].
    simpl in Hc. destruct Hc as [Hs _].
    exists (e :: hops). simpl. repeat split; [discriminate|assumption| |].
    + rewrite Hv, <- Hs. assumption.
    + constructor; [congruence|assumption].
  - constructor; assumption.
Qed.

Lemma reconstruct_rides st graph preds start_stop_id end_stop_id :
  pred_edges graph preds ->
  forall fuel current_stop_id path res,
    reconstruct fuel st preds start_stop_id current_stop_id path = Some (Ok res) ->
    no_adjacent_same_line (rev path) ->
    chained current_stop_id (rev path) end_stop_id ->
    Forall (fun leg => rides graph leg /\ numbered st leg) (rev path) ->
    Forall (fun leg => rides graph leg /\ numbered st leg) res.
Proof.
  intros Hp. induction fuel as [|fuel IH]; intros cur path res H Hn Hc Hf; simpl in H;
    [discriminate|].
  destruct (cur =? start_stop_id); simpl in H; [now inversion H; subst|].
  destruct (preds !! cur) as [[[u l]|]|] eqn:E; [| discriminate |inversion H; constructor].
  destruct (extend_path_inv path u cur l (line_number <$> line_by_id st l) end_stop_id Hn Hc)
    as [Hn' Hc'].
  apply (IH _ _ _ H Hn' Hc').
  apply (extend_path_rides st graph path u cur l end_stop_id); [|assumption..].
  exact (Hp _ _ _ E).
Qed.

(** ** Network Graph Builder: the edges of the graph *)

Lemma adjacent_nil {A} (a b : A) : ~ adjacent a b [].
Proof. intros ([|? ?] & l2 & H); discriminate. Qed.

Lemma adjacent_cons {A} (a b x : A) l :
  adjacent a b (x :: l) <-> (a = x /\ exists t, l = b :: t) \/ adjacent a b l.
Proof.
  split.
  - intros ([|y l1] & l2 & H); simpl in H; inversion H; subst.
    + left. eauto.
    + right. now exists l1, l2.
  - intros [[-> [t ->]]|(l1 & l2 & ->)].
    + now exists [], t.
    + now exists (x :: l1), l2.
Qed.

Lemma adjacent_In {A} (a b : A) l : adjacent a b l -> In a l /\ In b l.
Proof.
  intros (l1 & l2 & ->). split; apply in_or_app; right; [now left|right; now left].
Qed.

Lemma graph_append_elem k x graph u e :
  e ∈ default [] (graph_append k x graph !! u)
  <-> e ∈ default [] (graph !! u) \/ (u = k /\ e = x).
Proof.
  unfold graph_append. destruct (decide (u = k)) as [->|Hne].
  - rewrite lookup_insert_eq. simpl. rewrite elem_of_app, list_elem_of_singleton. tauto.
  - rewrite lookup_insert_ne by congruence. tauto.
Qed.

Lemma connect_line_elem k :
  forall segments graph u e,
    e ∈ default [] (connect_line k segments graph !! u)
    <-> e ∈ default [] (graph !! u)
        \/ exists a b, adjacent a b segments /\ joins k a b u e.
Proof.
  induction segments as [|x rest IH]; intros graph u e.
  - simpl. split; [tauto|]. intros [H|(a & b & H & _)]; [assumption|].
    now apply adjacent_nil in H.
  - destruct rest as [|y rest].
    + simpl. split; [tauto|]. intros [H|(a & b & H & _)]; [assumption|].
      apply adjacent_cons in H as [[_ [t Ht]]|H]; [discriminate|].
      now apply adjacent_nil in H.
    + change (connect_line k (x :: y :: rest) graph)
        with (connect_line k (y :: rest)
                (graph_append (stop_id (bus_stop y))
                   (mkEdge (stop_id (bus_stop x)) k (line_number (bus_line x)))
                   (graph_append (stop_id (bus_stop x))
                      (mkEdge (stop_id (bus_stop y)) k (line_number (bus_line x)))
                      graph))).
      rewrite IH, !graph_append_elem. unfold joins. split.
      * intros [[[H|H]|H]|(a & b & Hadj & Hj)].
        -- now left.
        -- right. exists x, y. split; [apply adjacent_cons; left; eauto|]. now left.
        -- right. exists x, y. split; [apply adjacent_cons; left; eauto|]. now right.
        -- right. exists a, b. split; [apply adjacent_cons; now right|assumption].
      * intros [H|(a & b & Hadj & Hj)]; [tauto|].
        apply adjacent_cons in Hadj as [[-> [t [= <- <-]]]|Hadj].
        -- left. tauto.
        -- right. eauto.
Qed.

Lemma fold_connect_elem :
  forall groups graph u e,
    e ∈ default [] (fold_left (fun graph '(bus_line_id, segments) =>
                                 connect_line bus_line_id (order_by by_order segments) graph)
                              groups graph !! u)
    <-> e ∈ default [] (graph !! u)
        \/ exists k l a b,
             In (k, l) groups /\ adjacent a b (order_by by_order l) /\ joins k a b u e.
Proof.
  induction groups as [|[k l] groups IH]; intros graph u e; simpl.
  - split; [tauto|]. intros [H|(? & ? & ? & ? & [] & _)]. assumption.
  - rewrite IH, connect_line_elem. split.
    + intros [[H|(a & b & Ha & Hj)]|(k' & l' & a & b & Hin & Ha & Hj)].
      * now left.
      * right. exists k, l, a, b. auto.
      * right. exists k', l', a, b. auto.
    + intros [H|(k' & l' & a & b & [[= <- <-]|Hin] & Ha & Hj)].
      * tauto.
      * left. right. eauto.
      * right. exists k', l', a, b. auto.
Qed.

Lemma group_append_keys k0 seg groups k :
  In k (List.map fst (group_append k0 seg groups)) <-> k = k0 \/ In k (List.map fst groups).
Proof.
  induction groups as [|[k' l'] groups IH]; simpl.
  - intuition.
  - destruct (Z.eqb_spec k0 k') as [->|Hne]; simpl; [|rewrite IH]; intuition.
Qed.

Lemma group_append_NoDup k0 seg groups :
  NoDup (List.map fst groups) -> NoDup (List.map fst (group_append k0 seg groups)).
Proof.
  induction groups as [|[k' l'] groups IH]; simpl; intros H.
  - apply NoDup_singleton.
  - destruct (Z.eqb_spec k0 k') as [->|Hne]; simpl; [assumption|].
    apply NoDup_cons_2; [|apply IH; exact (NoDup_cons_1_2 _ _ H)].
    rewrite list_elem_of_In, group_append_keys. intros [?|Hin]; [congruence|].
    apply (NoDup_cons_1_1 _ _ H), list_elem_of_In, Hin.
Qed.

Lemma group_of_append k k0 seg groups :
  group_of k (group_append k0 seg groups)
  = if k =? k0 then group_of k0 groups ++ [seg] else group_of k groups.
Proof.
  induction groups as [|[k' l'] groups IH]; simpl.
  - destruct (k =? k0); reflexivity.
  - destruct (Z.eqb_spec k0 k') as [E|Hne]; simpl.
    + subst k'. destruct (Z.eqb_spec k k0) as [E|Hne']; reflexivity.
    + rewrite IH. destruct (Z.eqb_spec k k') as [E|Hne'].
      * subst k'. destruct (Z.eqb_spec k k0); [congruence|reflexivity].
      * reflexivity.
Qed.

Lemma group_of_In k l groups :
  NoDup (List.map fst groups) -> In (k, l) groups -> group_of k groups = l.
Proof.
  induction groups as [|[k' l'] groups IH]; simpl; intros Hnd H; [contradiction|].
  destruct H as [[= -> ->]|H]; [now rewrite Z.eqb_refl|].
  destruct (Z.eqb_spec k k') as [->|Hne]; [|apply IH; [exact (NoDup_cons_1_2 _ _ Hnd)|exact H]].
  exfalso. apply (NoDup_cons_1_1 _ _ Hnd), list_elem_of_In, in_map_iff. now exists (k', l).
Qed.

Lemma group_of_found k groups :
  group_of k groups <> [] -> In (k, group_of k groups) groups.
Proof.
  induction groups as [|[k' l'] groups IH]; simpl; intros H; [congruence|].
  destruct (Z.eqb_spec k k') as [->|Hne]; [now left|right; now apply IH].
Qed.

(** [segments_by_line] files every segment under the id of its line, in
    table order, under distinct keys. *)
Lemma segments_by_line_groups segs :
  NoDup (List.map fst (segments_by_line segs))
  /\ forall k, group_of k (segments_by_line segs)
               = List.filter (fun s => bus_line_id s =? k) segs.
Proof.
  unfold segments_by_line.
  assert (forall todo groups,
             NoDup (List.map fst groups) ->
             NoDup (List.map fst
                      (fold_left (fun groups seg => group_append (bus_line_id seg) seg groups)
                                 todo groups))
             /\ forall k,
                 group_of k (fold_left (fun groups seg =>
                                          group_append (bus_line_id seg) seg groups)
                                       todo groups)
                 = group_of k groups ++ List.filter (fun s => bus_line_id s =? k) todo) as H.
  { induction todo as [|x todo IH]; intros groups Hnd; simpl.
    - split; [assumption|]. intros k. now rewrite app_nil_r.
    - destruct (IH (group_append (bus_line_id x) x groups)
                  (group_append_NoDup _ _ _ Hnd)) as [H1 H2].
      split; [assumption|]. intros k. rewrite H2, group_of_append.
      rewrite (Z.eqb_sym k). destruct (Z.eqb_spec (bus_line_id x) k) as [->|Hne].
      + now rewrite <- app_assoc.
      + reflexivity. }
  destruct (H segs [] NoDup_nil_2) as [H1 H2]. split; [assumption|].
  intros k. now rewrite H2.
Qed.

Lemma build_graph_links st u e :
  e ∈ default [] (build_graph st !! u)
  <-> exists a b,
        adjacent a b (line_stops st (nb_line_id e)) /\ joins (nb_line_id e) a b u e.
Proof.
  unfold build_graph. rewrite fold_connect_elem.
  destruct (segments_by_line_groups (all_route_segments st)) as [Hnd Hg].
  split.
  - intros [H|(k & l & a & b & Hin & Ha & Hj)].
    { rewrite lookup_empty in H. simpl in H. now apply elem_of_nil in H. }
    apply (group_of_In _ _ _ Hnd) in Hin. rewrite Hg in Hin. subst l.
    assert (nb_line_id e = k) as -> by (destruct Hj as [[_ ->]|[_ ->]]; reflexivity).
    exists a, b. auto.
  - intros (a & b & Ha & Hj). right.
    exists (nb_line_id e),
           (List.filter (fun s => bus_line_id s =? nb_line_id e) (all_route_segments st)), a, b.
    split; [|auto]. rewrite <- Hg. apply group_of_found. rewrite Hg.
    intros E. unfold line_stops in Ha. rewrite E in Ha. now apply adjacent_nil in Ha.
Qed.

(** ** Shortest-Path Engine: a stop that can be reached is reached *)

Lemma relax_frontier (D : gset Z) c u line s neighbor s' :
  relax c u line s neighbor = Ok s' ->
  (forall v d, distances s !! v = Some (Finite d) ->
     v ∈ D \/ exists line', In (d, v, line') (priority_queue s)) ->
  (forall v d, distances s' !! v = Some (Finite d) ->
     v ∈ D \/ exists line', In (d, v, line') (priority_queue s'))
  /\ (forall v d, distances s !! v = Some (Finite d) ->
        exists d', distances s' !! v = Some (Finite d'))
  /\ exists d, distances s' !! nb_stop_id neighbor = Some (Finite d).
Proof.
  unfold relax. destruct (distances s !! nb_stop_id neighbor) as [d0|] eqn:E; [|discriminate].
  destruct (cost_lt _ d0) eqn:Hlt; intros [= <-] Hlive; simpl.
  - split; [|split].
    + intros v d. destruct (decide (v = nb_stop_id neighbor)) as [->|Hne].
      * rewrite lookup_insert_eq. intros [= <-]. right. eexists. now left.
      * rewrite lookup_insert_ne by congruence. intros Hv.
        destruct (Hlive v d Hv) as [?|[l Hl]]; [now left|]. right. exists l. now right.
    + intros v d Hv. destruct (decide (v = nb_stop_id neighbor)) as [->|Hne].
      * rewrite lookup_insert_eq. eauto.
      * rewrite lookup_insert_ne by congruence. eauto.
    + rewrite lookup_insert_eq. eauto.
  - split; [assumption|]. split; [eauto|].
    destruct d0 as [n|]; [eauto|discriminate].
Qed.

Lemma relax_all_frontier (D : gset Z) c u line neighbors :
  forall s s',
    relax_all c u line neighbors s = Ok s' ->
    (forall v d, distances s !! v = Some (Finite d) ->
       v ∈ D \/ exists line', In (d, v, line') (priority_queue s)) ->
    (forall v d, distances s' !! v = Some (Finite d) ->
       v ∈ D \/ exists line', In (d, v, line') (priority_queue s'))
    /\ (forall v d, distances s !! v = Some (Finite d) ->
          exists d', distances s' !! v = Some (Finite d'))
    /\ forall e, In e neighbors -> exists d, distances s' !! nb_stop_id e = Some (Finite d).
Proof.
  induction neighbors as [|nb rest IH]; intros s s'; simpl.
  - intros [= <-] Hlive. split; [assumption|]. split; [eauto|]. intros e [].
  - destruct (relax c u line s nb) as [s1|x] eqn:E; simpl; [|discriminate].
    intros H Hlive.
    destruct (relax_frontier D _ _ _ _ _ _ E Hlive) as (Hlive1 & Hfin1 & Hnb).
    destruct (IH _ _ H Hlive1) as (Hlive' & Hfin' & Hrest).
    split; [assumption|]. split.
    + intros v d Hv. destruct (Hfin1 v d Hv) as [d1 Hd1]. eauto.
    + intros e [<-|He]; [|auto]. destruct Hnb as [d Hd]. eauto.
Qed.

Lemma search_frontier graph start_stop_id end_stop_id :
  forall fuel done s s',
    frontier_inv graph start_stop_id end_stop_id done s ->
    search fuel graph end_stop_id s = Some (Ok (false, s')) ->
    exists done',
      frontier_inv graph start_stop_id end_stop_id done' s' /\ priority_queue s' = [].
Proof.
  induction fuel as [|fuel IH]; intros done s s' Hinv H; simpl in H; [discriminate|].
  destruct (heappop (priority_queue s)) as [[[[c u] line] q']|] eqn:Hp.
  2:{ inversion H; subst s'. exists done. split; [assumption|]. now apply heappop_none. }
  destruct (heappop_spec _ _ _ Hp) as (_ & Hin & _).
  destruct (distances s !! u) as [du|] eqn:Hdu; [|discriminate].
  destruct Hinv as [Hstart Hlive Hedges Hend].
  destruct (cost_gt c du) eqn:Hgt.
  - apply (IH done (mkSearchState (distances s) (predecessors s) q') s'); [|exact H].
    constructor; simpl; try assumption.
    intros v d Hv. destruct (Hlive v d Hv) as [?|[l Hl]]; [now left|].
    apply Hin in Hl as [[= -> -> ->]|Hl]; [|right; eauto].
    rewrite Hdu in Hv. inversion Hv; subst du. simpl in Hgt.
    apply Nat.ltb_lt in Hgt. lia.
  - destruct (Z.eqb_spec u end_stop_id) as [->|Hne]; [discriminate|].
    destruct (relax_all c u line (default [] (graph !! u))
                (mkSearchState (distances s) (predecessors s) q')) as [s2|x] eqn:E;
      [|discriminate].
    assert (forall v d, distances s !! v = Some (Finite d) ->
              v ∈ ({[u]} ∪ done : gset Z) \/ exists line', In (d, v, line') q') as Hlive1.
    { intros v d Hv. destruct (Hlive v d Hv) as [?|[l Hl]].
      - left. apply elem_of_union. now right.
      - apply Hin in Hl as [[= -> -> ->]|Hl]; [|right; eauto].
        left. apply elem_of_union. left. now apply elem_of_singleton. }
    destruct (relax_all_frontier ({[u]} ∪ done) _ _ _ _ _ _ E Hlive1)
      as (Hlive2 & Hfin & Hnbs).
    apply (IH ({[u]} ∪ done) s2 s'); [|exact H].
    constructor.
    + destruct Hstart as [d Hd]. exact (Hfin _ _ Hd).
    + exact Hlive2.
    + intros u' e Hu' He. apply elem_of_union in Hu' as [Hu'|Hu'].
      * apply elem_of_singleton in Hu'. subst u'. apply Hnbs, list_elem_of_In, He.
      * destruct (Hedges u' e Hu' He) as [d Hd]. exact (Hfin _ _ Hd).
    + intros Hc. apply elem_of_union in Hc as [Hc|Hc]; [|contradiction].
      apply elem_of_singleton in Hc. congruence.
Qed.

Lemma initial_state_frontier graph st start_stop_id end_stop_id :
  frontier_inv graph start_stop_id end_stop_id ∅ (initial_state st start_stop_id).
Proof.
  constructor; simpl.
  - rewrite lookup_insert_eq. eauto.
  - intros v d. destruct (decide (v = start_stop_id)) as [->|Hne].
    + rewrite lookup_insert_eq. intros [= <-]. right. exists None. now left.
    + rewrite lookup_insert_ne by congruence. intros Hv.
      apply elem_of_list_to_map_2, list_elem_of_In, in_map_iff in Hv as (stop & E & _).
      discriminate.
  - intros u e Hu. now apply elem_of_empty in Hu.
  - apply not_elem_of_empty.
Qed.

(** When the search ends without having popped the end stop, no walk of the
    graph leads from the start stop to the end stop. *)
Lemma search_unreachable graph st start_stop_id end_stop_id fuel s hops :
  search fuel graph end_stop_id (initial_state st start_stop_id) = Some (Ok (false, s)) ->
  ~ is_walk graph start_stop_id hops end_stop_id.
Proof.
  intros H.
  destruct (search_frontier graph start_stop_id end_stop_id fuel ∅ _ s
              (initial_state_frontier graph st start_stop_id end_stop_id) H)
    as (done & [Hstart Hlive Hedges Hend] & Hq).
  assert (forall v d, distances s !! v = Some (Finite d) -> v ∈ done) as Hdone.
  { intros v d Hv. destruct (Hlive v d Hv) as [?|[l Hl]]; [assumption|].
    rewrite Hq in Hl. destruct Hl. }
  assert (forall hops v, v ∈ done -> ~ is_walk graph v hops end_stop_id) as Hclosed.
  { clear hops. induction hops as [|e hops IH]; intros v Hv; simpl.
    - intros <-. contradiction.
    - intros [He Hw]. destruct (Hedges v e Hv He) as [d Hd].
      exact (IH _ (Hdone _ _ Hd) Hw). }
  destruct Hstart as [d Hd]. exact (Hclosed hops _ (Hdone _ _ Hd)).
Qed.

Lemma is_walk_app graph a h1 b h2 c :
  is_walk graph a h1 b -> is_walk graph b h2 c -> is_walk graph a (h1 ++ h2) c.
Proof.
  revert a. induction h1 as [|e h1 IH]; intros a; simpl.
  - now intros ->.
  - intros [He Hw] H2. split; [assumption|]. now apply IH.
Qed.

Lemma chained_rides_walk graph path :
  forall a b,
    chained a path b -> Forall (rides graph) path ->
    exists hops, is_walk graph a hops b.
Proof.
  induction path as [|leg path IH]; intros a b; simpl.
  - intros ->. now exists [].
  - intros [<- Hc] Hf.
    destruct (Forall_inv Hf) as (h1 & _ & Hw & _).
    destruct (IH _ _ Hc (Forall_inv_tail Hf)) as [h2 Hw2].
    exists (h1 ++ h2). eapply is_walk_app; eauto.
Qed.

(** What [find_shortest_path] returns is made of legs that can be ridden. *)
Lemma find_shortest_path_rides fuel st a b path :
  find_shortest_path fuel st a b = Some (Ok path) ->
  Forall (fun leg => rides (build_graph st) leg /\ numbered st leg) path.
Proof.
  unfold find_shortest_path. destruct (a =? b); [now intros [= <-]|].
  destruct (search fuel (build_graph st) b (initial_state st a)) as [[[found s]|e]|] eqn:E;
    [|discriminate..].
  destruct found; simpl; [|now intros [= <-]].
  intros H.
  apply (reconstruct_rides st (build_graph st) (predecessors s) a b
           (search_pred_edges _ _ _ _ _ _ (initial_state_pred_edges _ st a) E)
           fuel b [] path H); simpl; auto.
Qed.

Lemma find_shortest_path_chained fuel st a b path :
  find_shortest_path fuel st a b = Some (Ok path) -> path <> [] -> chained a path b.
Proof.
  unfold find_shortest_path. destruct (a =? b); [intros [= <-]; congruence|].
  destruct (search fuel _ _ _) as [[[[|] s]|e]|]; try discriminate; simpl.
  - intros H. eapply reconstruct_sound; [exact H|exact I|reflexivity].
  - intros [= <-]. congruence.
Qed.

Lemma line_stops_In st k s :
  In s (line_stops st k) <-> In s (all_route_segments st) /\ bus_line_id s = k.
Proof.
  unfold line_stops. rewrite order_by_In, filter_In, Z.eqb_eq. tauto.
Qed.

Lemma edge_calls st u e :
  e ∈ default [] (build_graph st !! u) ->
  calls_at st (nb_line_id e) u /\ calls_at st (nb_line_id e) (nb_stop_id e).
Proof.
  intros H. apply build_graph_links in H as (a & b & Hadj & Hj).
  apply adjacent_In in Hadj as [Ha Hb]. apply line_stops_In in Ha, Hb.
  destruct Ha as [Ha Hka], Hb as [Hb Hkb].
  destruct Hj as [[-> ->]|[-> ->]]; simpl in *; split;
    ((now exists a) || (now exists b)).
Qed.

Lemma walk_calls st k :
  forall hops u v,
    hops <> [] -> is_walk (build_graph st) u hops v ->
    Forall (fun e => nb_line_id e = k) hops ->
    calls_at st k u /\ calls_at st k v.
Proof.
  induction hops as [|e hops IH]; intros u v Hne Hw Hf; [congruence|].
  destruct Hw as [He Hw]. pose proof (Forall_inv Hf) as Hk.
  destruct (edge_calls st u e He) as [Hu Hn]. rewrite Hk in Hu, Hn.
  split; [assumption|]. destruct hops as [|e' hops]; [simpl in Hw; now subst v|].
  apply (IH _ _ ltac:(discriminate) Hw (Forall_inv_tail Hf)).
Qed.

Lemma adjacent_connected {A} (R : A -> A -> Prop) (l : list A) :
  (forall x, R x x) ->
  (forall x y z, R x y -> R y z -> R x z) ->
  (forall a b, adjacent a b l -> R a b /\ R b a) ->
  forall x y, In x l -> In y l -> R x y.
Proof.
  intros Hrefl Htrans. induction l as [|h t IH]; intros Hadj x y Hx Hy; [destruct Hx|].
  assert (forall x y, In x t -> In y t -> R x y) as IH'
    by (apply IH; intros a b Hab; apply Hadj, adjacent_cons; now right).
  assert (forall z, In z t -> R h z /\ R z h) as Hh.
  { intros z Hz. destruct t as [|h2 t']; [destruct Hz|].
    destruct (Hadj h h2) as [H1 H2]; [apply adjacent_cons; left; eauto|].
    split.
    - apply (Htrans _ h2); [exact H1|]. apply IH'; [now left|assumption].
    - apply (Htrans _ h2); [|exact H2]. apply IH'; [assumption|now left]. }
  destruct Hx as [<-|Hx], Hy as [<-|Hy].
  - apply Hrefl.
  - now apply Hh.
  - now apply Hh.
  - now apply IH'.
Qed.

(** Any two stops of one line are joined by a walk over edges of that
    line. *)
Lemma line_walk st k u v :
  calls_at st k u -> calls_at st k v ->
  exists hops,
    is_walk (build_graph st) u hops v /\ Forall (fun e => nb_line_id e = k) hops.
Proof.
  intros (su & Hsu & Hku & <-) (sv & Hsv & Hkv & <-).
  apply (adjacent_connected
           (fun a b => exists hops,
                is_walk (build_graph st) (stop_id (bus_stop a)) hops (stop_id (bus_stop b))
                /\ Forall (fun e => nb_line_id e = k) hops)
           (line_stops st k)).
  - intros x. now exists [].
  - intros x y z (h1 & Hw1 & Hf1) (h2 & Hw2 & Hf2). exists (h1 ++ h2).
    split; [eapply is_walk_app; eauto|]. apply Forall_app. auto.
  - intros a b Hab. split.
    + exists [mkEdge (stop_id (bus_stop b)) k (line_number (bus_line a))]. simpl.
      split; [|now repeat constructor]. split; [|reflexivity].
      apply build_graph_links. exists a, b. split; [exact Hab|]. now left.
    + exists [mkEdge (stop_id (bus_stop a)) k (line_number (bus_line a))]. simpl.
      split; [|now repeat constructor]. split; [|reflexivity].
      apply build_graph_links. exists a, b. split; [exact Hab|]. now right.
  - apply line_stops_In. auto.
  - apply line_stops_In. auto.
Qed.

(** X8. The network graph has exactly the edges of stops next to each other on
    a line: an edge leaves stop [u] for line [k] precisely when two segments
    stand side by side in the segments of [k] sorted by order, one of them at
    [u] and the other at the stop the edge leads to; the edge carries the
    line number of the earlier segment. Every edge has its return edge, both
    ends of an edge are stops of its line, and any two stops of a line are
    joined by a walk over edges of that line. *)
Theorem build_graph_edges (st : Store) :
  (forall u e,
      e ∈ default [] (build_graph st !! u)
      <-> exists a b,
            adjacent a b (line_stops st (nb_line_id e)) /\ joins (nb_line_id e) a b u e)
  /\ (forall u e,
        e ∈ default [] (build_graph st !! u) ->
        mkEdge u (nb_line_id e) (nb_line_number e)
          ∈ default [] (build_graph st !! nb_stop_id e))
  /\ (forall u e,
        e ∈ default [] (build_graph st !! u) ->
        calls_at st (nb_line_id e) u /\ calls_at st (nb_line_id e) (nb_stop_id e))
  /\ (forall k u v,
        calls_at st k u -> calls_at st k v ->
        exists hops,
          is_walk (build_graph st) u hops v /\ Forall (fun e => nb_line_id e = k) hops).
Proof.
  split; [intros u e; apply build_graph_links|].
  split; [|split; [intros u e; apply edge_calls|intros k u v; apply line_walk]].
  intros u e H. apply build_graph_links in H as (a & b & Hadj & Hj).
  apply build_graph_links. simpl. exists a, b.
  destruct Hj as [[-> ->]|[-> ->]]; simpl in *; (split; [exact Hadj|]);
    [right|left]; split; reflexivity.
Qed.

(** X9. Every leg of a path that [find_shortest_path] returns can be ridden:
    a walk of the network graph leads from the leg's start stop to its end
    stop over edges of the leg's line only, that line has a segment at both
    stops, and the leg shows the number the line table has for that line. *)
Theorem find_shortest_path_legs_ride
    (fuel : nat) (st : Store) (start_stop_id end_stop_id : Z) (path : list Leg) :
  find_shortest_path fuel st start_stop_id end_stop_id = Some (Ok path) ->
  Forall (fun leg =>
            rides (build_graph st) leg
            /\ calls_at st (leg_line_id leg) (leg_start_stop_id leg)
            /\ calls_at st (leg_line_id leg) (leg_end_stop_id leg)
            /\ leg_line_number leg = line_number <$> line_by_id st (leg_line_id leg))
         path.
Proof.
  intros H. apply find_shortest_path_rides in H.
  eapply Forall_impl; [exact H|]. simpl. intros leg [Hr Hn].
  split; [assumption|]. destruct Hr as (hops & Hne & Hw & Hf).
  destruct (walk_calls st _ _ _ _ Hne Hw Hf) as [Hs He]. auto.
Qed.

Lemma find_shortest_path_legs_ride_witness :
  Forall (fun leg =>
            rides (build_graph scenario_store) leg
            /\ calls_at scenario_store (leg_line_id leg) (leg_start_stop_id leg)
            /\ calls_at scenario_store (leg_line_id leg) (leg_end_stop_id leg)
            /\ leg_line_number leg
               = line_number <$> line_by_id scenario_store (leg_line_id leg))
         [mkLeg 1 3 1 (Some 10); mkLeg 3 4 2 (Some 20)].
Proof.
  apply (find_shortest_path_legs_ride 10 scenario_store 1 4). reflexivity.
Defined.

(** X1. On a store with referential integrity [find_shortest_path] returns a
    path and raises nothing, and the path is not empty exactly when the two
    stops differ and some walk of the network graph leads from the start stop
    to the end stop. *)
Theorem find_shortest_path_reaches (st : Store) (start_stop_id end_stop_id : Z) :
  referential_integrity st ->
  exists fuel path,
    (forall fuel', (fuel <= fuel')%nat ->
       find_shortest_path fuel' st start_stop_id end_stop_id = Some (Ok path))
    /\ (path <> []
        <-> start_stop_id <> end_stop_id
            /\ exists hops, is_walk (build_graph st) start_stop_id hops end_stop_id).
Proof.
  intros Hri.
  destruct (find_shortest_path_returns st start_stop_id end_stop_id Hri)
    as (fuel & path & Hret & Hempty).
  exists fuel, path. split; [assumption|]. split.
  - intros Hne. pose proof (Hret fuel (Nat.le_refl _)) as H. split.
    + intros ->. unfold find_shortest_path in H. rewrite Z.eqb_refl in H. congruence.
    + apply (chained_rides_walk (build_graph st) path).
      * exact (find_shortest_path_chained _ _ _ _ _ H Hne).
      * apply find_shortest_path_rides in H. eapply Forall_impl; [exact H|]. now intros ? [? _].
  - intros [Hne [hops Hw]] ->.
    destruct (Hempty eq_refl) as [?|(fuel' & s & Hs)]; [contradiction|].
    exact (search_unreachable _ _ _ _ _ _ hops Hs Hw).
Qed.

Lemma find_shortest_path_reaches_witness :
  exists fuel path,
    (forall fuel', (fuel <= fuel')%nat ->
       find_shortest_path fuel' scenario_store 1 4 = Some (Ok path))
    /\ (path <> []
        <-> 1 <> 4 /\ exists hops, is_walk (build_graph scenario_store) 1 hops 4).
Proof.
  apply (find_shortest_path_reaches scenario_store 1 4).
  exact scenario_store_integrity.
Defined.

(** ** Route Assembly: the transfer route of [search_route] *)

Lemma serves_calls st line stop :
  serves st line stop <-> calls_at st (line_id line) (stop_id stop).
Proof.
  unfold serves, calls_at, on_line, at_stop.
  split; intros (s & Hin & Hl & Hs); exists s; (split; [assumption|]).
  - apply Z.eqb_eq in Hl, Hs. auto.
  - now rewrite Hl, Hs, !Z.eqb_refl.
Qed.

Lemma head_filter_some {A} (p : A -> bool) (l : list A) x :
  In x l -> p x = true -> exists y, head (List.filter p l) = Some y /\ p y = true.
Proof.
  intros Hin Hp.
  destruct (List.filter p l) as [|y t] eqn:E.
  - exfalso. apply (in_nil (a := x)). rewrite <- E. apply filter_In. auto.
  - exists y. split; [reflexivity|].
    assert (In y (List.filter p l)) as Hy by (rewrite E; now left).
    now apply filter_In in Hy.
Qed.

Lemma line_by_id_some st k u :
  line_integrity st -> calls_at st k u ->
  exists line, line_by_id st k = Some line /\ line_id line = k.
Proof.
  intros Hli (s & Hin & Hk & _). destruct (Hli s Hin) as (line & Hline & Hid).
  destruct (head_filter_some (fun l => line_id l =? k) (all_lines st) line Hline)
    as (y & Hy & Hp); [apply Z.eqb_eq; congruence|].
  exists y. split; [exact Hy|now apply Z.eqb_eq].
Qed.

Lemma stop_by_id_some st k u :
  referential_integrity st -> calls_at st k u ->
  exists stop, stop_by_id st u = Some stop /\ stop_id stop = u.
Proof.
  intros Hri (s & Hin & _ & Hu). destruct (Hri s Hin) as (stop & Hstop & Hid).
  destruct (head_filter_some (fun x => stop_id x =? u) (all_stops st) stop Hstop)
    as (y & Hy & Hp); [apply Z.eqb_eq; congruence|].
  exists y. split; [exact Hy|now apply Z.eqb_eq].
Qed.

Lemma get_segment_details_some osrm st line start_stop end_stop :
  serves st line start_stop -> serves st line end_stop ->
  exists d, get_segment_details osrm st line start_stop end_stop = Ok (Some d).
Proof.
  intros HX HY.
  destruct (first_segment_some _ _ _ HX) as (sx & Fx & Hxin & Hxl & _).
  destruct (first_segment_some _ _ _ HY) as (sy & Fy & _).
  destruct (get_segment_details_slice osrm _ _ _ _ _ _ Fx Fy Hxin Hxl) as (d & Ed & _).
  eauto.
Qed.

(** With both kinds of integrity no leg of a path is skipped: every leg
    whose line calls at its two stops adds its details. *)
Lemma transfer_legs_all osrm st :
  referential_integrity st -> line_integrity st ->
  forall path acc,
    Forall (fun leg => calls_at st (leg_line_id leg) (leg_start_stop_id leg)
                       /\ calls_at st (leg_line_id leg) (leg_end_stop_id leg)) path ->
    exists details distance time,
      transfer_legs osrm st path acc = Ok (details, distance, time)
      /\ length details = (length (fst (fst acc)) + length path)%nat.
Proof.
  intros Hri Hli. induction path as [|leg path IH]; intros [[details distance] time] Hf.
  - simpl. exists details, distance, time. split; [reflexivity|lia].
  - destruct (Forall_inv Hf) as [Hs He].
    destruct (line_by_id_some st _ _ Hli Hs) as (line & Hline & Hlid).
    destruct (stop_by_id_some st _ _ Hri Hs) as (s1 & Hs1 & Hid1).
    destruct (stop_by_id_some st _ _ Hri He) as (s2 & Hs2 & Hid2).
    destruct (get_segment_details_some osrm st line s1 s2) as [d Hd].
    { apply serves_calls. now rewrite Hlid, Hid1. }
    { apply serves_calls. now rewrite Hlid, Hid2. }
    simpl. rewrite Hline, Hs1, Hs2, Hd. simpl.
    destruct (IH (details ++ [(line_number line, d)],
                  match total_distance_km d with
                  | Some distance_km => float_add distance distance_km
                  | None => distance
                  end,
                  match total_time_minutes d with
                  | Some time_minutes => float_add time time_minutes
                  | None => time
                  end) (Forall_inv_tail Hf))
      as (details' & distance' & time' & E & Hlen).
    exists details', distance', time'. split; [exact E|].
    simpl in Hlen. rewrite length_app in Hlen. simpl in *. lia.
Qed.

(** The path search on a store with referential integrity, with both
    readings of its result. *)
Lemma find_shortest_path_decides st a b :
  referential_integrity st ->
  exists fuel path,
    (forall fuel', (fuel <= fuel')%nat ->
       find_shortest_path fuel' st a b = Some (Ok path))
    /\ (path = [] -> ~ (a <> b /\ exists hops, is_walk (build_graph st) a hops b))
    /\ (path <> [] -> a <> b /\ exists hops, is_walk (build_graph st) a hops b)
    /\ Forall (fun leg => calls_at st (leg_line_id leg) (leg_start_stop_id leg)
                          /\ calls_at st (leg_line_id leg) (leg_end_stop_id leg)) path.
Proof.
  intros Hri.
  destruct (find_shortest_path_returns st a b Hri) as (fuel & path & Hret & Hempty).
  exists fuel, path. split; [assumption|].
  pose proof (Hret fuel (Nat.le_refl _)) as H. split; [|split].
  - intros E [Hne [hops Hw]].
    destruct (Hempty E) as [?|(fuel' & s & Hs)]; [contradiction|].
    exact (search_unreachable _ _ _ _ _ _ hops Hs Hw).
  - intros Hne. split.
    + intros ->. unfold find_shortest_path in H. rewrite Z.eqb_refl in H. congruence.
    + apply (chained_rides_walk (build_graph st) path).
      * exact (find_shortest_path_chained _ _ _ _ _ H Hne).
      * apply find_shortest_path_rides in H. eapply Forall_impl; [exact H|]. now intros ? [? _].
  - apply find_shortest_path_rides in H. eapply Forall_impl; [exact H|]. simpl.
    intros leg [(hops & Hne & Hw & Hf) _]. exact (walk_calls st _ _ _ _ Hne Hw Hf).
Qed.

(** X10. When no line calls at both resolved stops and the store has
    referential integrity, the stop search of [search_route] shows either
    one transfer route or the message that no route was found, and never an
    error: the transfer route when the two stops differ and a walk of the
    network graph joins them, the message otherwise. No leg of the path is
    dropped from the route, so the number of transfers shown is the number of
    legs shown less one. *)
Theorem search_route_transfer_page
    (osrm : list (Q * Q) -> http_reply) (st : Store) (raw1 raw2 : pystr) (X Y : BusStop) :
  referential_integrity st -> line_integrity st ->
  raw1 <> [] -> raw2 <> [] ->
  get_bus_stop_object st raw1 = Some X ->
  get_bus_stop_object st raw2 = Some Y ->
  common_bus_lines st X Y = [] ->
  exists fuel page,
    (forall fuel', (fuel <= fuel')%nat ->
       search_route_bus_stop fuel' osrm st raw1 raw2 = Some page)
    /\ (stop_id X <> stop_id Y
        /\ (exists hops, is_walk (build_graph st) (stop_id X) hops (stop_id Y)) ->
        exists details distance time,
          page = mkSearchPage
                   [Transfer details distance time (Z.of_nat (length details) - 1)] None
          /\ details <> [])
    /\ (~ (stop_id X <> stop_id Y
           /\ exists hops, is_walk (build_graph st) (stop_id X) hops (stop_id Y)) ->
        page = mkSearchPage [] (Some (NoDirectOrTransferRoute X Y))).
Proof.
  intros Hri Hli H1 H2 R1 R2 Hc.
  destruct (find_shortest_path_decides st (stop_id X) (stop_id Y) Hri)
    as (fuel & path & Hret & Hempty & Hfull & Hcalls).
  destruct (transfer_legs_all osrm st Hri Hli path ([], Fl 0, Fl 0) Hcalls)
    as (details & distance & time & Ht & Hlen).
  simpl in Hlen.
  assert (forall fuel', (fuel <= fuel')%nat ->
            search_route_bus_stop fuel' osrm st raw1 raw2
            = Some (match path with
                    | [] => mkSearchPage [] (Some (NoDirectOrTransferRoute X Y))
                    | _ :: _ =>
                        mkSearchPage
                          [Transfer details
                             (if float_pos distance
                              then Some (float_round distance 2) else None)
                             (if float_pos time
                              then Some (float_round time 0) else None)
                             (Z.of_nat (length details) - 1)] None
                    end)) as Hpage.
  { intros fuel' Hf. unfold search_route_bus_stop, search_bus_stop_try.
    destruct raw1; [congruence|]. destruct raw2; [congruence|]. simpl qs_exists. simpl.
    rewrite R1, R2, (direct_bus_lines_nil _ _ _ Hc), (Hret fuel' Hf). simpl.
    destruct path as [|leg path]; [reflexivity|]. simpl qs_exists. cbv iota.
    rewrite Ht. destruct details as [|x details]; [simpl in Hlen; lia|].
    simpl qs_exists. cbv iota. rewrite Hlen. reflexivity. }
  eexists fuel, _. split; [exact Hpage|]. split.
  - intros Hw. destruct path as [|leg path]; [exfalso; now apply Hempty|].
    eexists details, _, _. split; [reflexivity|].
    destruct details; [simpl in Hlen; lia|discriminate].
  - intros Hn. destruct path as [|leg path]; [reflexivity|].
    exfalso. apply Hn, Hfull. discriminate.
Qed.

Lemma shared_stretch_store_integrity :
  referential_integrity shared_stretch_store /\ line_integrity shared_stretch_store.
Proof.
  split; intros seg Hseg; vm_compute in Hseg;
    repeat (destruct Hseg as [<-|Hseg];
            [eexists; split; [|reflexivity]; vm_compute; tauto|]);
    contradiction.
Qed.

Lemma search_route_transfer_page_witness :
  exists fuel page,
    (forall fuel', (fuel <= fuel')%nat ->
       search_route_bus_stop fuel' osrm_down shared_stretch_store (py "P1") (py "P4")
       = Some page)
    /\ (stop_id P1 <> stop_id P4
        /\ (exists hops,
              is_walk (build_graph shared_stretch_store) (stop_id P1) hops (stop_id P4)) ->
        exists details distance time,
          page = mkSearchPage
                   [Transfer details distance time (Z.of_nat (length details) - 1)] None
          /\ details <> [])
    /\ (~ (stop_id P1 <> stop_id P4
           /\ exists hops,
                is_walk (build_graph shared_stretch_store) (stop_id P1) hops (stop_id P4)) ->
        page = mkSearchPage [] (Some (NoDirectOrTransferRoute P1 P4))).
Proof.
  apply (search_route_transfer_page osrm_down shared_stretch_store (py "P1") (py "P4") P1 P4).
  - exact (proj1 shared_stretch_store_integrity).
  - exact (proj2 shared_stretch_store_integrity).
  - discriminate.
  - discriminate.
  - reflexivity.
  - reflexivity.
  - reflexivity.
Defined.

(** ** Saved routes *)

(** X11. On a store with referential integrity [view_saved_route] raises
    nothing. It reports that no routes were found exactly when it has no
    result to show, which is when no line calls at both stops and no walk of
    the network graph joins two different stops. When a line calls at both
    of two different stops, the page shows the direct lines and a shortest
    path as well. *)
Theorem view_saved_route_page (st : Store) (start_stop end_stop : BusStop) :
  referential_integrity st ->
  exists fuel page,
    (forall fuel', (fuel <= fuel')%nat ->
       view_saved_route fuel' st start_stop end_stop = Some (Ok page))
    /\ (sr_error_message page = Some NoRoutesFound <-> sr_results page = [])
    /\ (sr_results page = []
        <-> common_bus_lines st start_stop end_stop = []
            /\ ~ (stop_id start_stop <> stop_id end_stop
                  /\ exists hops,
                       is_walk (build_graph st) (stop_id start_stop) hops (stop_id end_stop)))
    /\ (common_bus_lines st start_stop end_stop <> [] ->
        stop_id start_stop <> stop_id end_stop ->
        exists path,
          path <> []
          /\ sr_results page
             = [DirectLines (direct_bus_lines st start_stop end_stop) start_stop end_stop;
                ShortestPath path start_stop end_stop]).
Proof.
  intros Hri.
  destruct (find_shortest_path_decides st (stop_id start_stop) (stop_id end_stop) Hri)
    as (fuel & path & Hret & Hempty & Hfull & _).
  destruct (direct_bus_lines_sorted st start_stop end_stop) as [Hperm _].
  eexists fuel, _. split.
  { intros fuel' Hf. unfold view_saved_route. rewrite (Hret fuel' Hf). reflexivity. }
  assert (direct_bus_lines st start_stop end_stop = []
          <-> common_bus_lines st start_stop end_stop = []) as Hnil.
  { split; intros E; rewrite E in Hperm.
    - now apply Permutation_nil in Hperm.
    - symmetry in Hperm. now apply Permutation_nil in Hperm. }
  simpl. split; [|split].
  - destruct (direct_bus_lines st start_stop end_stop), path; simpl; split; congruence.
  - rewrite <- Hnil.
    destruct (direct_bus_lines st start_stop end_stop) as [|l ls], path as [|leg path];
      simpl; split; try (intros [Hd Hn]); try congruence; try discriminate.
    + intros _. split; [reflexivity|]. now apply Hempty.
    + exfalso. apply Hn, Hfull. discriminate.
  - intros Hc Hne.
    destruct (direct_bus_lines st start_stop end_stop) as [|l ls] eqn:Ed;
      [exfalso; now apply Hc, Hnil|].
    destruct path as [|leg path].
    + exfalso. apply (Hempty eq_refl). split; [assumption|].
      destruct (common_bus_lines st start_stop end_stop) as [|line lines] eqn:Ec;
        [congruence|].
      destruct (common_bus_lines_serves st start_stop end_stop line) as [HX HY];
        [rewrite Ec; now left|].
      apply serves_calls in HX, HY.
      destruct (line_walk st _ _ _ HX HY) as (hops & Hw & _). eauto.
    + exists (leg :: path). split; [discriminate|reflexivity].
Qed.

Lemma view_saved_route_page_witness :
  exists fuel page,
    (forall fuel', (fuel <= fuel')%nat ->
       view_saved_route fuel' scenario_store P1 P3 = Some (Ok page))
    /\ (sr_error_message page = Some NoRoutesFound <-> sr_results page = [])
    /\ (sr_results page = []
        <-> common_bus_lines scenario_store P1 P3 = []
            /\ ~ (stop_id P1 <> stop_id P3
                  /\ exists hops,
                       is_walk (build_graph scenario_store) (stop_id P1) hops (stop_id P3)))
    /\ (common_bus_lines scenario_store P1 P3 <> [] ->
        stop_id P1 <> stop_id P3 ->
        exists path,
          path <> []
          /\ sr_results page
             = [DirectLines (direct_bus_lines scenario_store P1 P3) P1 P3;
                ShortestPath path P1 P3]).
Proof.
  apply (view_saved_route_page scenario_store P1 P3). exact scenario_store_integrity.
Defined.

(** ** Line search: what the full-line view shows *)

Lemma sorted_head_least (key : RouteSegment -> Z) l x :
  head (order_by (le_key key) l) = Some x ->
  In x l /\ forall y, In y l -> key x <= key y.
Proof.
  intros H. pose proof (order_by_sorted key l) as Hs.
  destruct (order_by (le_key key) l) as [|h t] eqn:E; [discriminate|].
  inversion H; subst h.
  assert (forall y, In y l <-> In y (x :: t)) as Hin
    by (intros y; rewrite <- E; symmetry; apply order_by_In).
  split; [apply Hin; now left|].
  intros y Hy. apply Hin in Hy as [<-|Hy]; [lia|].
  apply StronglySorted_inv in Hs as [_ Hx]. rewrite Forall_forall in Hx.
  apply Hx, list_elem_of_In, Hy.
Qed.

Lemma all_segments_head st line x :
  head (all_segments st line) = Some x ->
  In x (all_route_segments st) /\ on_line line x = true
  /\ forall y, In y (all_route_segments st) -> on_line line y = true -> order x <= order y.
Proof.
  intros H. apply (sorted_head_least order) in H as [Hin Hmin].
  apply filter_In in Hin as [Hin Hl]. split; [assumption|]. split; [assumption|].
  intros y Hy Hly. apply Hmin, filter_In. auto.
Qed.

Lemma last_segment_greatest st line x :
  last_segment st line = Some x ->
  In x (all_route_segments st) /\ on_line line x = true
  /\ forall y, In y (all_route_segments st) -> on_line line y = true -> order y <= order x.
Proof.
  unfold last_segment. rewrite (order_by_ext _ _ _ by_order_desc_le_key).
  intros H. apply (sorted_head_least (fun s => - order s)) in H as [Hin Hmin].
  apply filter_In in Hin as [Hin Hl]. split; [assumption|]. split; [assumption|].
  intros y Hy Hly. assert (In y (List.filter (on_line line) (all_route_segments st))) as Hf
    by (apply filter_In; auto).
  specialize (Hmin y Hf). lia.
Qed.

Lemma first_segment_least st line stop s :
  first_segment st line stop = Some s ->
  forall y, In y (all_route_segments st) -> on_line line y = true -> at_stop stop y = true ->
            order s <= order y.
Proof.
  unfold first_segment. intros H y Hy Hl Hs.
  apply (sorted_head_least order) in H as [_ Hmin].
  apply Hmin, filter_In. split; [assumption|]. now rewrite Hl, Hs.
Qed.

Lemma all_segments_increasing st line :
  line_orders_distinct st line -> increasing order (all_segments st line).
Proof. intros Hd. unfold all_segments. now apply order_by_increasing. Qed.

(** Equal orders on a line with distinct orders belong to one segment. *)
Lemma line_orders_distinct_inj st line a b :
  line_orders_distinct st line ->
  In a (all_route_segments st) -> on_line line a = true ->
  In b (all_route_segments st) -> on_line line b = true ->
  order a = order b -> a = b.
Proof.
  intros Hd Ha Hla Hb Hlb E.
  pose proof (all_segments_increasing st line Hd) as Hinc.
  assert (In a (all_segments st line)) as Ia by (apply line_segments_In; auto).
  assert (In b (all_segments st line)) as Ib by (apply line_segments_In; auto).
  apply list_elem_of_In, list_elem_of_lookup in Ia as [i Hi].
  apply list_elem_of_In, list_elem_of_lookup in Ib as [j Hj].
  assert (i = j) by (eapply (increasing_lookup_inj order); eauto). subst j. congruence.
Qed.

(** X12. The full-line view of a line found by its number. A line without
    segments gives the message that no segments were found; a line with
    segments always gives exactly one result and no message. On a line with
    pairwise distinct orders whose last stop stands at one position only, the
    result lists every segment of the line by increasing order; but when the
    last stop is the first stop as well, as on a circular line, the result
    holds the first stop alone. *)
Theorem search_route_full_line
    (osrm : list (Q * Q) -> http_reply) (st : Store) (n : Z) (bus_line : BusLine) :
  get_line_by_number st n = Got bus_line ->
  line_number bus_line = n
  /\ (all_segments st bus_line = [] ->
      search_route_bus_line osrm st n = mkLinePage [] (Some (NoSegmentsFound n)))
  /\ (forall first last,
        head (all_segments st bus_line) = Some first ->
        last_segment st bus_line = Some last ->
        exists data,
          search_route_bus_line osrm st n
          = mkLinePage [mkFullLine data n (stop_id (bus_stop first)) (stop_id (bus_stop last))]
                       None
          /\ (line_orders_distinct st bus_line ->
              single_order st bus_line (bus_stop last) ->
              route_stops data = List.map display_row (all_segments st bus_line)
              /\ stops_count data = length (all_segments st bus_line))
          /\ (line_orders_distinct st bus_line ->
              stop_id (bus_stop first) = stop_id (bus_stop last) ->
              route_stops data = [display_row first] /\ stops_count data = 1%nat)).
Proof.
  intros Hget. unfold search_route_bus_line. rewrite Hget.
  assert (line_number bus_line = n) as Hn.
  { unfold get_line_by_number in Hget.
    destruct (List.filter _ _) as [|l [|l' ls]] eqn:E; try discriminate.
    inversion Hget; subst l.
    assert (In bus_line (List.filter (fun l => line_number l =? n) (all_lines st))) as Hin
      by (rewrite E; now left).
    apply filter_In in Hin as [_ Hin]. now apply Z.eqb_eq. }
  split; [exact Hn|]. split.
  - intros E. unfold full_line. rewrite E. simpl. now rewrite Hn.
  - intros first last Hfirst Hlast.
    assert (qs_exists (all_segments st bus_line) = true) as Hex
      by (destruct (all_segments st bus_line); [discriminate|reflexivity]).
    unfold full_line. rewrite Hex, Hfirst, Hlast.
    destruct (all_segments_head _ _ _ Hfirst) as (Hfin & Hfl & Hfmin).
    destruct (last_segment_greatest _ _ _ Hlast) as (Hlin & Hll & Hlmax).
    assert (serves st bus_line (bus_stop first)) as HX
      by (exists first; unfold at_stop; now rewrite Z.eqb_refl).
    assert (serves st bus_line (bus_stop last)) as HY
      by (exists last; unfold at_stop; now rewrite Z.eqb_refl).
    destruct (first_segment_some _ _ _ HX) as (sx & Fx & Hxin & Hxl & Hxs).
    destruct (first_segment_some _ _ _ HY) as (sy & Fy & Hyin & Hyl & Hys).
    destruct (get_segment_details_slice osrm _ _ _ _ _ _ Fx Fy Hxin Hxl)
      as (data & Ed & Rd & Cd).
    rewrite Ed. simpl. rewrite Hn. exists data. split; [reflexivity|].
    assert (order sx = order first) as Ex.
    { pose proof (first_segment_least _ _ _ _ Fx first Hfin Hfl) as H1.
      specialize (Hfmin sx Hxin Hxl).
      unfold at_stop in H1. rewrite Z.eqb_refl in H1. specialize (H1 eq_refl). lia. }
    split.
    + intros Hd Hsingle.
      assert (order sy = order last) as Ey.
      { apply (Hsingle sy last); try assumption. unfold at_stop. apply Z.eqb_refl. }
      assert (segment_slice st bus_line (order sx) (order sy) = all_segments st bus_line)
        as Eslice.
      { rewrite Ex, Ey. apply (increasing_ext order).
        - apply segment_slice_increasing; [assumption|]. now apply Hfmin.
        - now apply all_segments_increasing.
        - intros s. unfold all_segments. rewrite segment_slice_In, line_segments_In.
          split; [tauto|]. intros [Hs Hsl]. split; [assumption|]. split; [assumption|].
          specialize (Hfmin s Hs Hsl). specialize (Hlmax s Hs Hsl).
          rewrite Z.min_l, Z.max_r by lia. lia. }
      rewrite Rd, Cd, Eslice. auto.
    + intros Hd Hsame.
      assert (order sy = order first) as Ey.
      { pose proof (first_segment_least _ _ _ _ Fy first Hfin Hfl) as H1.
        specialize (Hfmin sy Hyin Hyl).
        unfold at_stop in H1. rewrite Hsame, Z.eqb_refl in H1. specialize (H1 eq_refl). lia. }
      assert (segment_slice st bus_line (order sx) (order sy) = [first]) as Eslice.
      { rewrite Ex, Ey. apply (increasing_ext order).
        - apply segment_slice_increasing; [assumption|lia].
        - repeat constructor.
        - intros s. rewrite segment_slice_In, Z.min_id, Z.max_id. simpl. split.
          + intros (Hs & Hsl & Ho). left. symmetry.
            apply (line_orders_distinct_inj st bus_line); try assumption. lia.
          + intros [<-|[]]. split; [assumption|]. split; [assumption|lia]. }
      rewrite Rd, Cd, Eslice. auto.
Qed.
Lemma search_route_full_line_witness :
  exists data,
    search_route_bus_line osrm_down loop_store 10
    = mkLinePage [mkFullLine data 10 1 1] None
    /\ route_stops data = [display_row (mkRouteSegment line10 P1 1)]
    /\ stops_count data = 1%nat.
Proof.
  destruct (search_route_full_line osrm_down loop_store 10 line10 eq_refl) as (_ & _ & H).
  destruct (H (mkRouteSegment line10 P1 1) (mkRouteSegment line10 P1 3) eq_refl eq_refl)
    as (data & E & _ & Hloop).
  exists data. split; [exact E|]. apply Hloop; [|reflexivity].
  unfold line_orders_distinct. apply (bool_decide_unpack _). vm_compute. reflexivity.
Defined.

(** ** Lines at a stop *)

Lemma insert_info_perm x l : Permutation (insert_info x l) (x :: l).
Proof.
  induction l as [|y l IH]; simpl; [reflexivity|].
  destruct (sl_bus_line_number x <=? sl_bus_line_number y); [reflexivity|].
  rewrite IH. apply perm_swap.
Qed.

Lemma insert_info_sorted x l :
  StronglySorted (fun a b => sl_bus_line_number a <= sl_bus_line_number b) l ->
  StronglySorted (fun a b => sl_bus_line_number a <= sl_bus_line_number b) (insert_info x l).
Proof.
  induction l as [|z l IH]; intros Hs; simpl.
  - repeat constructor.
  - apply StronglySorted_inv in Hs as [Hs Hz].
    destruct (Z.leb_spec (sl_bus_line_number x) (sl_bus_line_number z)) as [Hle|Hlt].
    + constructor; [constructor; assumption|].
      constructor; [assumption|]. eapply Forall_impl; [exact Hz|]. simpl. intros; lia.
    + constructor; [now apply IH|].
      rewrite (insert_info_perm x l). constructor; [lia|assumption].
Qed.

Lemma sorted_by_line_number_spec l :
  Permutation (sorted_by_line_number l) l
  /\ StronglySorted (fun a b => sl_bus_line_number a <= sl_bus_line_number b)
       (sorted_by_line_number l).
Proof.
  unfold sorted_by_line_number. induction l as [|x l [IHp IHs]]; simpl.
  - split; constructor.
  - split; [rewrite insert_info_perm; now constructor|now apply insert_info_sorted].
Qed.

Lemma sorted_distinct_increasing (l : list StopBusLine) :
  StronglySorted (fun a b => sl_bus_line_number a <= sl_bus_line_number b) l ->
  NoDup (List.map sl_bus_line_number l) ->
  StronglySorted Z.lt (List.map sl_bus_line_number l).
Proof.
  induction 1 as [|x l Hs IH Hx]; simpl; intros Hn; [constructor|].
  constructor; [apply IH; exact (NoDup_cons_1_2 _ _ Hn)|].
  apply Forall_forall. intros n Hin.
  apply list_elem_of_In, in_map_iff in Hin as (y & <- & Hy).
  rewrite Forall_forall in Hx. specialize (Hx y (proj2 (list_elem_of_In _ _) Hy)).
  assert (sl_bus_line_number x <> sl_bus_line_number y); [|lia].
  intros E. apply (NoDup_cons_1_1 _ _ Hn). rewrite E.
  apply list_elem_of_In, in_map, Hy.
Qed.

Lemma stop_lines_loop_spec osrm st target :
  forall segments_at_stop found processed,
    (forall seg, In seg segments_at_stop ->
       In seg (all_route_segments st) /\ at_stop target seg = true) ->
    exists found',
      stop_lines_loop osrm st target segments_at_stop (found, processed)
      = Ok (found ++ found')
      /\ NoDup (List.map sl_bus_line_number found')
      /\ (forall n,
            In n (List.map sl_bus_line_number found')
            <-> (n ∉ processed)
                /\ exists seg, In seg segments_at_stop /\ line_number (bus_line seg) = n)
      /\ Forall (fun r =>
                   sl_searched_stop_name r = name_en target
                   /\ exists seg,
                        In seg (all_route_segments st) /\ at_stop target seg = true
                        /\ line_number (bus_line seg) = sl_bus_line_number r
                        /\ sl_stops_count r = length (all_segments st (bus_line seg))
                        /\ (1 <= sl_stops_count r)%nat) found'.
Proof.
  induction segments_at_stop as [|seg rest IH]; intros found processed Hsegs.
  - exists []. simpl. rewrite app_nil_r. split; [reflexivity|]. split; [constructor|].
    split; [|constructor]. intros n. split; [intros []|intros (_ & s & [] & _)].
  - assert (forall s, In s rest -> In s (all_route_segments st) /\ at_stop target s = true)
      as Hrest by (intros s Hs; apply Hsegs; now right).
    destruct (Hsegs seg (or_introl eq_refl)) as [Hin Hat].
    cbn [stop_lines_loop]. destruct (bool_decide_reflect (line_number (bus_line seg) ∈ processed))
      as [Hp|Hp].
    + destruct (IH found processed Hrest) as (found' & E & Hnd & Hiff & Hall).
      exists found'. split; [exact E|]. split; [exact Hnd|]. split; [|exact Hall].
      intros n. rewrite Hiff. split.
      * intros (Hn & s & Hs & Es). split; [assumption|]. exists s. split; [now right|assumption].
      * intros (Hn & s & [<-|Hs] & Es); [subst n; contradiction|]. eauto.
    + rewrite get_route_details_from_osrm_eq. cbn [rbind].
      match goal with
      | |- context [if ?c then (None, None) else ?e] =>
          destruct (if c then (None, None) else e) as [dist time]
      end.
      match goal with
      | |- context [stop_lines_loop _ _ _ rest (found ++ [?r], ?p)] =>
          destruct (IH (found ++ [r]) p Hrest) as (found' & E & Hnd & Hiff & Hall);
          exists (r :: found')
      end.
      split; [rewrite E, <- app_assoc; reflexivity|].
      split; [|split].
      * simpl. apply NoDup_cons_2; [|exact Hnd].
        intros Hc. apply list_elem_of_In, Hiff in Hc as [Hc _].
        apply Hc, elem_of_union. left. now apply elem_of_singleton.
      * intros n. simpl. rewrite Hiff. split.
        -- intros [<-|(Hn & s & Hs & Es)].
           ++ split; [assumption|]. exists seg. split; [now left|reflexivity].
           ++ split; [intros Hc; apply Hn, elem_of_union; now right|].
              exists s. split; [now right|assumption].
        -- intros (Hn & s & Hs & Es).
           destruct (decide (line_number (bus_line seg) = n)) as [?|Hne]; [now left|].
           right. split.
           ++ intros Hc. apply elem_of_union in Hc as [Hc|Hc]; [|contradiction].
              apply elem_of_singleton in Hc. congruence.
           ++ destruct Hs as [<-|Hs]; [congruence|]. eauto.
      * constructor; [|exact Hall]. simpl. split; [reflexivity|].
        exists seg. split; [assumption|]. split; [assumption|]. split; [reflexivity|].
        split; [reflexivity|].
        assert (In seg (all_segments st (bus_line seg))) as Hs.
        { apply line_segments_In. split; [assumption|]. unfold on_line, bus_line_id.
          apply Z.eqb_refl. }
        destruct (all_segments st (bus_line seg)); [destruct Hs|simpl; lia].
Qed.

Lemma search_route_buses_by_stop_cases osrm st raw target :
  raw <> [] ->
  get_bus_stop_object st raw = Some target ->
  ((forall seg, In seg (all_route_segments st) -> at_stop target seg = false)
   /\ search_route_buses_by_stop osrm st raw
      = mkStopPage [] (Some (NoBusLinesFound target)))
  \/ ((exists seg, In seg (all_route_segments st) /\ at_stop target seg = true)
      /\ exists found,
           search_route_buses_by_stop osrm st raw
           = mkStopPage (sorted_by_line_number found) None
           /\ NoDup (List.map sl_bus_line_number found)
           /\ (forall n,
                 In n (List.map sl_bus_line_number found)
                 <-> exists seg,
                       In seg (all_route_segments st) /\ at_stop target seg = true
                       /\ line_number (bus_line seg) = n)
           /\ Forall (fun r =>
                        sl_searched_stop_name r = name_en target
                        /\ exists seg,
                             In seg (all_route_segments st) /\ at_stop target seg = true
                             /\ line_number (bus_line seg) = sl_bus_line_number r
                             /\ sl_stops_count r = length (all_segments st (bus_line seg))
                             /\ (1 <= sl_stops_count r)%nat) found).
Proof.
  intros Hraw Hres. unfold search_route_buses_by_stop.
  destruct raw as [|c raw]; [congruence|]. simpl qs_exists. simpl negb. cbv iota.
  rewrite Hres.
  assert (forall seg,
            In seg (order_by by_line_number
                      (List.filter (at_stop target) (all_route_segments st)))
            <-> In seg (all_route_segments st) /\ at_stop target seg = true) as Hin
    by (intros seg; now rewrite order_by_In, filter_In).
  destruct (order_by by_line_number (List.filter (at_stop target) (all_route_segments st)))
    as [|s0 rest] eqn:E.
  - left. split; [|reflexivity]. intros seg Hseg.
    destruct (at_stop target seg) eqn:Hat; [|reflexivity].
    exfalso. apply (in_nil (a := seg)), Hin. auto.
  - right. split; [exists s0; apply Hin; now left|].
    destruct (stop_lines_loop_spec osrm st target (s0 :: rest) [] ∅
                (fun seg H => proj1 (Hin seg) H)) as (found & Eloop & Hnd & Hiff & Hall).
    exists found. simpl qs_exists. simpl negb. cbv iota. rewrite Eloop. simpl app.
    split; [reflexivity|]. split; [exact Hnd|]. split; [|exact Hall].
    intros n. rewrite Hiff. split.
    + intros (_ & seg & Hseg & En). exists seg. apply Hin in Hseg. tauto.
    + intros (seg & Hseg & Hat & En). split; [apply not_elem_of_empty|].
      exists seg. split; [apply Hin; auto|assumption].
Qed.

(** X13. The lines at a stop ([buses_by_stop]) for a name that resolves to a
    stop. When no segment stands at the stop, the page says that no bus
    lines were found for it. Otherwise the page names no error and lists the
    line numbers of the segments at the stop, each number once and in strictly
    increasing order; every entry carries the name of the stop searched for
    and counts the segments of its line. *)
Theorem search_route_lines_at_stop
    (osrm : list (Q * Q) -> http_reply) (st : Store) (raw : pystr) (target : BusStop) :
  raw <> [] ->
  get_bus_stop_object st raw = Some target ->
  ((forall seg, In seg (all_route_segments st) -> at_stop target seg = false) ->
   search_route_buses_by_stop osrm st raw = mkStopPage [] (Some (NoBusLinesFound target)))
  /\ ((exists seg, In seg (all_route_segments st) /\ at_stop target seg = true) ->
      sp_error_message (search_route_buses_by_stop osrm st raw) = None
      /\ sp_results (search_route_buses_by_stop osrm st raw) <> [])
  /\ StronglySorted Z.lt
       (List.map sl_bus_line_number (sp_results (search_route_buses_by_stop osrm st raw)))
  /\ (forall n,
        In n (List.map sl_bus_line_number (sp_results (search_route_buses_by_stop osrm st raw)))
        <-> exists seg,
              In seg (all_route_segments st) /\ at_stop target seg = true
              /\ line_number (bus_line seg) = n)
  /\ Forall (fun r =>
               sl_searched_stop_name r = name_en target
               /\ exists seg,
                    In seg (all_route_segments st) /\ at_stop target seg = true
                    /\ line_number (bus_line seg) = sl_bus_line_number r
                    /\ sl_stops_count r = length (all_segments st (bus_line seg))
                    /\ (1 <= sl_stops_count r)%nat)
            (sp_results (search_route_buses_by_stop osrm st raw)).
Proof.
  intros Hraw Hres.
  destruct (search_route_buses_by_stop_cases osrm st raw target Hraw Hres)
    as [[Hnone ->]|[Hsome (found & -> & Hnd & Hiff & Hall)]]; simpl.
  - split; [reflexivity|]. split.
    { intros (seg & Hseg & Hat). rewrite (Hnone seg Hseg) in Hat. discriminate. }
    split; [constructor|]. split; [|constructor].
    intros n. split; [intros []|]. intros (seg & Hseg & Hat & _).
    rewrite (Hnone seg Hseg) in Hat. discriminate.
  - destruct (sorted_by_line_number_spec found) as [Hperm Hsorted].
    assert (Permutation (List.map sl_bus_line_number (sorted_by_line_number found))
                        (List.map sl_bus_line_number found)) as Hpm
      by now apply Permutation_map.
    split.
    { intros Hnone. destruct Hsome as (seg & Hseg & Hat).
      rewrite (Hnone seg Hseg) in Hat. discriminate. }
    split.
    { intros _. split; [reflexivity|]. intros E. rewrite E in Hperm.
      apply Permutation_nil in Hperm. subst found.
      destruct Hsome as (seg & Hseg & Hat).
      apply (in_nil (a := line_number (bus_line seg))). apply (Hiff _). eauto. }
    split.
    { apply sorted_distinct_increasing; [assumption|]. now rewrite Hpm. }
    split.
    { intros n. rewrite <- Hiff. split; intros H.
      - apply list_elem_of_In. rewrite <- Hpm. now apply list_elem_of_In.
      - apply list_elem_of_In. rewrite Hpm. now apply list_elem_of_In. }
    rewrite Hperm. exact Hall.
Qed.

Lemma search_route_lines_at_stop_witness :
  search_route_buses_by_stop osrm_down scenario_store (py "P3")
  = mkStopPage [mkStopBusLine 10 3 None None (py "P3") None None (py "P1") (py "P3");
                mkStopBusLine 20 2 None None (py "P3") None None (py "P3") (py "P4")] None
  /\ StronglySorted Z.lt
       (List.map sl_bus_line_number
          (sp_results (search_route_buses_by_stop osrm_down scenario_store (py "P3")))).
Proof.
  split; [reflexivity|].
  destruct (search_route_lines_at_stop osrm_down scenario_store (py "P3") P3)
    as (_ & _ & H & _); [discriminate|reflexivity|exact H].
Defined.
(** ** Stops between: the page of the branch *)

Lemma find_stops_between_lines st X Y :
  List.map sb_bus_line (find_stops_between st X Y) = common_bus_lines st X Y.
Proof.
  unfold find_stops_between.
  assert (forall lines,
             (forall line, In line lines -> serves st line X /\ serves st line Y) ->
             List.map sb_bus_line (omap (stops_between_line st X Y) lines) = lines) as Hmap.
  { induction lines as [|line lines IH]; intros H; [reflexivity|].
    destruct (H line (or_introl eq_refl)) as [HX HY].
    destruct (stops_between_line_entry st X Y line HX HY) as (r & Er & El & _).
    cbn [omap list_omap]. rewrite Er. simpl. rewrite El. f_equal.
    apply IH. intros l' Hl'. apply H. now right. }
  apply Hmap. intros line. apply common_bus_lines_serves.
Qed.

(** X14. The [between_stops] search for two names that were both given. When
    both resolve, the page lists one entry per line that calls at both stops
    and says that no lines connect the stops exactly when there is no such
    line. When a name does not resolve, the branch renders nothing itself:
    the view ends in the general results page with no results and the
    message naming the stop that was not found, the start stop first. *)
Theorem search_route_between_stops_page (st : Store) (raw1 raw2 : pystr) :
  raw1 <> [] -> raw2 <> [] ->
  match get_bus_stop_object st raw1, get_bus_stop_object st raw2 with
  | Some X, Some Y =>
      exists entries message,
        search_route_between_stops st raw1 raw2
        = BetweenStopsResults entries (Some X) (Some Y) message
        /\ List.map sb_bus_line entries = common_bus_lines st X Y
        /\ (message = Some NoConnectingLines <-> common_bus_lines st X Y = [])
        /\ (message = None <-> common_bus_lines st X Y <> [])
  | None, _ =>
      search_route_between_stops st raw1 raw2 = SearchResults (Some (StartStopNotFound raw1))
  | Some _, None =>
      search_route_between_stops st raw1 raw2 = SearchResults (Some (EndStopNotFound raw2))
  end.
Proof.
  intros H1 H2. unfold search_route_between_stops.
  destruct raw1 as [|c1 r1]; [congruence|]. destruct raw2 as [|c2 r2]; [congruence|].
  simpl qs_exists. simpl negb. simpl orb. cbv iota.
  destruct (get_bus_stop_object st (c1 :: r1)) as [X|]; [|reflexivity].
  destruct (get_bus_stop_object st (c2 :: r2)) as [Y|]; [|reflexivity].
  eexists _, _. split; [reflexivity|].
  pose proof (find_stops_between_lines st X Y) as Hl.
  split; [exact Hl|]. rewrite <- Hl.
  destruct (find_stops_between st X Y); simpl; repeat split; congruence.
Qed.

Lemma search_route_between_stops_page_witness :
  exists entries message,
    search_route_between_stops scenario_store (py "P1") (py "P3")
    = BetweenStopsResults entries (Some P1) (Some P3) message
    /\ List.map sb_bus_line entries = common_bus_lines scenario_store P1 P3
    /\ (message = Some NoConnectingLines <-> common_bus_lines scenario_store P1 P3 = [])
    /\ (message = None <-> common_bus_lines scenario_store P1 P3 <> []).
Proof.
  apply (search_route_between_stops_page scenario_store (py "P1") (py "P3")); discriminate.
Defined.

(** ** Worked instances *)

Lemma get_bus_stop_object_none_iff_witness :
  get_bus_stop_object scenario_store (py "Nowhere (Main Road)") = None.
Proof.
  apply (proj1 (get_bus_stop_object_none_iff scenario_store (py "Nowhere (Main Road)"))).
  intros s Hs. vm_compute in Hs.
  repeat (destruct Hs as [<-|Hs]; [vm_compute; reflexivity|]). contradiction.
Defined.

Lemma find_stops_between_entries_witness :
  List.map sb_bus_line (find_stops_between scenario_store P3 P1) = [line10]
  /\ forall r, In r (find_stops_between scenario_store P3 P1) ->
       sb_total_stops r = length (sb_stops r)
       /\ StronglySorted Z.le (sb_orders r).
Proof.
  destruct (find_stops_between_entries scenario_store P3 P1) as [H1 H2].
  split; [exact H1|]. intros r Hr. destruct (H2 r Hr) as (Ht & _ & Hs & _). auto.
Defined.

Lemma build_graph_edges_witness :
  mkEdge 2 1 10 ∈ default [] (build_graph scenario_store !! 1)
  /\ mkEdge 1 1 10 ∈ default [] (build_graph scenario_store !! 2).
Proof.
  destruct (build_graph_edges scenario_store) as (Hiff & Hsym & _).
  assert (mkEdge 2 1 10 ∈ default [] (build_graph scenario_store !! 1)) as H.
  { apply Hiff. exists (mkRouteSegment line10 P1 1), (mkRouteSegment line10 P2 2).
    split; [|left; split; reflexivity].
    exists [], [mkRouteSegment line10 P3 3]. reflexivity. }
  split; [exact H|exact (Hsym 1 _ H)].
Defined.

(** ** Stop Name Resolver: a name without a road *)

(** X15. For a search string without a road qualifier, or with an empty one,
    [get_bus_stop_object] prefers the stops that have no road: when a stop
    with the name has no road in the language the name matched in ([NULL] or
    the empty string), the stop returned is such a stop, the one with the
    least key; a stop on a road is returned only when there is no such stop,
    and then it is the stop with the least key among those with the name. *)
Theorem get_bus_stop_object_prefers_no_road
    (st : Store) (raw stop_name : pystr) (road_name : option pystr) :
  parse_stop_name_with_road raw = (stop_name, road_name) ->
  str_truthy road_name = false ->
  (forall s,
     In s (all_stops st) -> no_road_query stop_name s = true ->
     exists r,
       get_bus_stop_object st raw = Some r
       /\ In r (all_stops st)
       /\ no_road_query stop_name r = true
       /\ stop_id r <= stop_id s)
  /\ ((forall s, In s (all_stops st) -> no_road_query stop_name s = false) ->
      get_bus_stop_object st raw
      = first_by_pk (List.filter (name_query stop_name) (all_stops st))
      /\ forall r s,
           get_bus_stop_object st raw = Some r ->
           In s (all_stops st) -> name_query stop_name s = true ->
           stop_id r <= stop_id s).
Proof.
  intros Hp Ht. unfold get_bus_stop_object. rewrite Hp, Ht. split.
  - intros s Hs Hq.
    assert (In s (List.filter (no_road_query stop_name) (all_stops st))) as Hf
      by (apply filter_In; auto).
    destruct (List.filter (no_road_query stop_name) (all_stops st)) as [|x l] eqn:E;
      [contradiction|].
    simpl qs_exists. cbv iota. rewrite E.
    destruct (first_by_pk (x :: l)) as [r|] eqn:F; [|apply first_by_pk_none in F; discriminate].
    exists r. split; [reflexivity|].
    pose proof (first_by_pk_in _ _ F) as Hr. rewrite <- E in Hr.
    apply filter_In in Hr as [Hr Hrq].
    split; [assumption|]. split; [assumption|]. exact (first_by_pk_least _ _ s F Hf).
  - intros Hnone. apply filter_nil_iff in Hnone. rewrite Hnone. simpl qs_exists. cbv iota.
    split; [reflexivity|].
    intros r s F Hs Hq. apply (first_by_pk_least _ _ s F). apply filter_In. auto.
Qed.

Lemma get_bus_stop_object_prefers_no_road_witness :
  get_bus_stop_object central_store (py "Central") = Some (plain_stop 2 "Central").
Proof.
  destruct (get_bus_stop_object_prefers_no_road central_store (py "Central") (py "Central")
              None eq_refl eq_refl) as [H _].
  destruct (H (plain_stop 2 "Central")) as (r & Hr & Hin & Hq & _).
  { vm_compute. auto. }
  { vm_compute. reflexivity. }
  rewrite Hr. f_equal.
  vm_compute in Hin. destruct Hin as [<-|[<-|[]]]; [vm_compute in Hq; discriminate|reflexivity].
Defined.
